(** * Input mask: pattern compiler and formatting engine

    A shallow embedding of [src/script.ts].  The pattern compiler
    ([parseMask], [splitBySeparators], [parseFragment], [parseGroup],
    [parseQuantifier], [makeSymbolNode]) and the formatting engine
    ([formatValue], [consumeNodes], [consumeNode], [consumeSymbol],
    [consumeGroup], [canStartWithChar], [separatorLengthAt],
    [joinWithSeparators], [matchesNode], [hasNonDigitSymbol]) are
    translated function by function.

    Conventions of the embedding:
    - a JavaScript string is the list of its UTF-16 code units ([str]),
      and a code unit is a number of type [N];
    - the scan index [i] that the compiler shares between [parseFragment]
      and the nested [parseGroup] is threaded explicitly, as the part of
      the text that is still to be read;
    - [fail(message)] is [Throw e], one constructor of [MaskError] per
      message;
    - loops whose index jumps forward by more than one position run on a
      fuel argument; the callers pass enough fuel and this is proved;
    - the bounds of a symbol are JavaScript numbers: [Number(body)] is the
      double nearest to the numeral, or [Infinity];
    - the raw value of [format] has the type [unknown]: [JsValue] holds the
      values that [String] converts, [Unknown] adds those whose conversion
      raises. *)

From Stdlib Require Import ZArith NArith List String Ascii Bool Lia.
From Stdlib Require Import DecimalString DecimalFacts DecimalPos DecimalN.
From stdpp Require Import list.
Import ListNotations.

Local Open Scope nat_scope.
Local Open Scope list_scope.

(** ** Strings *)

Definition char := N.
Definition str := list char.

Definition ch (a : ascii) : char := N_of_ascii a.

(** An ASCII literal of the development as a JavaScript string. *)
Definition js (s : string) : str := map N_of_ascii (list_ascii_of_string s).

Definition isEmpty {A} (l : list A) : bool :=
  match l with [] => true | _ :: _ => false end.

Definition str_eqb (a b : str) : bool := bool_decide (a = b).

(** [s.indexOf(c, from)], as an offset into the text that starts at [from]. *)
Fixpoint indexOf (c : char) (s : str) : option nat :=
  match s with
  | [] => None
  | x :: s' => if N.eqb x c then Some 0 else option_map S (indexOf c s')
  end.

(** [input.startsWith(sep, p)]. *)
Fixpoint isPrefix (sep s : str) : bool :=
  match sep, s with
  | [], _ => true
  | _ :: _, [] => false
  | a :: sep', b :: s' => N.eqb a b && isPrefix sep' s'
  end.

Definition startsWith (input sep : str) (p : nat) : bool :=
  isPrefix sep (drop p input).

(** [/\d/]: the ten ASCII digits. *)
Definition DIGIT_RE (c : char) : bool := (N.leb 48 c && N.leb c 57).

(** [LETTER_RE]: Latin letters and the Cyrillic block U+0400 to U+04FF. *)
Definition LETTER_RE (c : char) : bool :=
  (N.leb 65 c && N.leb c 90) || (N.leb 97 c && N.leb c 122)
  || (N.leb 1024 c && N.leb c 1279).

(** [/\s/], which is also the set that [trimEnd] removes: the white space
    and line terminator code units of ECMAScript. *)
Definition isWhiteSpace (c : char) : bool :=
  (N.leb 9 c && N.leb c 13) || N.eqb c 32 || N.eqb c 160 || N.eqb c 5760
  || (N.leb 8192 c && N.leb c 8202) || N.eqb c 8232 || N.eqb c 8233
  || N.eqb c 8239 || N.eqb c 8287 || N.eqb c 12288 || N.eqb c 65279.

(** ** The compiled mask *)

Inductive SymbolKind := KindA | Kind0 | KindLiteral.

(** A JavaScript number that is a count: a double whose value is a natural
    number, or [Infinity].  The bounds of a symbol are such numbers: 1, the
    value of [Number(body)] for a body of decimal digits, or [Infinity]. *)
Inductive num := Fin (n : N) | Infinity.

Definition num_ltb (count : N) (m : num) : bool :=
  match m with Fin n => N.ltb count n | Infinity => true end.

(** [count >= m] *)
Definition num_leb (m : num) (count : N) : bool :=
  match m with Fin n => N.leb n count | Infinity => false end.

Definition num_le (a b : num) : Prop :=
  match a, b with
  | Fin x, Fin y => (x <= y)%N
  | _, Infinity => True
  | Infinity, Fin _ => False
  end.

Record SymbolNode := mkSymbol {
  kind : SymbolKind;
  value : option char;
  min : num;
  max : num
}.

#[local] Unset Elimination Schemes.
Inductive MaskNode :=
| SymbolN (s : SymbolNode)
| GroupN (alternatives : list (list MaskNode)).
#[local] Set Elimination Schemes.

Record ParsedMask := mkParsed {
  fragments : list (list MaskNode);
  separators : list str
}.

Record ConsumeResult := mkResult {
  out : str;
  raw : str;
  pos : nat;
  satisfied : bool;
  advanced : Z
}.

(** ** Errors of the compiler *)

Inductive MaskError :=
| PatternMustBeNonEmpty
| UnmatchedClosingGroup
| SeparatorNotClosed
| EmptyFragmentBeforeSeparator
| SeparatorsInsideGroup
| UnclosedGroup
| EmptyFragmentAtEnd
| QuantifierOnGroup
| UnexpectedClosingBracket
| UnexpectedPipeOutsideGroup
| EmptyAlternativeInGroup
| UnexpectedSymbolInGroup (c : char)
| UnclosedQuantifier
| EmptyQuantifier
| InvalidQuantifier (body : str)
| UnexpectedSymbol (c : char)
| UnexpectedOpenBracket.

Inductive result (A : Type) :=
| Ok (a : A)
| Throw (e : MaskError)
| OutOfFuel.
Arguments Ok {A} a.
Arguments Throw {A} e.
Arguments OutOfFuel {A}.

Definition bind {A B} (m : result A) (k : A -> result B) : result B :=
  match m with
  | Ok a => k a
  | Throw e => Throw e
  | OutOfFuel => OutOfFuel
  end.

Notation "'let*' x ':=' m 'in' k" := (bind m (fun x => k))
  (at level 10, x pattern, m at level 100, k at level 200).

Definition isOk {A} (m : result A) : bool :=
  match m with Ok _ => true | _ => false end.

(** ** Pattern compiler *)

Definition isChar (a : ascii) (c : char) : bool := N.eqb c (ch a).
Definition nextIs (a : ascii) (rest : str) : bool :=
  match rest with c :: _ => isChar a c | [] => false end.

Definition makeSymbolNode (c : char) : result SymbolNode :=
  if isChar ":" c || isChar "{" c || isChar "}" c || isChar "|" c || isChar "]" c
  then Throw (UnexpectedSymbol c)
  else if isChar "[" c then Throw UnexpectedOpenBracket
  else
    let isLetter := isChar "A" c in
    let isDigit := isChar "0" c in
    Ok {| kind := if isLetter then KindA else if isDigit then Kind0 else KindLiteral;
          value := if isLetter || isDigit then None else Some c;
          min := Fin 1; max := Fin 1 |}.

(** [/^[1-9]\d*$/.test(body)] *)
Definition POSITIVE_INT_RE (body : str) : bool :=
  match body with
  | [] => false
  | c :: ds => (N.leb 49 c && N.leb c 57) && forallb DIGIT_RE ds
  end.

(** The mathematical value of a body of decimal digits, read from left
    to right. *)
Definition MV (body : str) : N :=
  fold_left (fun acc c => (10 * acc + (c - 48))%N) body 0%N.

(** The double nearest to a natural number, ties to the even significand:
    the number itself below 2^53; above, the multiple of [2^e] nearest to
    it, where [e] leaves 53 significant bits; [Infinity] when that is 2^1024
    or more. *)
Definition toDouble (n : N) : num :=
  if (n <? 2 ^ 53)%N then Fin n
  else
    let e := (N.log2 n - 52)%N in
    let q := (n / 2 ^ e)%N in
    let r := (n mod 2 ^ e)%N in
    let half := (2 ^ (e - 1))%N in
    let q' := if (half <? r)%N || ((r =? half)%N && N.odd q) then (q + 1)%N else q in
    let v := (q' * 2 ^ e)%N in
    if (2 ^ 1024 <=? v)%N then Infinity else Fin v.

(** [Number(body)] for a body of decimal digits: the Number value of its
    mathematical value, correctly rounded (as the engines do; for a body of
    more than 20 significant digits ECMAScript also allows the digits after
    the 20th to be read as zeros). *)
Definition Number (body : str) : num := toDouble (MV body).

(** [parseQuantifier(fragment, startIndex)]; [rest] is the fragment from
    [startIndex] on, and the third component of the result is the fragment
    from [nextIndex] on. *)
Definition parseQuantifier (rest : str) : result (num * num * str) :=
  match indexOf (ch "}") rest with
  | None => Throw UnclosedQuantifier
  | Some e =>
      let body := take e rest in
      if isEmpty body then Throw EmptyQuantifier
      else if str_eqb body (js "+") then Ok (Fin 1, Infinity, drop (S e) rest)
      else if negb (POSITIVE_INT_RE body) then Throw (InvalidQuantifier body)
      else let count := Number body in Ok (count, count, drop (S e) rest)
  end.

Definition withQuantifier (node : SymbolNode) (mn mx : num) : SymbolNode :=
  {| kind := kind node; value := value node; min := mn; max := mx |}.

(** A symbol and its optional quantifier: the last part of both parse
    loops.  [rest1] is the text after the symbol's character. *)
Definition parseSymbol (c : char) (rest1 : str) : result (SymbolNode * str) :=
  let* node := makeSymbolNode c in
  if nextIs "{" rest1 then
    let* (mn, mx, rest') := parseQuantifier (tl rest1) in
    Ok (withQuantifier node mn mx, rest')
  else Ok (node, rest1).

(** The nested function [parseGroup], entered after the opening brackets.
    The loop state is ([alternatives], [current]) and the rest of the
    fragment; it returns the group and the fragment after its closing
    brackets. *)
Fixpoint parseGroup (fuel : nat) (alts : list (list MaskNode))
    (current : list MaskNode) (rest : str) : result (MaskNode * str) :=
  match fuel with
  | 0 => OutOfFuel
  | S fuel' =>
      match rest with
      | [] => Throw UnclosedGroup
      | currentChar :: rest1 =>
          if isChar ":" currentChar && negb (isEmpty rest1)
          then Throw SeparatorsInsideGroup
          else if isChar "[" currentChar && nextIs "[" rest1 then
            let* (g, rest') := parseGroup fuel' [] [] (tl rest1) in
            parseGroup fuel' alts (current ++ [g]) rest'
          else if isChar "|" currentChar then
            if isEmpty current then Throw EmptyAlternativeInGroup
            else parseGroup fuel' (alts ++ [current]) [] rest1
          else if isChar "]" currentChar && nextIs "]" rest1 then
            if isEmpty current then Throw EmptyAlternativeInGroup
            else Ok (GroupN (alts ++ [current]), tl rest1)
          else if isChar "]" currentChar || isChar "{" currentChar || isChar "}" currentChar
          then Throw (UnexpectedSymbolInGroup currentChar)
          else
            let* (node, rest') := parseSymbol currentChar rest1 in
            parseGroup fuel' alts (current ++ [SymbolN node]) rest'
      end
  end.

(** The top-level loop of [parseFragment]. *)
Fixpoint parseFragment_loop (fuel : nat) (nodes : list MaskNode) (rest : str)
    : result (list MaskNode) :=
  match fuel with
  | 0 => OutOfFuel
  | S fuel' =>
      match rest with
      | [] => Ok nodes
      | c :: rest1 =>
          if isChar "[" c && nextIs "[" rest1 then
            let* (groupNode, rest') := parseGroup fuel' [] [] (tl rest1) in
            if nextIs "{" rest' then Throw QuantifierOnGroup
            else parseFragment_loop fuel' (nodes ++ [groupNode]) rest'
          else if isChar "]" c || (isChar "]" c && nextIs "]" rest1)
          then Throw UnexpectedClosingBracket
          else if isChar "|" c then Throw UnexpectedPipeOutsideGroup
          else
            let* (node, rest') := parseSymbol c rest1 in
            parseFragment_loop fuel' (nodes ++ [SymbolN node]) rest'
      end
  end.

Definition parseFragment (fragment : str) : result (list MaskNode) :=
  parseFragment_loop (S (length fragment)) [] fragment.

(** The loop of [splitBySeparators]. *)
Fixpoint splitBySeparators_loop (fuel : nat) (frags seps : list str)
    (current : str) (depth : nat) (rest : str) : result (list str * list str) :=
  match fuel with
  | 0 => OutOfFuel
  | S fuel' =>
      match rest with
      | [] =>
          if negb (Nat.eqb depth 0) then Throw UnclosedGroup
          else if isEmpty current then Throw EmptyFragmentAtEnd
          else Ok (frags ++ [current], seps)
      | c :: rest1 =>
          if isChar "[" c && nextIs "[" rest1 then
            splitBySeparators_loop fuel' frags seps (current ++ js "[[")
              (depth + 1) (tl rest1)
          else if isChar "]" c && nextIs "]" rest1 then
            if Nat.eqb depth 0 then Throw UnmatchedClosingGroup
            else splitBySeparators_loop fuel' frags seps (current ++ js "]]")
                   (depth - 1) (tl rest1)
          else if isChar ":" c && Nat.eqb depth 0 then
            match indexOf (ch ":") rest1 with
            | None => Throw SeparatorNotClosed
            | Some e =>
                let sep := take e rest1 in
                if isEmpty current then Throw EmptyFragmentBeforeSeparator
                else splitBySeparators_loop fuel' (frags ++ [current])
                       (seps ++ [sep]) [] depth (drop (S e) rest1)
            end
          else if isChar ":" c && Nat.ltb 0 depth then Throw SeparatorsInsideGroup
          else splitBySeparators_loop fuel' frags seps (current ++ [c]) depth rest1
      end
  end.

Definition splitBySeparators (pattern : str) : result (list str * list str) :=
  splitBySeparators_loop (S (length pattern)) [] [] [] 0 pattern.

(** [rawFragments.map(parseFragment)]: the first failure is the one raised. *)
Fixpoint mapParse (rawFragments : list str) : result (list (list MaskNode)) :=
  match rawFragments with
  | [] => Ok []
  | f :: fs =>
      let* nodes := parseFragment f in
      let* rest := mapParse fs in
      Ok (nodes :: rest)
  end.

Definition parseMask (pattern : str) : result ParsedMask :=
  if isEmpty pattern then Throw PatternMustBeNonEmpty
  else
    let* (rawFragments, seps) := splitBySeparators pattern in
    let* frags := mapParse rawFragments in
    Ok {| fragments := frags; separators := seps |}.

(** ** Formatting engine *)

Definition matchesNode (node : SymbolNode) (c : char) : bool :=
  match kind node with
  | KindA => LETTER_RE c
  | Kind0 => DIGIT_RE c
  | KindLiteral =>
      match value node with Some v => N.eqb c v | None => false end
  end.

(** [canStartWithChar] looks at the first node only; for a group it asks
    the same question of every alternative. *)
Fixpoint canStartNode (first : MaskNode) (c : char) : bool :=
  match first with
  | SymbolN s => matchesNode s c
  | GroupN alternatives =>
      existsb (fun alt => match alt with
                          | [] => false
                          | first' :: _ => canStartNode first' c
                          end) alternatives
  end.

Definition canStartWithChar (nodes : list MaskNode) (c : char) : bool :=
  match nodes with
  | [] => false
  | first :: _ => canStartNode first c
  end.

Fixpoint separatorLengthAt (input : str) (p : nat) (seps : list str) : nat :=
  match seps with
  | [] => 0
  | sep :: seps' =>
      if isEmpty sep then separatorLengthAt input p seps'
      else if startsWith input sep p then length sep
      else separatorLengthAt input p seps'
  end.

(** The loop at the head of each iteration of [consumeNodes]:
    [while (sepAhead > 0) pos += sepAhead]. *)
Fixpoint skipSeparators_loop (fuel : nat) (input : str) (seps : list str)
    (p : nat) : nat :=
  match fuel with
  | 0 => p
  | S fuel' =>
      let sepAhead := separatorLengthAt input p seps in
      if 0 <? sepAhead then skipSeparators_loop fuel' input seps (p + sepAhead)
      else p
  end.

Definition skipSeparators (input : str) (p : nat) (seps : list str) : nat :=
  skipSeparators_loop (length input - p) input seps p.

(** The loop of [consumeSymbol].  [rest] is [input] from [p] on, so its
    head is [input[pos]] and it is empty when [pos < input.length] fails. *)
Fixpoint consumeSymbol_loop (node : SymbolNode) (input : str) (startPos : nat)
    (seps : list str) (remainingNodes : list MaskNode)
    (rest : str) (o r : str) (p : nat) (count : N) : ConsumeResult :=
  let finished :=
    {| out := o; raw := r; pos := p; satisfied := num_leb (min node) count;
       advanced := Z.of_nat p - Z.of_nat startPos |} in
  match rest with
  | [] => finished
  | c :: rest' =>
      if num_ltb count (max node) then
        let sepLen := separatorLengthAt input p seps in
        if 0 <? sepLen then
          {| out := o; raw := r; pos := p + sepLen;
             satisfied := num_leb (min node) count;
             advanced := Z.of_nat p - Z.of_nat startPos |}
        else if matchesNode node c then
          consumeSymbol_loop node input startPos seps remainingNodes rest'
            (o ++ [c]) (r ++ [c]) (p + 1) (count + 1)%N
        else if num_leb (min node) count && canStartWithChar remainingNodes c
        then finished
        else
          consumeSymbol_loop node input startPos seps remainingNodes rest'
            o r (p + 1) count
      else finished
  end.

Definition consumeSymbol (node : SymbolNode) (input : str) (startPos : nat)
    (seps : list str) (remainingNodes : list MaskNode) : ConsumeResult :=
  consumeSymbol_loop node input startPos seps remainingNodes
    (drop startPos input) [] [] startPos 0%N.

(** [tailNodes && tailNodes.length ? remaining.concat(tailNodes) : remaining] *)
Definition lookaheadOf (remaining : list MaskNode)
    (tailNodes : option (list MaskNode)) : list MaskNode :=
  match tailNodes with
  | Some t => if isEmpty t then remaining else remaining ++ t
  | None => remaining
  end.

(** The comparison of [consumeGroup]. *)
Definition better (result best : ConsumeResult) : bool :=
  (length (raw best) <? length (raw result))
  || ((length (raw result) =? length (raw best))
      && Z.ltb (advanced result) (advanced best))
  || ((length (raw result) =? length (raw best))
      && Z.eqb (advanced result) (advanced best)
      && satisfied result && negb (satisfied best)).

Definition noMatch (startPos : nat) : ConsumeResult :=
  {| out := []; raw := []; pos := startPos; satisfied := false; advanced := 0 |}.

(** The bodies of [consumeNodes] and [consumeGroup], over the function
    that consumes one node. *)
Section Loops.
Variable consumeNodeRec :
  MaskNode -> str -> nat -> list str -> list MaskNode -> ConsumeResult.

Fixpoint consumeNodes_loop (input : str) (startPos : nat) (seps : list str)
    (tailNodes : option (list MaskNode))
    (nodes : list MaskNode) (o r : str) (p : nat) {struct nodes}
    : ConsumeResult :=
  match nodes with
  | [] =>
      {| out := o; raw := r; pos := p; satisfied := true;
         advanced := Z.of_nat p - Z.of_nat startPos |}
  | node :: remaining =>
      let p1 := skipSeparators input p seps in
      let lookahead := lookaheadOf remaining tailNodes in
      let result := consumeNodeRec node input p1 seps lookahead in
      if satisfied result then
        consumeNodes_loop input startPos seps tailNodes remaining
          (o ++ out result) (r ++ raw result) (pos result)
      else
        {| out := o ++ out result; raw := r ++ raw result;
           pos := pos result; satisfied := false;
           advanced := Z.of_nat (pos result) - Z.of_nat startPos |}
  end.

Definition consumeNodesWith (nodes : list MaskNode) (input : str)
    (startPos : nat) (seps : list str) (tailNodes : option (list MaskNode))
    : ConsumeResult :=
  consumeNodes_loop input startPos seps tailNodes nodes [] [] startPos.

Fixpoint consumeGroup_loop (input : str) (startPos : nat) (seps : list str)
    (tailNodes : list MaskNode)
    (alts : list (list MaskNode)) (best : ConsumeResult) {struct alts}
    : ConsumeResult :=
  match alts with
  | [] => best
  | alt :: alts' =>
      let result := consumeNodesWith alt input startPos seps (Some tailNodes) in
      consumeGroup_loop input startPos seps tailNodes alts'
        (if better result best then result else best)
  end.

Definition consumeGroupWith (alternatives : list (list MaskNode)) (input : str)
    (startPos : nat) (seps : list str) (tailNodes : list MaskNode)
    : ConsumeResult :=
  consumeGroup_loop input startPos seps tailNodes alternatives (noMatch startPos).
End Loops.

Fixpoint consumeNode (node : MaskNode) (input : str) (startPos : nat)
    (seps : list str) (remainingNodes : list MaskNode) {struct node}
    : ConsumeResult :=
  match node with
  | SymbolN s => consumeSymbol s input startPos seps remainingNodes
  | GroupN alternatives =>
      consumeGroupWith consumeNode alternatives input startPos seps remainingNodes
  end.

Definition consumeNodes := consumeNodesWith consumeNode.
Definition consumeGroup := consumeGroupWith consumeNode.

Fixpoint hasNonDigitNode (node : MaskNode) : bool :=
  match node with
  | SymbolN s => match kind s with Kind0 => false | _ => true end
  | GroupN alternatives => existsb (existsb hasNonDigitNode) alternatives
  end.

Definition hasNonDigitSymbol (nodes : list MaskNode) : bool :=
  existsb hasNonDigitNode nodes.

Fixpoint joinWithSeparators (fragmentOutputs : list str) (seps : list str) : str :=
  match fragmentOutputs with
  | [] => []
  | part :: rest =>
      if isEmpty part then []
      else
        part
        ++ match seps, rest with
           | sep :: _, nextPart :: _ => if isEmpty nextPart then [] else sep
           | _, _ => []
           end
        ++ joinWithSeparators rest (tl seps)
  end.

(** [Array.prototype.join]. *)
Fixpoint join (sep : str) (parts : list str) : str :=
  match parts with
  | [] => []
  | [x] => x
  | x :: parts' => x ++ sep ++ join sep parts'
  end.

(** [input.split(/\s+/)]: [inRun] records that the previous code unit was
    white space, [current] is the piece being read. *)
Fixpoint splitWhiteSpace (inRun : bool) (current : str) (s : str) : list str :=
  match s with
  | [] => [current]
  | c :: s' =>
      if isWhiteSpace c then
        if inRun then splitWhiteSpace true current s'
        else current :: splitWhiteSpace true [] s'
      else splitWhiteSpace false (current ++ [c]) s'
  end.

Definition words (input : str) : list str :=
  filter (fun w => w <> []) (splitWhiteSpace false [] input).

Fixpoint trimEnd (s : str) : str :=
  match s with
  | [] => []
  | c :: s' =>
      match trimEnd s' with
      | [] => if isWhiteSpace c then [] else [c]
      | t => c :: t
      end
  end.

(** [masked.replace(/\s+$/, ' ')] *)
Definition replaceTrailingWhiteSpace (s : str) : str :=
  let t := trimEnd s in
  if length t <? length s then t ++ js " " else s.

(** [/\s$/.test(input)] *)
Definition endsInWhiteSpace (input : str) : bool :=
  match last input with Some c => isWhiteSpace c | None => false end.

(** [separators.filter(Boolean).sort((a, b) => b.length - a.length)]: the
    sort is stable. *)
Fixpoint insertByLength (x : str) (l : list str) : list str :=
  match l with
  | [] => [x]
  | y :: l' => if length y <=? length x then x :: l else y :: insertByLength x l'
  end.

Definition sortLongestFirst (l : list str) : list str :=
  foldr insertByLength [] l.

(** The values that [String] converts to a text.  [JsInteger] is a Number
    whose value is a safe integer, below 2^53 in magnitude: its text is its
    decimal numeral.  [JsOther] stands for any other value whose conversion
    returns (a Number that is no safe integer, a bigint, a symbol, an
    object whose conversion methods return), given by the text that
    [String] returns for it.  The values whose conversion raises are in
    [Unknown], below. *)
Inductive JsValue :=
| JsUndefined
| JsNull
| JsString (s : str)
| JsBoolean (b : bool)
| JsInteger (z : Z) (safe : (Z.abs z <? 2 ^ 53)%Z = true)
| JsOther (text : str).

(** [String(rawValue)] *)
Definition ToString (v : JsValue) : str :=
  match v with
  | JsUndefined => js "undefined"
  | JsNull => js "null"
  | JsString s => s
  | JsBoolean b => if b then js "true" else js "false"
  | JsInteger z _ => js (NilZero.string_of_int (Z.to_int z))
  | JsOther text => text
  end.

(** [rawValue == null ? '' : String(rawValue)] *)
Definition inputOf (rawValue : JsValue) : str :=
  match rawValue with
  | JsUndefined | JsNull => []
  | _ => ToString rawValue
  end.

Definition manualSpaceMask (parsed : ParsedMask) : bool :=
  let separatorsAreSpaces :=
    (0 <? length (separators parsed))
    && forallb (fun s => str_eqb s (js " ")) (separators parsed) in
  separatorsAreSpaces && existsb hasNonDigitSymbol (fragments parsed).

(** The loop of the manual-space branch; [frags] are the fragments from
    index [i] on.  The result lists what was pushed. *)
Fixpoint manualFragments (frags : list (list MaskNode)) (parts : list str)
    (i : nat) : list ConsumeResult :=
  match frags with
  | [] => []
  | fragmentNodes :: frags' =>
      let valuePart := nth i parts [] in
      let result := consumeNodes fragmentNodes valuePart 0 [] None in
      result :: (if satisfied result then manualFragments frags' parts (S i) else [])
  end.

(** The loop of the contiguous branch; [tail] is [parsed.fragments[i + 1]]. *)
Fixpoint contiguousFragments (frags : list (list MaskNode)) (input : str)
    (sepList : list str) (p : nat) : list ConsumeResult :=
  match frags with
  | [] => []
  | fragmentNodes :: frags' =>
      let tail := head frags' in
      let result := consumeNodes fragmentNodes input p sepList tail in
      result :: (if satisfied result
                 then contiguousFragments frags' input sepList (pos result)
                 else [])
  end.

Record Formatted := mkFormatted { recognized : str; masked : str }.

Definition formatManualSpace (parsed : ParsedMask) (input : str) : Formatted :=
  let hasTrailingSpace := endsInWhiteSpace input in
  let parts := words input in
  let results := manualFragments (fragments parsed) parts 0 in
  let joined := join (js " ") (map out results) in
  {| recognized := concat (map raw results);
     masked := if hasTrailingSpace then replaceTrailingWhiteSpace joined
               else trimEnd joined |}.

Definition formatContiguous (parsed : ParsedMask) (input : str) : Formatted :=
  let sepList :=
    sortLongestFirst (filter (fun s => s <> []) (separators parsed)) in
  let results := contiguousFragments (fragments parsed) input sepList 0 in
  {| recognized := concat (map raw results);
     masked := joinWithSeparators (map out results) (separators parsed) |}.

Definition formatValue (parsed : ParsedMask) (rawValue : JsValue) : Formatted :=
  let input := inputOf rawValue in
  if manualSpaceMask parsed then formatManualSpace parsed input
  else formatContiguous parsed input.

(** [Mask.create(pattern).format(value)] *)
Definition format (parsed : ParsedMask) (value : JsValue) : str :=
  masked (formatValue parsed value).

(** What the conversion of a value can raise instead of returning: the
    [TypeError] of an object that has no conversion method that returns a
    primitive, or whatever a conversion method of the caller throws. *)
Inductive Exception := TypeError | Raised (what : str).

Inductive completion (A : Type) :=
| Normal (a : A)
| Abrupt (e : Exception).
Arguments Normal {A} a.
Arguments Abrupt {A} e.

(** A value of type [unknown], as [formatValue] sees it: a value that
    [String] converts, or a value whose conversion raises, as
    [Object.create(null)] or an object whose [toString] throws. *)
Inductive Unknown :=
| Convertible (v : JsValue)
| Unconvertible (e : Exception).

(** [formatValue(parsed, rawValue)] for any value: the conversion on the
    first line of the function is the only step that can raise. *)
Definition formatValueUnknown (parsed : ParsedMask) (rawValue : Unknown)
    : completion Formatted :=
  match rawValue with
  | Convertible v => Normal (formatValue parsed v)
  | Unconvertible e => Abrupt e
  end.

(** [Mask.create(pattern).format(value)] for any value. *)
Definition formatUnknown (parsed : ParsedMask) (value : Unknown) : completion str :=
  match formatValueUnknown parsed value with
  | Normal r => Normal (masked r)
  | Abrupt e => Abrupt e
  end.

Definition create (pattern : str) : result (JsValue -> str) :=
  let* parsed := parseMask pattern in Ok (format parsed).

Definition run (pattern input : string) : result string :=
  let* f := create (js pattern) in
  Ok (string_of_list_ascii (map ascii_of_N (f (JsString (js input))))).

(** ** The nodes of a mask *)

(** What the compiler guarantees of a node: a symbol repeats at least once
    and at most [min] times or without bound ([min] itself is [Infinity]
    when the numeral of the quantifier is too large for a double); a group has an alternative
    and none of its alternatives is empty. *)
#[local] Unset Elimination Schemes.
Inductive WellFormed : MaskNode -> Prop :=
| wf_symbol (s : SymbolNode) :
    num_le (Fin 1) (min s) -> max s = min s \/ max s = Infinity ->
    WellFormed (SymbolN s)
| wf_group (alternatives : list (list MaskNode)) :
    alternatives <> [] ->
    Forall (fun alt => alt <> [] /\ Forall WellFormed alt) alternatives ->
    WellFormed (GroupN alternatives).
#[local] Set Elimination Schemes.

(** All the nodes of a mask, those inside the alternatives of its groups
    included. *)
Fixpoint nodesOf (node : MaskNode) : list MaskNode :=
  node :: match node with
          | SymbolN _ => []
          | GroupN alternatives => flat_map (flat_map nodesOf) alternatives
          end.

Definition allNodes (parsed : ParsedMask) : list MaskNode :=
  flat_map (flat_map nodesOf) (fragments parsed).

(** The node of the pattern [A]. *)
Definition letterNode : MaskNode :=
  SymbolN {| kind := KindA; value := None; min := Fin 1; max := Fin 1 |}.

(** The node of the pattern [0]. *)
Definition digitNode : MaskNode :=
  SymbolN {| kind := Kind0; value := None; min := Fin 1; max := Fin 1 |}.

(** ** The specification's reading of the format branches *)




(** "The fragment contains a non-digit symbol", searching through the
    alternatives of its groups. *)
Inductive ContainsNonDigit : list MaskNode -> Prop :=
| nonDigit_here (nodes : list MaskNode) (s : SymbolNode) :
    In (SymbolN s) nodes -> kind s <> Kind0 -> ContainsNonDigit nodes
| nonDigit_inside (nodes : list MaskNode) (alternatives : list (list MaskNode))
    (alt : list MaskNode) :
    In (GroupN alternatives) nodes -> In alt alternatives ->
    ContainsNonDigit alt -> ContainsNonDigit nodes.

(** The trailing white space of the output is exactly one space. *)
Definition keepsOneTrailingSpace (s : str) : Prop :=
  exists core, s = core ++ js " " /\ endsInWhiteSpace core = false.

(** White space does not occur in the text. *)
Definition NoWhiteSpace (s : str) : Prop := Forall (fun c => isWhiteSpace c = false) s.

(** [input.slice(a, b)] for [a <= b]. *)
Definition slice (input : str) (a b : nat) : str := take (b - a) (drop a input).

(** The decimal numeral of a natural number, without leading zeros. *)
Definition decimal (n : N) : str := js (NilEmpty.string_of_uint (N.to_uint n)).

(** ** Predicates used in the properties *)

(** The result of consuming from [startPos]: the output is the recognized
    text, the cursor did not move back, and the recognized text is read,
    in order, from the part of the input the cursor moved over. *)
Definition Recognized (input : str) (startPos : nat) (r : ConsumeResult) : Prop :=
  out r = raw r /\ startPos <= pos r
  /\ raw r `sublist_of` slice input startPos (pos r).



(** The alternatives and the fragments the compiler builds. *)
Definition AlternativeOk (alt : list MaskNode) : Prop :=
  alt <> [] /\ Forall WellFormed alt.

Definition FragmentOk (f : list MaskNode) : Prop := f <> [] /\ Forall WellFormed f.

(** The shape of the list of per-fragment results: the fragments are tried
    in order, every result before the last is satisfied, and the list is
    shorter than the list of fragments only when its last result is not
    satisfied. *)
Definition StopsAtFirstUnsatisfied (frags : list (list MaskNode))
    (results : list ConsumeResult) : Prop :=
  length results <= length frags
  /\ (forall k r, results !! k = Some r -> S k < length results -> satisfied r = true)
  /\ (Forall (fun r => satisfied r = true) results -> length results = length frags).

(** ** Printing a split pattern *)

(** The parts with the separators between them: part 0, separator 0,
    part 1, and so on. *)
Fixpoint interleave (parts seps : list str) : str :=
  match parts with
  | [] => []
  | [x] => x
  | x :: parts' => x ++ hd [] seps ++ interleave parts' (tl seps)
  end.

(** A separator as it is written in a pattern, between two colons. *)
Definition delimited (sep : str) : str := ch ":" :: sep ++ [ch ":"].

(** The text of the fragments that are closed already, each with the
    separator that follows it. *)
Fixpoint closedText (frags seps : list str) : str :=
  match frags, seps with
  | f :: frags', sep :: seps' => f ++ delimited sep ++ closedText frags' seps'
  | _, _ => []
  end.

Definition NoColon (s : str) : Prop := Forall (fun c => isChar ":" c = false) s.

(** ** The symbols of a compiled mask *)

(** The characters that [makeSymbolNode] refuses. *)
Definition reserved (c : char) : bool :=
  isChar ":" c || isChar "{" c || isChar "}" c || isChar "|" c || isChar "]" c
  || isChar "[" c.

(** The node [makeSymbolNode] returns for a character it accepts. *)
Definition plainSymbol (c : char) : SymbolNode :=
  {| kind := if isChar "A" c then KindA else if isChar "0" c then Kind0 else KindLiteral;
     value := if isChar "A" c || isChar "0" c then None else Some c;
     min := Fin 1; max := Fin 1 |}.

(** A count that a double holds: [Infinity], or a natural number that the
    rounding to the nearest double leaves as it is. *)
Definition IsDouble (m : num) : Prop :=
  match m with Fin n => toDouble n = Fin n | Infinity => True end.

(** A symbol as the compiler builds it: the node of one accepted character,
    with the bounds of a quantifier. *)
Definition Compiled (s : SymbolNode) : Prop :=
  exists c,
    reserved c = false
    /\ kind s = kind (plainSymbol c) /\ value s = value (plainSymbol c)
    /\ num_le (Fin 1) (min s)
    /\ IsDouble (min s)
    /\ (max s = min s \/ (min s = Fin 1 /\ max s = Infinity)).

#[local] Unset Elimination Schemes.
Inductive EverySymbol (P : SymbolNode -> Prop) : MaskNode -> Prop :=
| every_symbol (s : SymbolNode) : P s -> EverySymbol P (SymbolN s)
| every_group (alternatives : list (list MaskNode)) :
    Forall (Forall (EverySymbol P)) alternatives ->
    EverySymbol P (GroupN alternatives).
#[local] Set Elimination Schemes.

(** The list is ordered from the longest text to the shortest. *)
Fixpoint LongestFirst (l : list str) : Prop :=
  match l with
  | [] => True
  | x :: l' => Forall (fun y => length y <= length x) l' /\ LongestFirst l'
  end.

(** A consumer of one node that keeps the cursor in the input. *)
Definition InBounds
    (rec : MaskNode -> str -> nat -> list str -> list MaskNode -> ConsumeResult)
    (input : str) (seps : list str) (n : MaskNode) : Prop :=
  forall p rem, p <= length input -> pos (rec n input p seps rem) <= length input.

(** ** The syntax of patterns *)

(** A quantifier as it is written after a symbol: none, [{+}], or [{n}]
    with the decimal numeral of [n]. *)
Inductive Quantifier := Once | OneOrMore | Exactly (n : N).

(** A pattern item as it is written: a symbol character with its
    quantifier, or a group of alternatives. *)
#[local] Unset Elimination Schemes.
Inductive Pattern :=
| PSymbol (c : char) (q : Quantifier)
| PGroup (alternatives : list (list Pattern)).
#[local] Set Elimination Schemes.

Definition writeQuantifier (q : Quantifier) : str :=
  match q with
  | Once => []
  | OneOrMore => js "{+}"
  | Exactly n => ch "{" :: decimal n ++ [ch "}"]
  end.

Fixpoint write (item : Pattern) : str :=
  match item with
  | PSymbol c q => c :: writeQuantifier q
  | PGroup alternatives =>
      js "[[" ++ join (js "|") (map (flat_map write) alternatives) ++ js "]]"
  end.

Definition writeAll (items : list Pattern) : str := flat_map write items.

(** The text of a pattern: its fragments with the separators, each
    between two colons, between them. *)
Definition writeMask (frags : list (list Pattern)) (seps : list str) : str :=
  interleave (map writeAll frags) (map delimited seps).

(** The bounds that the claims give to a quantifier: one repetition
    without a quantifier, one or more for [{+}], and for [{n}] the Number
    value of [n] as min and as max. *)
Definition boundsOf (q : Quantifier) : num * num :=
  match q with
  | Once => (Fin 1, Fin 1)
  | OneOrMore => (Fin 1, Infinity)
  | Exactly n => (toDouble n, toDouble n)
  end.

Definition symbolOf (c : char) (q : Quantifier) : SymbolNode :=
  withQuantifier (plainSymbol c) (fst (boundsOf q)) (snd (boundsOf q)).

(** The node that a pattern item stands for. *)
Fixpoint nodeOf (item : Pattern) : MaskNode :=
  match item with
  | PSymbol c q => SymbolN (symbolOf c q)
  | PGroup alternatives => GroupN (map (map nodeOf) alternatives)
  end.

(** A pattern item without a defect: the symbol characters are not
    reserved, the counts are at least 1, a group has an alternative and no
    empty one. *)
#[local] Unset Elimination Schemes.
Inductive WellWritten : Pattern -> Prop :=
| written_symbol (c : char) (q : Quantifier) :
    reserved c = false ->
    (forall n, q = Exactly n -> (1 <= n)%N) ->
    WellWritten (PSymbol c q)
| written_group (alternatives : list (list Pattern)) :
    alternatives <> [] ->
    Forall (fun alt => alt <> [] /\ Forall WellWritten alt) alternatives ->
    WellWritten (PGroup alternatives).
#[local] Set Elimination Schemes.

Definition WellWrittenAll (items : list Pattern) : Prop :=
  items <> [] /\ Forall WellWritten items.

(** What is left of the text of a group when the parser is inside it: the
    items still to come in the current alternative, the alternatives still
    to come, and the closing brackets. *)
Definition groupText (alt : list Pattern) (others : list (list Pattern)) : str :=
  writeAll alt
  ++ concat (map (fun a => ch "|" :: writeAll a) others)
  ++ js "]]".

(** A group that the parser has entered and not left: the alternatives it
    has closed and the items it has read of the current alternative. *)
Record Frame := mkFrame {
  closedAlternatives : list (list Pattern);
  currentItems : list Pattern
}.

Definition frameBody (f : Frame) : str :=
  concat (map (fun a => writeAll a ++ [ch "|"]) (closedAlternatives f))
  ++ writeAll (currentItems f).

Definition frameText (f : Frame) : str := js "[[" ++ frameBody f.

Definition framesText (frames : list Frame) : str := concat (map frameText frames).

Definition WellWrittenFrame (f : Frame) : Prop :=
  Forall WellWrittenAll (closedAlternatives f) /\ Forall WellWritten (currentItems f).

(** The state of the group parser when it has read a frame. *)
Definition frameState (f : Frame) : list (list MaskNode) * list MaskNode :=
  (map (map nodeOf) (closedAlternatives f), map nodeOf (currentItems f)).

(** The decimal digits of a text, as a numeral of the Standard Library. *)
Fixpoint uintOf (body : str) : Decimal.uint :=
  match body with
  | [] => Decimal.Nil
  | c :: ds =>
      let u := uintOf ds in
      if N.eqb c 48 then Decimal.D0 u
      else if N.eqb c 49 then Decimal.D1 u
      else if N.eqb c 50 then Decimal.D2 u
      else if N.eqb c 51 then Decimal.D3 u
      else if N.eqb c 52 then Decimal.D4 u
      else if N.eqb c 53 then Decimal.D5 u
      else if N.eqb c 54 then Decimal.D6 u
      else if N.eqb c 55 then Decimal.D7 u
      else if N.eqb c 56 then Decimal.D8 u
      else Decimal.D9 u
  end.

(** The state of the group parser inside the innermost of the groups
    entered; [init] is its state when no group was entered. *)
Definition innerState (frames : list Frame)
    (init : list (list MaskNode) * list MaskNode)
    : list (list MaskNode) * list MaskNode :=
  fold_left (fun _ f => frameState f) frames init.

(** The text goes on with the end of an alternative: a bar, or the
    closing brackets of the group. *)
Definition AlternativeEnds (rest : str) : Prop :=
  (exists r, rest = ch "|" :: r) \/ (exists r, rest = ch "]" :: ch "]" :: r).

(** A quantifier body that is neither [+] nor a positive numeral, and
    that holds no closing brace. *)
Definition BadBody (body : str) : Prop :=
  Forall (fun c => isChar "}" c = false) body
  /\ str_eqb body (js "+") = false
  /\ POSITIVE_INT_RE body = false.

(** The text of a pattern up to a point inside its last fragment: the
    fragments that are closed, each with the separator after it, the items
    read of the last fragment, and the groups entered and not left. *)
Definition prefixText (closedFragments : list (list Pattern)) (closedSeps : list str)
    (top : list Pattern) (frames : list Frame) : str :=
  closedText (map writeAll closedFragments) closedSeps
  ++ writeAll top ++ framesText frames.

(** The pattern item of a compiled node: its character with the
    quantifier that gives its bounds; [{n}] with a numeral beyond the range
    of doubles when both bounds are [Infinity]. *)
Definition printChar (s : SymbolNode) : char :=
  match kind s with
  | KindA => ch "A"
  | Kind0 => ch "0"
  | KindLiteral => match value s with Some c => c | None => ch "A" end
  end.

Definition quantifierOf (s : SymbolNode) : Quantifier :=
  match max s with
  | Infinity =>
      match min s with
      | Infinity => Exactly (2 ^ 1024)
      | Fin _ => OneOrMore
      end
  | Fin m => if N.eqb m 1 then Once else Exactly m
  end.

Fixpoint patternOf (node : MaskNode) : Pattern :=
  match node with
  | SymbolN s => PSymbol (printChar s) (quantifierOf s)
  | GroupN alternatives => PGroup (map (map patternOf) alternatives)
  end.

Definition printNodes (nodes : list MaskNode) : str := writeAll (map patternOf nodes).

Definition printMask (parsed : ParsedMask) : str :=
  writeMask (map (map patternOf) (fragments parsed)) (separators parsed).

(** The nodes the printer is meant for: symbols as the compiler builds
    them, groups with at least one alternative and no empty one. *)
#[local] Unset Elimination Schemes.
Inductive Printable : MaskNode -> Prop :=
| printable_symbol (s : SymbolNode) : Compiled s -> Printable (SymbolN s)
| printable_group (alternatives : list (list MaskNode)) :
    alternatives <> [] ->
    Forall (fun alt => alt <> [] /\ Forall Printable alt) alternatives ->
    Printable (GroupN alternatives).
#[local] Set Elimination Schemes.

(** A mask the printer is meant for: one fragment more than separators,
    no empty fragment, and no colon inside a separator. *)
Definition PrintableMask (parsed : ParsedMask) : Prop :=
  Forall (fun f => f <> [] /\ Forall Printable f) (fragments parsed)
  /\ length (fragments parsed) = S (length (separators parsed))
  /\ Forall NoColon (separators parsed).

(** A character that [splitBySeparators] copies as it is. *)
Definition Copied (c : char) : Prop :=
  isChar "[" c = false /\ isChar "]" c = false /\ isChar ":" c = false.

(** * Properties *)

(** ** Induction on masks *)

Fixpoint MaskNode_ind (P : MaskNode -> Prop)
    (Hsymbol : forall s, P (SymbolN s))
    (Hgroup : forall alternatives,
        Forall (Forall P) alternatives -> P (GroupN alternatives))
    (node : MaskNode) {struct node} : P node :=
  match node with
  | SymbolN s => Hsymbol s
  | GroupN alternatives =>
      Hgroup alternatives
        ((fix alts (l : list (list MaskNode)) : Forall (Forall P) l :=
            match l with
            | [] => List.Forall_nil _
            | alt :: l' =>
                List.Forall_cons _ _ _
                  ((fix nodes (a : list MaskNode) : Forall P a :=
                      match a with
                      | [] => List.Forall_nil _
                      | n :: a' =>
                          List.Forall_cons _ _ _ (MaskNode_ind P Hsymbol Hgroup n) (nodes a')
                      end) alt)
                  (alts l')
            end) alternatives)
  end.

(** ** Strings and positions *)

Lemma slice_app (input : str) (a b c : nat) :
  a <= b -> b <= c -> slice input a c = slice input a b ++ slice input b c.
Proof.
  intros Hab Hbc. unfold slice.
  replace (c - a) with ((b - a) + (c - b)) by lia.
  rewrite <- take_take_drop, drop_drop.
  replace (a + (b - a)) with b by lia. reflexivity.
Qed.

Lemma slice_same (input : str) (a : nat) : slice input a a = [].
Proof. unfold slice. rewrite Nat.sub_diag. reflexivity. Qed.

Lemma sublist_slice_widen (input l : str) (a b c d : nat) :
  a <= b -> b <= c -> c <= d ->
  l `sublist_of` slice input b c -> l `sublist_of` slice input a d.
Proof.
  intros Hab Hbc Hcd Hl.
  rewrite (slice_app input a b d) by lia.
  rewrite (slice_app input b c d) by lia.
  apply sublist_inserts_l, sublist_inserts_r, Hl.
Qed.

Lemma sublist_slice_input (input l : str) (a b : nat) :
  l `sublist_of` slice input a b -> l `sublist_of` input.
Proof.
  intros Hl. etransitivity; [exact Hl|]. unfold slice.
  etransitivity; [apply sublist_take | apply sublist_drop].
Qed.

Lemma isPrefix_length (sep s : str) :
  isPrefix sep s = true -> length sep <= length s.
Proof.
  revert s. induction sep as [|a sep IH]; intros [|b s] H; simpl in *;
    try lia; try discriminate.
  apply andb_true_iff in H as [_ H]. apply IH in H. lia.
Qed.

Lemma separatorLengthAt_bound (input : str) (p : nat) (seps : list str) :
  0 < separatorLengthAt input p seps ->
  p + separatorLengthAt input p seps <= length input.
Proof.
  induction seps as [|sep seps IH]; simpl; [lia|].
  destruct sep as [|c sep]; simpl; [exact IH|].
  destruct (startsWith input (c :: sep) p) eqn:E; [|exact IH].
  intros _. apply isPrefix_length in E. rewrite length_drop in E.
  simpl in E. lia.
Qed.

Lemma skipSeparators_loop_fuel (input : str) (seps : list str) (f1 f2 p : nat) :
  length input - p <= f1 -> length input - p <= f2 ->
  skipSeparators_loop f1 input seps p = skipSeparators_loop f2 input seps p.
Proof.
  revert f2 p. induction f1 as [|f1 IH]; intros [|f2] p H1 H2; simpl;
    try reflexivity.
  - destruct (0 <? separatorLengthAt input p seps) eqn:E; [|reflexivity].
    apply Nat.ltb_lt in E. pose proof (separatorLengthAt_bound _ _ _ E). lia.
  - destruct (0 <? separatorLengthAt input p seps) eqn:E; [|reflexivity].
    apply Nat.ltb_lt in E. pose proof (separatorLengthAt_bound _ _ _ E). lia.
  - destruct (0 <? separatorLengthAt input p seps) eqn:E; [|reflexivity].
    apply Nat.ltb_lt in E. pose proof (separatorLengthAt_bound _ _ _ E).
    apply IH; lia.
Qed.

(** The fuel of [skipSeparators] is enough: it satisfies the equation of
    the [while] loop. *)
Lemma skipSeparators_eq (input : str) (p : nat) (seps : list str) :
  skipSeparators input p seps =
  if 0 <? separatorLengthAt input p seps
  then skipSeparators input (p + separatorLengthAt input p seps) seps
  else p.
Proof.
  unfold skipSeparators.
  destruct (length input - p) as [|f] eqn:Ef; simpl.
  - destruct (0 <? separatorLengthAt input p seps) eqn:E; [|reflexivity].
    apply Nat.ltb_lt in E. pose proof (separatorLengthAt_bound _ _ _ E). lia.
  - destruct (0 <? separatorLengthAt input p seps) eqn:E; [|reflexivity].
    apply Nat.ltb_lt in E. pose proof (separatorLengthAt_bound _ _ _ E).
    apply skipSeparators_loop_fuel; lia.
Qed.

Lemma skipSeparators_loop_ge (fuel : nat) (input : str) (seps : list str) (p : nat) :
  p <= skipSeparators_loop fuel input seps p.
Proof.
  revert p. induction fuel as [|fuel IH]; intros p; simpl; [lia|].
  destruct (0 <? separatorLengthAt input p seps); [|lia].
  etransitivity; [|apply IH]. lia.
Qed.

Lemma skipSeparators_ge (input : str) (p : nat) (seps : list str) :
  p <= skipSeparators input p seps.
Proof. apply skipSeparators_loop_ge. Qed.

(** When the loop stops, no separator starts at the cursor. *)
Lemma skipSeparators_stops (input : str) (p : nat) (seps : list str) :
  separatorLengthAt input (skipSeparators input p seps) seps = 0.
Proof.
  remember (length input - p) as n eqn:Hn.
  revert p Hn. induction n as [n IH] using lt_wf_ind. intros p Hn.
  rewrite skipSeparators_eq.
  destruct (0 <? separatorLengthAt input p seps) eqn:E.
  - apply Nat.ltb_lt in E. pose proof (separatorLengthAt_bound _ _ _ E).
    eapply IH; [|reflexivity]. lia.
  - apply Nat.ltb_ge in E. lia.
Qed.

(** ** What a consumption step recognizes *)

Lemma drop_cons_next (input : str) (p : nat) (c : char) (rest : str) :
  drop p input = c :: rest -> drop (p + 1) input = rest.
Proof. intros H. rewrite <- drop_drop, H. reflexivity. Qed.

Lemma slice_one (input : str) (p : nat) (c : char) (rest : str) :
  drop p input = c :: rest -> slice input p (p + 1) = [c].
Proof.
  intros H. unfold slice. rewrite H.
  replace (p + 1 - p) with 1 by lia. reflexivity.
Qed.

Lemma consumeSymbol_loop_spec (node : SymbolNode) (input : str) (startPos : nat)
    (seps : list str) (rem : list MaskNode) (rest o r : str) (p : nat) (count : N) :
  rest = drop p input ->
  exists more,
    let res := consumeSymbol_loop node input startPos seps rem rest o r p count in
    out res = o ++ more /\ raw res = r ++ more /\ p <= pos res
    /\ more `sublist_of` slice input p (pos res)
    /\ Forall (fun c => matchesNode node c = true) more
    /\ satisfied res = num_leb (min node) (count + N.of_nat (length more)).
Proof.
  revert o r p count.
  induction rest as [|c rest IH]; intros o r p count Hrest.
  - exists []. simpl. rewrite !app_nil_r, N.add_0_r.
    repeat split; try lia; auto. apply sublist_nil_l.
  - simpl. destruct (num_ltb count (max node)).
    2:{ exists []. simpl. rewrite !app_nil_r, N.add_0_r.
        repeat split; try lia; auto. apply sublist_nil_l. }
    destruct (0 <? separatorLengthAt input p seps).
    { exists []. simpl. rewrite !app_nil_r, N.add_0_r.
      repeat split; try lia; auto. apply sublist_nil_l. }
    symmetry in Hrest.
    pose proof (drop_cons_next _ _ _ _ Hrest) as Hnext.
    pose proof (slice_one _ _ _ _ Hrest) as Hone.
    destruct (matchesNode node c) eqn:Hm.
    { destruct (IH (o ++ [c]) (r ++ [c]) (p + 1) (count + 1)%N (eq_sym Hnext))
        as (more & Ho & Hr & Hp & Hsub & Hall & Hsat).
      exists (c :: more). cbn zeta in *.
      rewrite Ho, Hr, <- !app_assoc. simpl.
      repeat split; try lia; auto.
      - rewrite (slice_app input p (p + 1)) by lia. rewrite Hone.
        simpl. apply sublist_skip, Hsub.
      - rewrite Hsat. f_equal. lia. }
    destruct (num_leb (min node) count && canStartWithChar rem c).
    { exists []. simpl. rewrite !app_nil_r, N.add_0_r.
      repeat split; try lia; auto. apply sublist_nil_l. }
    destruct (IH o r (p + 1) count (eq_sym Hnext))
      as (more & Ho & Hr & Hp & Hsub & Hall & Hsat).
    exists more. cbn zeta in *.
    repeat split; try lia; auto.
    eapply sublist_slice_widen; [| | |exact Hsub]; lia.
Qed.

Lemma consumeSymbol_spec (node : SymbolNode) (input : str) (startPos : nat)
    (seps : list str) (rem : list MaskNode) :
  let res := consumeSymbol node input startPos seps rem in
  Recognized input startPos res
  /\ Forall (fun c => matchesNode node c = true) (raw res)
  /\ satisfied res = num_leb (min node) (N.of_nat (length (raw res))).
Proof.
  destruct (consumeSymbol_loop_spec node input startPos seps rem
              (drop startPos input) [] [] startPos 0%N eq_refl)
    as (more & Ho & Hr & Hp & Hsub & Hall & Hsat).
  cbn zeta in *. unfold consumeSymbol, Recognized.
  simpl in Ho, Hr. rewrite Ho, Hr. repeat split; auto.
Qed.

Lemma Recognized_noMatch (input : str) (startPos : nat) :
  Recognized input startPos (noMatch startPos).
Proof.
  unfold Recognized, noMatch; simpl. repeat split; auto.
  apply sublist_nil_l.
Qed.

Lemma consumeNodes_loop_recognized
    (rec : MaskNode -> str -> nat -> list str -> list MaskNode -> ConsumeResult)
    (input : str) (startPos : nat) (seps : list str)
    (tailNodes : option (list MaskNode)) (nodes : list MaskNode) :
  Forall (fun n => forall p rem, Recognized input p (rec n input p seps rem)) nodes ->
  forall (o r : str) (p : nat),
    o = r -> startPos <= p -> r `sublist_of` slice input startPos p ->
    Recognized input startPos
      (consumeNodes_loop rec input startPos seps tailNodes nodes o r p).
Proof.
  induction 1 as [|n nodes Hn _ IH]; intros o r p -> Hp Hsub; simpl.
  - unfold Recognized; simpl. auto.
  - pose proof (skipSeparators_ge input p seps) as Hskip.
    set (p1 := skipSeparators input p seps) in *.
    destruct (Hn p1 (lookaheadOf nodes tailNodes)) as (Ho & Hpos & Hraw).
    set (res := rec n input p1 seps (lookaheadOf nodes tailNodes)) in *.
    assert (Hsub' : r ++ raw res `sublist_of` slice input startPos (pos res)).
    { rewrite (slice_app input startPos p (pos res)) by lia.
      apply sublist_app; [exact Hsub|].
      eapply sublist_slice_widen; [| | |exact Hraw]; lia. }
    destruct (satisfied res).
    + apply IH; [congruence | lia | exact Hsub'].
    + unfold Recognized; simpl. repeat split; [congruence | lia | exact Hsub'].
Qed.

Lemma consumeGroup_loop_recognized
    (rec : MaskNode -> str -> nat -> list str -> list MaskNode -> ConsumeResult)
    (input : str) (startPos : nat) (seps : list str)
    (tailNodes : list MaskNode) (alts : list (list MaskNode)) :
  Forall (Forall (fun n => forall p rem, Recognized input p (rec n input p seps rem)))
    alts ->
  forall best, Recognized input startPos best ->
    Recognized input startPos
      (consumeGroup_loop rec input startPos seps tailNodes alts best).
Proof.
  induction 1 as [|alt alts Halt _ IH]; intros best Hbest; simpl; [exact Hbest|].
  apply IH. destruct (better _ best); [|exact Hbest].
  apply consumeNodes_loop_recognized; auto. rewrite slice_same. reflexivity.
Qed.

Lemma consumeNode_recognized (node : MaskNode) (input : str) (seps : list str) :
  forall p rem, Recognized input p (consumeNode node input p seps rem).
Proof.
  induction node as [s|alts IH] using MaskNode_ind; intros p rem; simpl.
  - apply consumeSymbol_spec.
  - apply consumeGroup_loop_recognized; [exact IH | apply Recognized_noMatch].
Qed.

Lemma consumeNodes_recognized (nodes : list MaskNode) (input : str)
    (startPos : nat) (seps : list str) (tailNodes : option (list MaskNode)) :
  Recognized input startPos (consumeNodes nodes input startPos seps tailNodes).
Proof.
  apply consumeNodes_loop_recognized; auto.
  - apply Forall_forall. intros n _ p rem. apply consumeNode_recognized.
  - rewrite slice_same. reflexivity.
Qed.

(** ** The choice between the alternatives of a group *)

Lemma better_iff (r b : ConsumeResult) :
  better r b = true <->
  length (raw b) < length (raw r)
  \/ (length (raw r) = length (raw b) /\ (advanced r < advanced b)%Z)
  \/ (length (raw r) = length (raw b) /\ advanced r = advanced b
      /\ satisfied r = true /\ satisfied b = false).
Proof.
  unfold better.
  rewrite !orb_true_iff, !andb_true_iff, Nat.ltb_lt, Nat.eqb_eq,
    Z.ltb_lt, Z.eqb_eq, negb_true_iff.
  tauto.
Qed.

Lemma better_irrefl (r : ConsumeResult) : better r r = false.
Proof.
  apply not_true_iff_false. rewrite better_iff.
  destruct (satisfied r); intuition (try lia; try discriminate).
Qed.

(** A candidate that does not beat [b] does not beat what beats [b]. *)
Lemma better_chain (r b c : ConsumeResult) :
  better r b = false -> better c b = true -> better r c = false.
Proof.
  intros Hrb Hcb. apply not_true_iff_false in Hrb.
  apply not_true_iff_false. rewrite better_iff in *.
  destruct (satisfied r), (satisfied b), (satisfied c);
    intuition (try lia; try discriminate).
Qed.

Lemma consumeGroup_loop_keeps
    (rec : MaskNode -> str -> nat -> list str -> list MaskNode -> ConsumeResult)
    (input : str) (startPos : nat) (seps : list str) (tailNodes : list MaskNode)
    (alts : list (list MaskNode)) :
  forall best r, better r best = false ->
    better r (consumeGroup_loop rec input startPos seps tailNodes alts best) = false.
Proof.
  induction alts as [|alt alts IH]; intros best r Hr; simpl; [exact Hr|].
  apply IH.
  destruct (better (consumeNodesWith rec alt input startPos seps (Some tailNodes)) best)
    eqn:E; [|exact Hr].
  eapply better_chain; eauto.
Qed.

Lemma consumeGroup_loop_best
    (rec : MaskNode -> str -> nat -> list str -> list MaskNode -> ConsumeResult)
    (input : str) (startPos : nat) (seps : list str) (tailNodes : list MaskNode)
    (alts : list (list MaskNode)) :
  forall best alt, In alt alts ->
    better (consumeNodesWith rec alt input startPos seps (Some tailNodes))
      (consumeGroup_loop rec input startPos seps tailNodes alts best) = false.
Proof.
  induction alts as [|a alts IH]; intros best alt Hin; simpl; [destruct Hin|].
  destruct Hin as [->|Hin]; [|apply IH, Hin].
  apply consumeGroup_loop_keeps.
  destruct (better (consumeNodesWith rec alt input startPos seps (Some tailNodes)) best)
    eqn:E; [apply better_irrefl | exact E].
Qed.

Lemma consumeGroup_loop_from
    (rec : MaskNode -> str -> nat -> list str -> list MaskNode -> ConsumeResult)
    (input : str) (startPos : nat) (seps : list str) (tailNodes : list MaskNode)
    (alts : list (list MaskNode)) :
  forall best,
    let final := consumeGroup_loop rec input startPos seps tailNodes alts best in
    final = best
    \/ In final
         (map (fun alt => consumeNodesWith rec alt input startPos seps (Some tailNodes))
            alts).
Proof.
  induction alts as [|a alts IH]; intros best; simpl; [left; reflexivity|].
  destruct (IH (if better (consumeNodesWith rec a input startPos seps (Some tailNodes)) best
                then consumeNodesWith rec a input startPos seps (Some tailNodes)
                else best)) as [H|H].
  - rewrite H. destruct (better _ best); auto.
  - auto.
Qed.


(** The longer match wins whatever the order of the alternatives. *)
Example group_longest_wins :
  run "[[0{2}|0{4}]]" "1234" = Ok "1234"%string
  /\ run "[[0{4}|0{2}]]" "1234" = Ok "1234"%string.
Proof. split; vm_compute; reflexivity. Qed.

(** Both alternatives recognize one character of [1a]; the digit is found
    without skipping anything and wins over the letter, which is listed
    first. *)
Example group_fewer_skipped_wins :
  run "[[A|0]]" "1a" = Ok "1"%string
  /\ map (fun alt => let r := consumeNodes alt (js "1a") 0 [] (Some []) in
                     (raw r, advanced r, satisfied r))
       [[letterNode]; [digitNode]]
     = [(js "a", 2%Z, true); (js "1", 1%Z, true)].
Proof. split; vm_compute; reflexivity. Qed.

(** No alternative recognizes anything: the result is the initial one, at
    the start position. *)
Example group_nothing_recognized :
  consumeNode (GroupN [[letterNode]; [digitNode]]) (js "--") 0 [] [] = noMatch 0
  /\ pos (consumeNodes [letterNode] (js "--") 0 [] (Some [])) = 2.
Proof. split; vm_compute; reflexivity. Qed.

(** ** The lookahead is only asked for its first node *)










(** ** The compiler: fuel and well-formedness *)

Ltac break_if :=
  match goal with
  | H : context [if ?b then _ else _] |- _ => destruct b eqn:?
  | |- context [if ?b then _ else _] => destruct b eqn:?
  end.

Ltac break_bind H :=
  match type of H with
  | context [bind ?m _] =>
      let E := fresh "E" in
      destruct m as [[? ?]| |] eqn:E; simpl in H; try discriminate H
  end.

Tactic Notation "break_bind_as" hyp(H) ident(a) ident(b) ident(E) :=
  match type of H with
  | context [bind ?m _] =>
      destruct m as [[a b]| |] eqn:E; simpl in H; try discriminate H
  end.

Lemma length_tl_le {A} (l : list A) : length (tl l) <= length l.
Proof. destruct l; simpl; lia. Qed.

Lemma indexOf_lt (c : char) (s : str) (e : nat) :
  indexOf c s = Some e -> e < length s.
Proof.
  revert e. induction s as [|x s IH]; intros e; simpl; [discriminate|].
  destruct (N.eqb x c).
  - intros [= <-]. lia.
  - destruct (indexOf c s) as [k|]; simpl; [|discriminate].
    intros [= <-]. specialize (IH k eq_refl). lia.
Qed.

Lemma MV_from_pos (ds : str) (acc : N) :
  (1 <= acc)%N ->
  (1 <= fold_left (fun a c => (10 * a + (c - 48))%N) ds acc)%N.
Proof.
  revert acc. induction ds as [|d ds IH]; intros acc Hacc; simpl; [exact Hacc|].
  apply IH. lia.
Qed.

Lemma MV_pos (body : str) :
  POSITIVE_INT_RE body = true -> (1 <= MV body)%N.
Proof.
  destruct body as [|c ds]; simpl; [discriminate|].
  intros H. apply andb_true_iff in H as [H _].
  apply andb_true_iff in H as [H1 H2].
  apply N.leb_le in H1. unfold MV. simpl. apply MV_from_pos. lia.
Qed.

(** *** Rounding to a double *)

Local Open Scope N_scope.

Lemma toDouble_exact (n : N) : n < 2 ^ 53 -> toDouble n = Fin n.
Proof. intros H. unfold toDouble. apply N.ltb_lt in H. rewrite H. reflexivity. Qed.

Lemma pow2_pos (e : N) : 0 < 2 ^ e.
Proof. apply N.neq_0_lt_0, N.pow_nonzero. discriminate. Qed.

Lemma significand_bounds (n : N) :
  2 ^ 53 <= n ->
  let e := N.log2 n - 52 in
  1 <= e /\ 2 ^ 52 <= n / 2 ^ e < 2 ^ 53.
Proof.
  intros Hn e.
  assert (Hpos : 0 < n) by (pose proof (pow2_pos 53); lia).
  destruct (N.log2_spec n Hpos) as [Hlo Hhi].
  assert (Hlog : 53 <= N.log2 n).
  { apply N.log2_le_pow2; assumption. }
  assert (He : N.log2 n = 52 + e) by (subst e; lia).
  split; [subst e; lia|].
  pose proof (pow2_pos e) as H2e.
  rewrite He in Hlo. rewrite N.pow_add_r in Hlo.
  replace (N.succ (N.log2 n)) with (53 + e) in Hhi by lia.
  rewrite N.pow_add_r in Hhi.
  split.
  - apply N.div_le_lower_bound; [lia|]. rewrite N.mul_comm. exact Hlo.
  - apply N.Div0.div_lt_upper_bound. rewrite N.mul_comm. exact Hhi.
Qed.

Lemma toDouble_scaled (q e : N) :
  2 ^ 52 <= q <= 2 ^ 53 -> 1 <= e -> q * 2 ^ e < 2 ^ 1024 ->
  toDouble (q * 2 ^ e) = Fin (q * 2 ^ e).
Proof.
  intros [Hlo Hhi] He Hv.
  pose proof (pow2_pos e) as H2e.
  assert (Hbig : 2 ^ 53 <= q * 2 ^ e).
  { replace 53 with (52 + 1) by lia. rewrite N.pow_add_r.
    apply N.mul_le_mono; [exact Hlo|].
    apply N.pow_le_mono_r; lia. }
  unfold toDouble.
  destruct (N.ltb_spec (q * 2 ^ e) (2 ^ 53)) as [Hc|_]; [lia|].
  destruct (N.eq_dec q (2 ^ 53)) as [->|Hq].
  - assert (Hlog : N.log2 (2 ^ 53 * 2 ^ e) = 53 + e).
    { rewrite <- N.pow_add_r. apply N.log2_pow2. lia. }
    rewrite Hlog. replace (53 + e - 52) with (e + 1) by lia.
    assert (Eq : 2 ^ 53 * 2 ^ e = 2 ^ 52 * 2 ^ (e + 1)).
    { rewrite <- !N.pow_add_r. f_equal. lia. }
    rewrite Eq in *.
    assert (H2e1 : 2 ^ (e + 1) <> 0) by (apply N.pow_nonzero; lia).
    rewrite N.div_mul by exact H2e1. rewrite N.Div0.mod_mul.
    replace (e + 1 - 1) with e by lia.
    destruct (N.ltb_spec (2 ^ e) 0) as [Hc|_]; [lia|].
    destruct (N.eqb_spec 0 (2 ^ e)) as [Hc|_]; [lia|].
    cbn [orb andb].
    destruct (N.leb_spec (2 ^ 1024) (2 ^ 52 * 2 ^ (e + 1))) as [Hc|_];
      [lia|reflexivity].
  - assert (Hlog : N.log2 (q * 2 ^ e) = 52 + e).
    { apply N.log2_unique; [lia|]. split.
      - rewrite N.pow_add_r. apply N.mul_le_mono_r. exact Hlo.
      - replace (N.succ (52 + e)) with (53 + e) by lia.
        rewrite N.pow_add_r. apply N.mul_lt_mono_pos_r; lia. }
    rewrite Hlog. replace (52 + e - 52) with e by lia.
    rewrite N.div_mul by lia. rewrite N.Div0.mod_mul.
    pose proof (pow2_pos (e - 1)) as Hh.
    destruct (N.ltb_spec (2 ^ (e - 1)) 0) as [Hc|_]; [lia|].
    destruct (N.eqb_spec 0 (2 ^ (e - 1))) as [Hc|_]; [lia|].
    cbn [orb andb].
    destruct (N.leb_spec (2 ^ 1024) (q * 2 ^ e)) as [Hc|_]; [lia|reflexivity].
Qed.

Lemma toDouble_IsDouble (n : N) : IsDouble (toDouble n).
Proof.
  destruct (N.lt_ge_cases n (2 ^ 53)) as [Hs|Hb].
  - rewrite toDouble_exact by exact Hs. cbn. apply toDouble_exact, Hs.
  - destruct (significand_bounds n Hb) as [He [Hlo Hhi]].
    unfold toDouble. destruct (N.ltb_spec n (2 ^ 53)) as [Hc|_]; [lia|].
    cbv zeta.
    set (e := N.log2 n - 52) in *. set (q := n / 2 ^ e) in *.
    match goal with
    | |- context [if ?b then q + 1 else q] => set (q' := if b then q + 1 else q)
    end.
    assert (Hq' : 2 ^ 52 <= q' <= 2 ^ 53).
    { subst q'. match goal with |- context [if ?b then _ else _] => destruct b end; lia. }
    destruct (N.leb_spec (2 ^ 1024) (q' * 2 ^ e)) as [Hov|Hok]; [exact I|].
    cbn. apply toDouble_scaled; assumption.
Qed.

Lemma toDouble_ge1 (n : N) : 1 <= n -> num_le (Fin 1) (toDouble n).
Proof.
  intros Hn. destruct (N.lt_ge_cases n (2 ^ 53)) as [Hs|Hb].
  - rewrite toDouble_exact by exact Hs. exact Hn.
  - destruct (significand_bounds n Hb) as [He [Hlo Hhi]].
    unfold toDouble. destruct (N.ltb_spec n (2 ^ 53)) as [Hc|_]; [lia|].
    cbv zeta.
    set (e := N.log2 n - 52) in *. set (q := n / 2 ^ e) in *.
    match goal with
    | |- context [if ?b then q + 1 else q] => set (q' := if b then q + 1 else q)
    end.
    assert (Hq' : 1 <= q').
    { pose proof (pow2_pos 52). subst q'.
      match goal with |- context [if ?b then _ else _] => destruct b end; lia. }
    destruct (N.leb_spec (2 ^ 1024) (q' * 2 ^ e)) as [Hov|Hok]; [exact I|].
    cbn. pose proof (pow2_pos e). nia.
Qed.

Local Close Scope N_scope.

Lemma parseQuantifier_ok (rest : str) (mn mx : num) (rest' : str) :
  parseQuantifier rest = Ok (mn, mx, rest') ->
  num_le (Fin 1) mn /\ IsDouble mn
  /\ (mx = mn \/ (mn = Fin 1 /\ mx = Infinity))
  /\ length rest' < length rest.
Proof.
  unfold parseQuantifier.
  destruct (indexOf (ch "}") rest) as [e|] eqn:Ee; [|discriminate].
  apply indexOf_lt in Ee.
  assert (Hlen : length (drop (S e) rest) < length rest)
    by (rewrite length_drop; lia).
  repeat break_if; try discriminate; intros [= <- <- <-].
  - repeat split; auto; cbn; lia.
  - split; [|split; [|split]]; auto.
    + apply toDouble_ge1, MV_pos. apply negb_false_iff. assumption.
    + apply toDouble_IsDouble.
Qed.

Lemma makeSymbolNode_ok (c : char) (node : SymbolNode) :
  makeSymbolNode c = Ok node -> min node = Fin 1 /\ max node = Fin 1.
Proof.
  unfold makeSymbolNode. repeat break_if; try discriminate;
    intros [= <-]; simpl; auto.
Qed.

Lemma parseSymbol_ok (c : char) (rest1 : str) (node : SymbolNode) (rest' : str) :
  parseSymbol c rest1 = Ok (node, rest') ->
  WellFormed (SymbolN node) /\ length rest' <= length rest1.
Proof.
  unfold parseSymbol, bind.
  destruct (makeSymbolNode c) as [n0| |] eqn:En; try discriminate.
  apply makeSymbolNode_ok in En as [Hmin Hmax].
  destruct (nextIs "{" rest1).
  - destruct (parseQuantifier (tl rest1)) as [[[mn mx] r]| |] eqn:Eq;
      try discriminate.
    intros [= <- <-]. apply parseQuantifier_ok in Eq as (H1 & _ & H2 & H3).
    pose proof (length_tl_le rest1).
    split; [|lia]. constructor; simpl; [exact H1|].
    destruct H2 as [H2|[_ H2]]; auto.
  - intros [= <- <-]. split; [|lia].
    constructor; rewrite Hmin; [cbn; lia | left; rewrite Hmax; reflexivity].
Qed.

Lemma parseSymbol_fuel (c : char) (rest1 : str) : parseSymbol c rest1 <> OutOfFuel.
Proof.
  unfold parseSymbol, bind, makeSymbolNode, parseQuantifier.
  repeat (break_if; try discriminate);
    destruct (indexOf (ch "}") (tl rest1)); try discriminate;
    repeat (break_if; try discriminate).
Qed.

Lemma parseGroup_shorter (fuel : nat) :
  forall alts current rest g rest',
    parseGroup fuel alts current rest = Ok (g, rest') ->
    length rest' < length rest.
Proof.
  induction fuel as [|fuel IH]; intros alts current rest g rest' H;
    simpl in H; [discriminate|].
  destruct rest as [|c rest1]; [discriminate|].
  pose proof (length_tl_le rest1) as Htl. simpl.
  destruct (isChar ":" c && negb (isEmpty rest1)); [discriminate|].
  destruct (isChar "[" c && nextIs "[" rest1).
  { break_bind H. apply IH in E. apply IH in H. lia. }
  destruct (isChar "|" c).
  { destruct (isEmpty current); [discriminate|]. apply IH in H. lia. }
  destruct (isChar "]" c && nextIs "]" rest1).
  { destruct (isEmpty current); [discriminate|]. injection H as <- <-. lia. }
  destruct (isChar "]" c || isChar "{" c || isChar "}" c); [discriminate|].
  break_bind H. apply parseSymbol_ok in E as [_ E]. apply IH in H. lia.
Qed.

Lemma parseGroup_fuel (fuel : nat) :
  forall alts current rest,
    length rest < fuel -> parseGroup fuel alts current rest <> OutOfFuel.
Proof.
  induction fuel as [|fuel IH]; intros alts current rest Hlen; [lia|].
  simpl. destruct rest as [|c rest1]; [discriminate|].
  pose proof (length_tl_le rest1) as Htl. simpl in Hlen.
  destruct (isChar ":" c && negb (isEmpty rest1)); [discriminate|].
  destruct (isChar "[" c && nextIs "[" rest1).
  { destruct (parseGroup fuel [] [] (tl rest1)) as [[g r]| |] eqn:E; simpl;
      [|discriminate|].
    - apply parseGroup_shorter in E. apply IH. lia.
    - exfalso. revert E. apply IH. lia. }
  destruct (isChar "|" c).
  { destruct (isEmpty current); [discriminate|]. apply IH. lia. }
  destruct (isChar "]" c && nextIs "]" rest1).
  { destruct (isEmpty current); discriminate. }
  destruct (isChar "]" c || isChar "{" c || isChar "}" c); [discriminate|].
  destruct (parseSymbol c rest1) as [[node r]| |] eqn:E; simpl; [|discriminate|].
  - apply parseSymbol_ok in E as [_ E]. apply IH. lia.
  - exfalso. revert E. apply parseSymbol_fuel.
Qed.

Lemma isEmpty_false {A} (l : list A) : isEmpty l = false -> l <> [].
Proof. destruct l; [discriminate | discriminate]. Qed.

Lemma parseGroup_wf (fuel : nat) :
  forall alts current rest g rest',
    Forall AlternativeOk alts -> Forall WellFormed current ->
    parseGroup fuel alts current rest = Ok (g, rest') ->
    WellFormed g.
Proof.
  induction fuel as [|fuel IH]; intros alts current rest g rest' Halts Hcur H;
    simpl in H; [discriminate|].
  destruct rest as [|c rest1]; [discriminate|].
  destruct (isChar ":" c && negb (isEmpty rest1)); [discriminate|].
  destruct (isChar "[" c && nextIs "[" rest1).
  { break_bind H. apply IH in E; [|constructor|constructor].
    apply IH in H; auto. apply Forall_app. split; auto. }
  destruct (isChar "|" c).
  { destruct (isEmpty current) eqn:Ec; [discriminate|].
    apply IH in H; auto. apply Forall_app. split; auto.
    constructor; [|constructor]. split; [apply isEmpty_false, Ec | exact Hcur]. }
  destruct (isChar "]" c && nextIs "]" rest1).
  { destruct (isEmpty current) eqn:Ec; [discriminate|]. injection H as <- <-.
    constructor.
    - intros Habs. apply app_eq_nil in Habs as [_ Habs]. discriminate.
    - apply Forall_app. split; auto.
      constructor; [|constructor]. split; [apply isEmpty_false, Ec | exact Hcur]. }
  destruct (isChar "]" c || isChar "{" c || isChar "}" c); [discriminate|].
  break_bind H. apply parseSymbol_ok in E as [E _].
  apply IH in H; auto. apply Forall_app. split; auto.
Qed.

Lemma parseFragment_loop_fuel (fuel : nat) :
  forall nodes rest,
    length rest < fuel -> parseFragment_loop fuel nodes rest <> OutOfFuel.
Proof.
  induction fuel as [|fuel IH]; intros nodes rest Hlen; [lia|].
  simpl. destruct rest as [|c rest1]; [discriminate|].
  pose proof (length_tl_le rest1) as Htl. simpl in Hlen.
  destruct (isChar "[" c && nextIs "[" rest1).
  { destruct (parseGroup fuel [] [] (tl rest1)) as [[g r]| |] eqn:E; simpl;
      [|discriminate|].
    - apply parseGroup_shorter in E.
      destruct (nextIs "{" r); [discriminate|]. apply IH. lia.
    - exfalso. revert E. apply parseGroup_fuel. lia. }
  destruct (isChar "]" c || isChar "]" c && nextIs "]" rest1); [discriminate|].
  destruct (isChar "|" c); [discriminate|].
  destruct (parseSymbol c rest1) as [[node r]| |] eqn:E; simpl; [|discriminate|].
  - apply parseSymbol_ok in E as [_ E]. apply IH. lia.
  - exfalso. revert E. apply parseSymbol_fuel.
Qed.

Lemma parseFragment_loop_wf (fuel : nat) :
  forall nodes rest res,
    Forall WellFormed nodes ->
    parseFragment_loop fuel nodes rest = Ok res ->
    Forall WellFormed res /\ (nodes <> [] \/ rest <> [] -> res <> []).
Proof.
  induction fuel as [|fuel IH]; intros nodes rest res Hnodes H;
    simpl in H; [discriminate|].
  destruct rest as [|c rest1].
  { injection H as <-. split; [exact Hnodes|]. intros [?|?]; congruence. }
  assert (Hgrow : forall n : MaskNode, nodes ++ [n] <> []).
  { intros n Habs. apply app_eq_nil in Habs as [_ Habs]. discriminate. }
  destruct (isChar "[" c && nextIs "[" rest1).
  { break_bind_as H g r E. destruct (nextIs "{" r); [discriminate|].
    apply parseGroup_wf in E; [|constructor|constructor].
    apply IH in H as [H1 H2].
    - split; [exact H1|]. intros _. apply H2. left. apply Hgrow.
    - apply Forall_app. split; auto. }
  destruct (isChar "]" c || isChar "]" c && nextIs "]" rest1); [discriminate|].
  destruct (isChar "|" c); [discriminate|].
  break_bind H. apply parseSymbol_ok in E as [E _].
  apply IH in H as [H1 H2].
  - split; [exact H1|]. intros _. apply H2. left. apply Hgrow.
  - apply Forall_app. split; auto.
Qed.

Lemma splitBySeparators_loop_fuel (fuel : nat) :
  forall frags seps current depth rest,
    length rest < fuel ->
    splitBySeparators_loop fuel frags seps current depth rest <> OutOfFuel.
Proof.
  induction fuel as [|fuel IH]; intros frags seps current depth rest Hlen; [lia|].
  cbn [splitBySeparators_loop]. destruct rest as [|c rest1].
  { repeat break_if; discriminate. }
  pose proof (length_tl_le rest1) as Htl. simpl in Hlen.
  destruct (isChar "[" c && nextIs "[" rest1); [apply IH; lia|].
  destruct (isChar "]" c && nextIs "]" rest1).
  { destruct (depth =? 0); [discriminate|]. apply IH. lia. }
  destruct (isChar ":" c && (depth =? 0)).
  { destruct (indexOf (ch ":") rest1) as [e|]; [|discriminate].
    destruct (isEmpty current); [discriminate|].
    apply IH. rewrite length_drop. lia. }
  destruct (isChar ":" c && (0 <? depth)); [discriminate|].
  apply IH. lia.
Qed.

Lemma splitBySeparators_loop_nonempty (fuel : nat) :
  forall frags seps current depth rest fs ss,
    Forall (fun f => f <> []) frags ->
    splitBySeparators_loop fuel frags seps current depth rest = Ok (fs, ss) ->
    Forall (fun f => f <> []) fs.
Proof.
  induction fuel as [|fuel IH]; intros frags seps current depth rest fs ss Hfr H;
    cbn [splitBySeparators_loop] in H; [discriminate|].
  destruct rest as [|c rest1].
  { destruct (negb (depth =? 0)); [discriminate|].
    destruct (isEmpty current) eqn:Ec; [discriminate|]. injection H as <- <-.
    apply Forall_app. split; auto.
    constructor; [apply isEmpty_false, Ec | constructor]. }
  destruct (isChar "[" c && nextIs "[" rest1); [eapply IH; eauto|].
  destruct (isChar "]" c && nextIs "]" rest1).
  { destruct (depth =? 0); [discriminate|]. eapply IH; eauto. }
  destruct (isChar ":" c && (depth =? 0)).
  { destruct (indexOf (ch ":") rest1) as [e|]; [|discriminate].
    destruct (isEmpty current) eqn:Ec; [discriminate|].
    eapply IH; [|exact H]. apply Forall_app. split; auto.
    constructor; [apply isEmpty_false, Ec | constructor]. }
  destruct (isChar ":" c && (0 <? depth)); [discriminate|].
  eapply IH; eauto.
Qed.

Lemma mapParse_wf (rawFragments : list str) :
  forall frags,
    Forall (fun f => f <> []) rawFragments ->
    mapParse rawFragments = Ok frags -> Forall FragmentOk frags.
Proof.
  induction rawFragments as [|f fs IH]; intros frags Hne H; simpl in H.
  { injection H as <-. constructor. }
  apply Forall_cons in Hne as [Hf Hfs].
  unfold bind in H.
  destruct (parseFragment f) as [nodes| |] eqn:Ef; try discriminate.
  destruct (mapParse fs) as [rest| |] eqn:Em; try discriminate.
  injection H as <-.
  apply parseFragment_loop_wf in Ef as [H1 H2]; [|constructor].
  constructor; [|apply IH; auto].
  split; [apply H2; right; exact Hf | exact H1].
Qed.

Lemma mapParse_fuel (rawFragments : list str) : mapParse rawFragments <> OutOfFuel.
Proof.
  induction rawFragments as [|f fs IH]; simpl; [discriminate|].
  unfold bind. destruct (parseFragment f) as [nodes| |] eqn:Ef; try discriminate.
  - destruct (mapParse fs); [discriminate | discriminate | contradiction].
  - exfalso. revert Ef. apply parseFragment_loop_fuel. lia.
Qed.

(** The compiler never runs out of fuel: it returns a mask or raises. *)
Lemma parseMask_fuel (pattern : str) : parseMask pattern <> OutOfFuel.
Proof.
  unfold parseMask, bind. destruct (isEmpty pattern); [discriminate|].
  destruct (splitBySeparators pattern) as [[raws seps]| |] eqn:Es; try discriminate.
  - pose proof (mapParse_fuel raws). destruct (mapParse raws); congruence.
  - exfalso. revert Es. apply splitBySeparators_loop_fuel. lia.
Qed.

(** Every fragment of a compiled mask is non-empty and well formed. *)
Lemma parseMask_wf (pattern : str) (parsed : ParsedMask) :
  parseMask pattern = Ok parsed -> Forall FragmentOk (fragments parsed).
Proof.
  unfold parseMask, bind. destruct (isEmpty pattern); [discriminate|].
  destruct (splitBySeparators pattern) as [[raws seps]| |] eqn:Es; try discriminate.
  destruct (mapParse raws) as [frags| |] eqn:Em; try discriminate.
  intros [= <-]. simpl.
  apply mapParse_wf in Em; [exact Em|].
  eapply splitBySeparators_loop_nonempty; [|exact Es]. constructor.
Qed.

Lemma WellFormed_nodesOf (node : MaskNode) :
  WellFormed node -> forall m, In m (nodesOf node) -> WellFormed m.
Proof.
  induction node as [s|alts IH] using MaskNode_ind; intros Hwf m Hin;
    simpl in Hin.
  - destruct Hin as [<-|[]]. exact Hwf.
  - destruct Hin as [<-|Hin]; [exact Hwf|].
    inversion Hwf as [|alts' Hne Halts]; subst.
    apply in_flat_map in Hin as (alt & Halt & Hin).
    apply in_flat_map in Hin as (x & Hx & Hin).
    rewrite List.Forall_forall in IH, Halts.
    specialize (IH alt Halt). destruct (Halts alt Halt) as [_ Hall].
    rewrite List.Forall_forall in IH, Hall.
    exact (IH x Hx (Hall x Hx) m Hin).
Qed.

Lemma parseMask_allNodes (pattern : str) (parsed : ParsedMask) :
  parseMask pattern = Ok parsed ->
  forall m, In m (allNodes parsed) -> WellFormed m.
Proof.
  intros Hp m Hin. apply parseMask_wf in Hp.
  unfold allNodes in Hin.
  apply in_flat_map in Hin as (f & Hf & Hin).
  apply in_flat_map in Hin as (x & Hx & Hin).
  rewrite List.Forall_forall in Hp. destruct (Hp f Hf) as [_ Hall].
  rewrite List.Forall_forall in Hall.
  exact (WellFormed_nodesOf x (Hall x Hx) m Hin).
Qed.

Lemma mapParse_throws (rawFragments : list str) (f : str) (err : MaskError) :
  In f rawFragments -> parseFragment f = Throw err ->
  exists err', mapParse rawFragments = Throw err'.
Proof.
  induction rawFragments as [|f0 fs IH]; intros Hin Hf; [destruct Hin|].
  simpl. unfold bind. destruct (parseFragment f0) as [nodes|e0|] eqn:E0.
  - destruct Hin as [->|Hin]; [congruence|].
    destruct (IH Hin Hf) as [err' ->]. exists err'. reflexivity.
  - exists e0. reflexivity.
  - exfalso. revert E0. apply parseFragment_loop_fuel. lia.
Qed.

(** An error in one fragment is an error of the compilation. *)
Lemma parseMask_throws_fragment (pattern : str) (rawFragments seps : list str)
    (f : str) (err : MaskError) :
  splitBySeparators pattern = Ok (rawFragments, seps) ->
  In f rawFragments -> parseFragment f = Throw err ->
  exists err', parseMask pattern = Throw err'.
Proof.
  intros Hs Hin Hf. unfold parseMask.
  destruct (isEmpty pattern); [eexists; reflexivity|].
  rewrite Hs. simpl.
  destruct (mapParse_throws rawFragments f err Hin Hf) as [err' ->].
  exists err'. reflexivity.
Qed.

(** ** Quantifiers *)

Lemma MV_snoc (body : str) (d : char) :
  MV (body ++ [d]) = (10 * MV body + (d - 48))%N.
Proof. unfold MV. rewrite fold_left_app. reflexivity. Qed.

Lemma MV_acc (u : Decimal.uint) (acc : positive) :
  fold_left (fun a c => (10 * a + (c - 48))%N)
    (js (NilEmpty.string_of_uint u)) (N.pos acc)
  = N.pos (Pos.of_uint_acc u acc).
Proof.
  revert acc. induction u as [|u IH|u IH|u IH|u IH|u IH|u IH|u IH|u IH|u IH|u IH];
    intros acc; [reflexivity|..];
    cbn [NilEmpty.string_of_uint js list_ascii_of_string map fold_left Pos.of_uint_acc];
    fold (js (NilEmpty.string_of_uint u)); rewrite <- IH; f_equal;
    try (match goal with
         | |- context [N_of_ascii ?a] =>
             let v := eval vm_compute in (N_of_ascii a) in
             change (N_of_ascii a) with v
         end; lia).
Qed.

Lemma MV_of_uint (u : Decimal.uint) :
  MV (js (NilEmpty.string_of_uint u)) = N.of_uint u.
Proof.
  unfold MV, N.of_uint.
  induction u as [|u IH|u IH|u IH|u IH|u IH|u IH|u IH|u IH|u IH|u IH];
    [reflexivity|exact IH|..];
    cbn [NilEmpty.string_of_uint js list_ascii_of_string map fold_left Pos.of_uint];
    fold (js (NilEmpty.string_of_uint u)); apply MV_acc.
Qed.

(** The decimal numeral of [n] has the value [n]. *)
Lemma MV_decimal (n : N) : MV (decimal n) = n.
Proof. unfold decimal. rewrite MV_of_uint. apply DecimalN.Unsigned.of_to. Qed.

Lemma digits_all (u : Decimal.uint) :
  forallb DIGIT_RE (js (NilEmpty.string_of_uint u)) = true.
Proof.
  induction u; [reflexivity|..];
    cbn [NilEmpty.string_of_uint js list_ascii_of_string map forallb];
    fold (js (NilEmpty.string_of_uint u)); rewrite IHu; reflexivity.
Qed.

Lemma nzhead_not_D0 (u v : Decimal.uint) : Decimal.nzhead u <> Decimal.D0 v.
Proof. induction u; simpl; try discriminate. exact IHu. Qed.

Lemma decimal_positive (n : N) : (1 <= n)%N -> POSITIVE_INT_RE (decimal n) = true.
Proof.
  intros Hn. unfold decimal.
  assert (Hnorm : Decimal.unorm (N.to_uint n) = N.to_uint n).
  { rewrite <- DecimalN.Unsigned.to_of, DecimalN.Unsigned.of_to. reflexivity. }
  assert (Hval : N.of_uint (N.to_uint n) = n) by apply DecimalN.Unsigned.of_to.
  destruct (N.to_uint n) as [|u|u|u|u|u|u|u|u|u|u] eqn:E;
    try (cbn [NilEmpty.string_of_uint js list_ascii_of_string map POSITIVE_INT_RE];
         fold (js (NilEmpty.string_of_uint u)); rewrite digits_all; reflexivity).
  - discriminate Hnorm.
  - exfalso. rewrite unorm_D0 in Hnorm. unfold Decimal.unorm in Hnorm.
    destruct (Decimal.nzhead u) eqn:Eu; try discriminate Hnorm.
    + injection Hnorm as <-. simpl in Hval. lia.
    + revert Eu. rewrite Hnorm. apply nzhead_not_D0.
Qed.

Lemma indexOf_app_fresh (c : char) (l rest : str) :
  Forall (fun x => N.eqb x c = false) l ->
  indexOf c (l ++ c :: rest) = Some (length l).
Proof.
  induction 1 as [|x l Hx _ IH]; simpl.
  - rewrite N.eqb_refl. reflexivity.
  - rewrite Hx, IH. reflexivity.
Qed.

Lemma forallb_digit_fresh (l : str) (c : char) :
  DIGIT_RE c = false -> forallb DIGIT_RE l = true ->
  Forall (fun x => N.eqb x c = false) l.
Proof.
  intros Hc Hl. apply List.Forall_forall. intros x Hx.
  rewrite forallb_forall in Hl. specialize (Hl x Hx).
  destruct (N.eqb x c) eqn:E; [|reflexivity].
  apply N.eqb_eq in E. congruence.
Qed.

(** A quantifier that is the numeral of [n >= 1] is read as the double
    nearest to [n]. *)
Lemma parseQuantifier_decimal (n : N) (rest : str) :
  (1 <= n)%N ->
  parseQuantifier (decimal n ++ ch "}" :: rest)
  = Ok (toDouble n, toDouble n, rest).
Proof.
  intros Hn. pose proof (decimal_positive n Hn) as Hre.
  assert (Hdigits : forallb DIGIT_RE (decimal n) = true) by apply digits_all.
  unfold parseQuantifier.
  rewrite indexOf_app_fresh by (apply forallb_digit_fresh; [reflexivity | exact Hdigits]).
  rewrite take_app_length.
  replace (drop (S (length (decimal n))) (decimal n ++ ch "}" :: rest)) with rest.
  2:{ replace (S (length (decimal n))) with (length (decimal n) + 1) by lia.
      rewrite <- drop_drop, drop_app_length. reflexivity. }
  unfold Number. rewrite Hre, MV_decimal. cbn [negb].
  destruct (decimal n) as [|c ds] eqn:E; [discriminate Hre|].
  cbn [isEmpty]. replace (str_eqb (c :: ds) (js "+")) with false; [reflexivity|].
  symmetry. apply bool_decide_eq_false. intros [= -> _].
  simpl in Hre. discriminate Hre.
Qed.

Lemma parseQuantifier_cases (rest : str) :
  parseQuantifier rest =
  match indexOf (ch "}") rest with
  | None => Throw UnclosedQuantifier
  | Some e =>
      let body := take e rest in
      if str_eqb body (js "+") then Ok (Fin 1, Infinity, drop (S e) rest)
      else if POSITIVE_INT_RE body
           then Ok (Number body, Number body, drop (S e) rest)
           else Throw (if isEmpty body then EmptyQuantifier
                       else InvalidQuantifier body)
  end.
Proof.
  unfold parseQuantifier. destruct (indexOf (ch "}") rest) as [e|]; [|reflexivity].
  cbn zeta. destruct (take e rest) as [|c body]; [reflexivity|].
  cbn [isEmpty]. destruct (str_eqb (c :: body) (js "+")); [reflexivity|].
  destruct (POSITIVE_INT_RE (c :: body)); reflexivity.
Qed.

Lemma makeSymbolNode_plain (c : char) :
  isOk (makeSymbolNode c) = true ->
  isChar ":" c = false /\ isChar "{" c = false /\ isChar "}" c = false
  /\ isChar "|" c = false /\ isChar "]" c = false /\ isChar "[" c = false.
Proof.
  unfold makeSymbolNode.
  destruct (isChar ":" c), (isChar "{" c), (isChar "}" c), (isChar "|" c),
    (isChar "]" c), (isChar "[" c); simpl; intros H; try discriminate H;
    repeat split; reflexivity.
Qed.


(** ** Groups and symbols of a compiled mask *)


(** C10. Every symbol of a compiled mask has 1 <= min <= max, with max
    equal to min or unbounded.  So a symbol is satisfied only after it has
    consumed at least one character, and each character it consumed matches
    it. *)
Theorem compiled_symbol_bounds (pattern : str) (parsed : ParsedMask) (s : SymbolNode) :
  parseMask pattern = Ok parsed ->
  In (SymbolN s) (allNodes parsed) ->
  num_le (Fin 1) (min s)
  /\ num_le (min s) (max s)
  /\ (max s = min s \/ max s = Infinity)
  /\ (forall input startPos seps remainingNodes,
        let res := consumeSymbol s input startPos seps remainingNodes in
        Forall (fun c => matchesNode s c = true) (raw res)
        /\ (satisfied res = true ->
            num_le (min s) (Fin (N.of_nat (length (raw res))))
            /\ 1 <= length (raw res))).
Proof.
  intros Hp Hin.
  pose proof (parseMask_allNodes pattern parsed Hp _ Hin) as Hwf.
  inversion Hwf as [s' Hmin Hmax|]; subst.
  split; [exact Hmin|]. split.
  { destruct Hmax as [->| ->]; [|destruct (min s); exact I].
    destruct (min s); simpl; [lia | exact I]. }
  split; [exact Hmax|].
  intros input startPos seps rem res.
  destruct (consumeSymbol_spec s input startPos seps rem) as (_ & Hall & Hsat).
  split; [exact Hall|]. fold res in Hsat. rewrite Hsat.
  destruct (min s) as [m|]; simpl in *; [|discriminate].
  intros Hle. apply N.leb_le in Hle. lia.
Qed.

Lemma compiled_symbol_bounds_witness :
  let s := {| kind := Kind0; value := None; min := Fin 4; max := Fin 4 |} in
  num_le (Fin 1) (min s)
  /\ num_le (min s) (max s)
  /\ (max s = min s \/ max s = Infinity)
  /\ (forall input startPos seps remainingNodes,
        let res := consumeSymbol s input startPos seps remainingNodes in
        Forall (fun c => matchesNode s c = true) (raw res)
        /\ (satisfied res = true ->
            num_le (min s) (Fin (N.of_nat (length (raw res))))
            /\ 1 <= length (raw res))).
Proof.
  intros s.
  apply (compiled_symbol_bounds (js "0{4}:-:0{4}")
           {| fragments := [[SymbolN s]; [SymbolN s]]; separators := [js "-"] |} s).
  - vm_compute. reflexivity.
  - simpl. left. reflexivity.
Defined.

(** ** The lookahead of the contiguous branch *)






(** ** The choice of the mode *)

Lemma hasNonDigitNode_sound (node : MaskNode) :
  hasNonDigitNode node = true ->
  forall nodes, In node nodes -> ContainsNonDigit nodes.
Proof.
  induction node as [s|alts IH] using MaskNode_ind; intros H nodes Hin.
  - apply (nonDigit_here nodes s Hin). simpl in H.
    destruct (kind s); congruence.
  - simpl in H. apply existsb_exists in H as (alt & Halt & H).
    apply existsb_exists in H as (x & Hx & H).
    apply (nonDigit_inside nodes alts alt Hin Halt).
    rewrite List.Forall_forall in IH. specialize (IH alt Halt).
    rewrite List.Forall_forall in IH. exact (IH x Hx H alt Hx).
Qed.

Lemma hasNonDigitSymbol_iff (nodes : list MaskNode) :
  hasNonDigitSymbol nodes = true <-> ContainsNonDigit nodes.
Proof.
  split.
  - intros H. apply existsb_exists in H as (x & Hx & H).
    exact (hasNonDigitNode_sound x H nodes Hx).
  - induction 1 as [nodes s Hin Hk|nodes alts alt Hin Halt _ IH].
    + apply existsb_exists. exists (SymbolN s). split; [exact Hin|].
      simpl. destruct (kind s); congruence.
    + apply existsb_exists. exists (GroupN alts). split; [exact Hin|].
      simpl. apply existsb_exists. exists alt. split; [exact Halt | exact IH].
Qed.

Lemma str_eqb_eq (a b : str) : str_eqb a b = true <-> a = b.
Proof. unfold str_eqb. apply bool_decide_eq_true. Qed.

(** C5. The manual-space branch is taken exactly when there is a separator,
    every separator is one space, and some fragment contains a non-digit
    symbol, searched through the alternatives of groups; in every other
    case, a mask without separators included, the contiguous branch is. *)
Theorem mode_selection (parsed : ParsedMask) (rawValue : JsValue) :
  (manualSpaceMask parsed = true <->
     separators parsed <> []
     /\ Forall (fun s => s = js " ") (separators parsed)
     /\ Exists ContainsNonDigit (fragments parsed))
  /\ (manualSpaceMask parsed = true ->
      formatValue parsed rawValue = formatManualSpace parsed (inputOf rawValue))
  /\ (manualSpaceMask parsed = false ->
      formatValue parsed rawValue = formatContiguous parsed (inputOf rawValue))
  /\ (separators parsed = [] ->
      formatValue parsed rawValue = formatContiguous parsed (inputOf rawValue)).
Proof.
  assert (Hiff : manualSpaceMask parsed = true <->
     separators parsed <> []
     /\ Forall (fun s => s = js " ") (separators parsed)
     /\ Exists ContainsNonDigit (fragments parsed)).
  { unfold manualSpaceMask. rewrite !andb_true_iff, Nat.ltb_lt.
    rewrite forallb_forall, existsb_exists, List.Forall_forall, List.Exists_exists.
    split.
    - intros [[Hlen Hall] (f & Hf & Hnd)]. repeat split.
      + intros Habs. rewrite Habs in Hlen. simpl in Hlen. lia.
      + intros x Hx. apply str_eqb_eq, Hall, Hx.
      + exists f. split; [exact Hf|]. apply hasNonDigitSymbol_iff, Hnd.
    - intros (Hne & Hall & f & Hf & Hnd). repeat split.
      + destruct (separators parsed); [congruence | simpl; lia].
      + intros x Hx. apply str_eqb_eq, Hall, Hx.
      + exists f. split; [exact Hf|]. apply hasNonDigitSymbol_iff, Hnd. }
  split; [exact Hiff|]. unfold formatValue.
  split; [intros ->; reflexivity|].
  split; [intros ->; reflexivity|].
  intros Hnil. destruct (manualSpaceMask parsed) eqn:E; [|reflexivity].
  destruct (proj1 Hiff eq_refl) as [Hne _]. contradiction.
Qed.

Lemma mode_selection_witness :
  let letters := SymbolN {| kind := KindA; value := None; min := Fin 1; max := Infinity |} in
  let parsed := {| fragments := [[letters]; [letters]]; separators := [js " "] |} in
  formatValue parsed (JsString (js "Ada Lovelace"))
  = formatManualSpace parsed (js "Ada Lovelace").
Proof.
  intros letters parsed.
  apply (proj1 (proj2 (mode_selection parsed (JsString (js "Ada Lovelace"))))).
  vm_compute. reflexivity.
Defined.

(** ** Where the characters of the output come from *)

Lemma splitWhiteSpace_pieces (s : str) :
  forall inRun current piece,
    In piece (splitWhiteSpace inRun current s) ->
    (forall c, In c piece -> In c current \/ In c s)
    /\ (NoWhiteSpace current -> NoWhiteSpace piece).
Proof.
  induction s as [|x s IH]; intros inRun current piece Hin; simpl in Hin.
  - destruct Hin as [<-|[]]. split; auto.
  - destruct (isWhiteSpace x) eqn:Ex.
    + destruct inRun.
      * destruct (IH _ _ _ Hin) as [H1 H2]. split; [|exact H2].
        intros c Hc. destruct (H1 c Hc); [left|right; right]; assumption.
      * destruct Hin as [<-|Hin]; [split; auto|].
        destruct (IH _ _ _ Hin) as [H1 H2]. split; [|intros _; apply H2; constructor].
        intros c Hc. destruct (H1 c Hc) as [[]|]. right. right. assumption.
    + destruct (IH _ _ _ Hin) as [H1 H2]. split.
      * intros c Hc. destruct (H1 c Hc) as [H|H]; [|right; right; exact H].
        apply in_app_or in H as [H|[<-|[]]]; [left; exact H | right; left; reflexivity].
      * intros Hcur. apply H2. apply Forall_app. split; [exact Hcur|].
        constructor; [exact Ex | constructor].
Qed.

Lemma words_spec (input w : str) :
  In w (words input) ->
  (forall c, In c w -> In c input) /\ NoWhiteSpace w.
Proof.
  unfold words. intros Hin. apply list_elem_of_In, list_elem_of_filter in Hin as [_ Hin].
  apply list_elem_of_In, splitWhiteSpace_pieces in Hin as [H1 H2].
  split; [|apply H2; constructor].
  intros c Hc. destruct (H1 c Hc) as [[]|H]. exact H.
Qed.

Lemma valuePart_spec (input : str) (i : nat) :
  (forall c, In c (nth i (words input) []) -> In c input)
  /\ NoWhiteSpace (nth i (words input) []).
Proof.
  destruct (nth_in_or_default i (words input) []) as [Hin| ->].
  - apply words_spec, Hin.
  - split; [intros c []|constructor].
Qed.

Lemma sublist_In {A} (l k : list A) (x : A) : l `sublist_of` k -> In x l -> In x k.
Proof.
  intros Hs Hin. apply list_elem_of_In. apply list_elem_of_In in Hin.
  eapply elem_of_sublist; eauto.
Qed.

Lemma manualFragments_outputs (input : str) (frags : list (list MaskNode)) :
  forall i r, In r (manualFragments frags (words input) i) ->
    out r = raw r
    /\ exists j, raw r `sublist_of` nth j (words input) [].
Proof.
  induction frags as [|f frags IH]; intros i r Hin; simpl in Hin; [destruct Hin|].
  destruct Hin as [<-|Hin].
  - destruct (consumeNodes_recognized f (nth i (words input) []) 0 [] None)
      as (Ho & _ & Hsub).
    split; [exact Ho|]. exists i. eapply sublist_slice_input, Hsub.
  - destruct (satisfied _); [|destruct Hin]. exact (IH _ _ Hin).
Qed.

Lemma contiguousFragments_outputs (input : str) (sepList : list str)
    (frags : list (list MaskNode)) :
  forall p r, In r (contiguousFragments frags input sepList p) ->
    out r = raw r /\ raw r `sublist_of` input.
Proof.
  induction frags as [|f frags IH]; intros p r Hin; simpl in Hin; [destruct Hin|].
  destruct Hin as [<-|Hin].
  - destruct (consumeNodes_recognized f input p sepList (head frags))
      as (Ho & _ & Hsub).
    split; [exact Ho|]. eapply sublist_slice_input, Hsub.
  - destruct (satisfied _); [|destruct Hin]. exact (IH _ _ Hin).
Qed.

Lemma joinWithSeparators_chars (outs seps : list str) (c : char) :
  In c (joinWithSeparators outs seps) ->
  (exists part, In part outs /\ In c part)
  \/ (exists sep, In sep seps /\ In c sep).
Proof.
  revert seps. induction outs as [|part outs IH]; intros seps Hin; simpl in Hin;
    [destruct Hin|].
  destruct (isEmpty part); [destruct Hin|].
  apply in_app_or in Hin as [Hin|Hin].
  { left. exists part. split; [left; reflexivity | exact Hin]. }
  apply in_app_or in Hin as [Hin|Hin].
  - destruct seps as [|sep seps]; [destruct Hin|].
    destruct outs as [|nextPart outs]; [destruct Hin|].
    destruct (isEmpty nextPart); [destruct Hin|].
    right. exists sep. split; [left; reflexivity | exact Hin].
  - destruct (IH _ Hin) as [(q & Hq & Hc)|(sep & Hsep & Hc)].
    + left. exists q. split; [right; exact Hq | exact Hc].
    + right. exists sep. split; [|exact Hc].
      destruct seps; [destruct Hsep | right; exact Hsep].
Qed.

Lemma join_chars (sep : str) (parts : list str) (c : char) :
  In c (join sep parts) -> In c sep \/ exists part, In part parts /\ In c part.
Proof.
  induction parts as [|x parts IH]; intros Hin; [destruct Hin|].
  destruct parts as [|y parts].
  - right. exists x. split; [left; reflexivity | exact Hin].
  - change (join sep (x :: y :: parts)) with (x ++ sep ++ join sep (y :: parts)) in Hin.
    apply in_app_or in Hin as [Hin|Hin].
    { right. exists x. split; [left; reflexivity | exact Hin]. }
    apply in_app_or in Hin as [Hin|Hin]; [left; exact Hin|].
    destruct (IH Hin) as [H|(q & Hq & Hc)]; [left; exact H|].
    right. exists q. split; [right; exact Hq | exact Hc].
Qed.

Lemma trimEnd_chars (s : str) (c : char) : In c (trimEnd s) -> In c s.
Proof.
  induction s as [|x s IH]; simpl; [auto|].
  destruct (trimEnd s) as [|y t].
  - destruct (isWhiteSpace x); simpl; tauto.
  - simpl. intros [H|H]; [left; exact H | right; apply IH; exact H].
Qed.

Lemma replaceTrailingWhiteSpace_chars (s : str) (c : char) :
  In c (replaceTrailingWhiteSpace s) -> In c s \/ In c (js " ").
Proof.
  unfold replaceTrailingWhiteSpace. destruct (length (trimEnd s) <? length s).
  - intros H. apply in_app_or in H as [H|H]; [left; apply trimEnd_chars, H | right; exact H].
  - auto.
Qed.

Lemma manualSpaceMask_space (parsed : ParsedMask) :
  manualSpaceMask parsed = true -> In (js " ") (separators parsed).
Proof.
  unfold manualSpaceMask. rewrite !andb_true_iff.
  intros [[Hlen Hall] _]. destruct (separators parsed) as [|s seps]; [discriminate|].
  simpl in Hall. apply andb_true_iff in Hall as [Hs _].
  apply str_eqb_eq in Hs. left. exact Hs.
Qed.

Lemma format_chars (parsed : ParsedMask) (rawValue : JsValue) (c : char) :
  In c (format parsed rawValue) ->
  In c (inputOf rawValue)
  \/ exists sep, In sep (separators parsed) /\ In c sep.
Proof.
  unfold format, formatValue. destruct (manualSpaceMask parsed) eqn:Hmode; simpl.
  - set (input := inputOf rawValue).
    set (joined := join (js " ") _).
    assert (Hj : In c joined ->
                 In c input \/ exists sep, In sep (separators parsed) /\ In c sep).
    { intros Hin. apply join_chars in Hin as [Hin|(part & Hpart & Hin)].
      - right. exists (js " "). split; [apply manualSpaceMask_space, Hmode | exact Hin].
      - left. apply in_map_iff in Hpart as (r & <- & Hr).
        apply manualFragments_outputs in Hr as (Ho & j & Hsub).
        rewrite Ho in Hin. apply (sublist_In _ _ _ Hsub) in Hin.
        apply (proj1 (valuePart_spec input j)), Hin. }
    destruct (endsInWhiteSpace input).
    + intros Hin. apply replaceTrailingWhiteSpace_chars in Hin as [Hin|Hin]; [auto|].
      right. exists (js " "). split; [apply manualSpaceMask_space, Hmode | exact Hin].
    + intros Hin. apply Hj, trimEnd_chars, Hin.
  - intros Hin. apply joinWithSeparators_chars in Hin as [(part & Hpart & Hin)|H];
      [|right; exact H].
    left. apply in_map_iff in Hpart as (r & <- & Hr).
    apply contiguousFragments_outputs in Hr as (Ho & Hsub).
    rewrite Ho in Hin. exact (sublist_In _ _ _ Hsub Hin).
Qed.

(** C9. Whatever node is consumed, a symbol or a group, the text it emits
    is the raw text it recognized, and that text is read, in order, from
    the part of the input the cursor moved over.  So every character of the
    masked string is a character of the raw input or of a separator of the
    mask (the joining space of manual-space mode is one), and the character
    of a literal node is not put in the output when the input lacks it. *)
Theorem output_is_recognized_input :
  (forall node input startPos seps remainingNodes,
     let r := consumeNode node input startPos seps remainingNodes in
     out r = raw r
     /\ startPos <= pos r
     /\ raw r `sublist_of` slice input startPos (pos r)
     /\ raw r `sublist_of` input)
  /\ (forall s input startPos seps remainingNodes,
        let r := consumeSymbol s input startPos seps remainingNodes in
        out r = raw r /\ raw r `sublist_of` slice input startPos (pos r))
  /\ (forall alternatives input startPos seps tailNodes,
        let r := consumeGroup alternatives input startPos seps tailNodes in
        out r = raw r /\ raw r `sublist_of` slice input startPos (pos r))
  /\ (forall nodes input startPos seps tailNodes,
        let r := consumeNodes nodes input startPos seps tailNodes in
        out r = raw r /\ raw r `sublist_of` slice input startPos (pos r))
  /\ (forall parsed rawValue c,
        In c (format parsed rawValue) ->
        In c (inputOf rawValue)
        \/ exists sep, In sep (separators parsed) /\ In c sep)
  /\ run "0{3}-0{2}" "12345" = Ok "123"%string
  /\ run "0{3}-0{2}" "123-45" = Ok "123-45"%string
  /\ run "(0{3})" "123" = Ok ""%string
  /\ run "(0{3})" "(123)" = Ok "(123)"%string.
Proof.
  split.
  { intros node input startPos seps rem r.
    destruct (consumeNode_recognized node input seps startPos rem) as (H1 & H2 & H3).
    repeat split; try assumption. eapply sublist_slice_input, H3. }
  split.
  { intros s input startPos seps rem r.
    destruct (consumeNode_recognized (SymbolN s) input seps startPos rem)
      as (H1 & H2 & H3). split; assumption. }
  split.
  { intros alts input startPos seps rem r.
    destruct (consumeNode_recognized (GroupN alts) input seps startPos rem)
      as (H1 & H2 & H3). split; assumption. }
  split.
  { intros nodes input startPos seps t r.
    destruct (consumeNodes_recognized nodes input startPos seps t) as (H1 & H2 & H3).
    split; assumption. }
  split; [exact format_chars|].
  repeat split; vm_compute; reflexivity.
Qed.

(** ** Trailing white space *)

Lemma endsInWhiteSpace_cons (c x : char) (s : str) :
  endsInWhiteSpace (c :: x :: s) = endsInWhiteSpace (x :: s).
Proof. reflexivity. Qed.

Lemma trimEnd_no_trailing (s : str) : endsInWhiteSpace (trimEnd s) = false.
Proof.
  induction s as [|c s IH]; [reflexivity|]. simpl.
  destruct (trimEnd s) as [|x t].
  - destruct (isWhiteSpace c) eqn:E; [reflexivity|].
    unfold endsInWhiteSpace. simpl. exact E.
  - rewrite endsInWhiteSpace_cons. exact IH.
Qed.

Lemma trimEnd_id (s : str) : endsInWhiteSpace s = false -> trimEnd s = s.
Proof.
  induction s as [|c s IH]; [reflexivity|]. destruct s as [|x s].
  - unfold endsInWhiteSpace. simpl. intros ->. reflexivity.
  - rewrite endsInWhiteSpace_cons. intros H. specialize (IH H).
    change (trimEnd (c :: x :: s))
      with (match trimEnd (x :: s) with
            | [] => if isWhiteSpace c then [] else [c]
            | t => c :: t
            end).
    rewrite IH. reflexivity.
Qed.

Lemma trimEnd_shorter (s : str) :
  endsInWhiteSpace s = true -> length (trimEnd s) < length s.
Proof.
  induction s as [|c s IH]; [discriminate|]. destruct s as [|x s].
  - unfold endsInWhiteSpace. simpl. intros ->. simpl. lia.
  - rewrite endsInWhiteSpace_cons. intros H. specialize (IH H).
    change (trimEnd (c :: x :: s))
      with (match trimEnd (x :: s) with
            | [] => if isWhiteSpace c then [] else [c]
            | t => c :: t
            end).
    destruct (trimEnd (x :: s)); [destruct (isWhiteSpace c)|]; simpl in *; lia.
Qed.

Lemma replaceTrailingWhiteSpace_cases (s : str) :
  (endsInWhiteSpace s = true -> replaceTrailingWhiteSpace s = trimEnd s ++ js " ")
  /\ (endsInWhiteSpace s = false -> replaceTrailingWhiteSpace s = s).
Proof.
  unfold replaceTrailingWhiteSpace. split; intros H.
  - apply trimEnd_shorter in H. apply Nat.ltb_lt in H. rewrite H. reflexivity.
  - rewrite (trimEnd_id s H), Nat.ltb_irrefl. reflexivity.
Qed.

Lemma NoWhiteSpace_sublist (l k : str) :
  l `sublist_of` k -> NoWhiteSpace k -> NoWhiteSpace l.
Proof.
  unfold NoWhiteSpace. rewrite !Forall_forall. intros Hs Hk c Hc.
  apply Hk. eapply elem_of_sublist; eauto.
Qed.

Lemma NoWhiteSpace_ends (s : str) : NoWhiteSpace s -> endsInWhiteSpace s = false.
Proof.
  unfold NoWhiteSpace, endsInWhiteSpace. rewrite Forall_forall. intros H.
  destruct (last s) as [c|] eqn:E; [|reflexivity].
  apply H, last_Some_elem_of, E.
Qed.

Lemma endsInWhiteSpace_app (a b : str) :
  b <> [] -> endsInWhiteSpace (a ++ b) = endsInWhiteSpace b.
Proof.
  intros Hb. unfold endsInWhiteSpace. rewrite last_app.
  destruct b as [|x b]; [congruence|]. rewrite last_cons.
  destruct (last b); reflexivity.
Qed.

(** The joined outputs end in white space exactly when the last of at
    least two outputs is empty: the joining space is then the last
    character. *)
Lemma endsInWhiteSpace_join (outs : list str) :
  Forall NoWhiteSpace outs ->
  endsInWhiteSpace (join (js " ") outs) = true
  <-> 2 <= length outs /\ last outs = Some [].
Proof.
  induction outs as [|x outs IH]; intros Hall.
  { simpl. split; [discriminate | intros [H _]; lia]. }
  apply Forall_cons in Hall as [Hx Hall]. specialize (IH Hall).
  destruct outs as [|y outs].
  { simpl. rewrite (NoWhiteSpace_ends x Hx).
    split; [discriminate | intros [H _]; lia]. }
  change (join (js " ") (x :: y :: outs))
    with (x ++ js " " ++ join (js " ") (y :: outs)).
  rewrite endsInWhiteSpace_app by discriminate.
  rewrite last_cons_cons.
  destruct outs as [|z outs].
  - cbn [join length]. rewrite last_singleton.
    apply Forall_cons in Hall as [Hy _]. destruct y as [|c y].
    + split; [intros _; split; [lia | reflexivity] | intros _; reflexivity].
    + rewrite endsInWhiteSpace_app by discriminate.
      rewrite (NoWhiteSpace_ends (c :: y) Hy).
      split; [discriminate | intros [_ H]; discriminate H].
  - rewrite endsInWhiteSpace_app.
    + rewrite IH. cbn [length]. split; intros [_ H]; (split; [lia | exact H]).
    + change (join (js " ") (y :: z :: outs))
        with (y ++ js " " ++ join (js " ") (z :: outs)).
      intros Habs. apply app_eq_nil in Habs as [_ Habs]. discriminate Habs.
Qed.

Lemma manualFragments_NoWhiteSpace (input : str) (frags : list (list MaskNode)) (i : nat) :
  Forall NoWhiteSpace (map out (manualFragments frags (words input) i)).
Proof.
  apply List.Forall_forall. intros o Ho.
  apply in_map_iff in Ho as (r & <- & Hr).
  apply manualFragments_outputs in Hr as (Ho & j & Hsub). rewrite Ho.
  eapply NoWhiteSpace_sublist; [exact Hsub | apply valuePart_spec].
Qed.

(** C6, as the code has it.  In manual-space mode the fragment outputs are
    joined with one space, and the joined text ends in white space only when
    the last of at least two outputs is empty.  When the raw value ends in
    white space, trailing white space of the joined text is replaced by
    exactly one space, and a joined text without trailing white space is
    returned as it is, with no space added; when the raw value does not end
    in white space, trailing white space is trimmed. *)
Theorem manual_space_trailing (parsed : ParsedMask) (rawValue : JsValue) :
  manualSpaceMask parsed = true ->
  let input := inputOf rawValue in
  let outs := map out (manualFragments (fragments parsed) (words input) 0) in
  let joined := join (js " ") outs in
  let m := format parsed rawValue in
  (endsInWhiteSpace joined = true <-> 2 <= length outs /\ last outs = Some [])
  /\ (endsInWhiteSpace input = true ->
      (endsInWhiteSpace joined = true ->
         m = trimEnd joined ++ js " " /\ keepsOneTrailingSpace m)
      /\ (endsInWhiteSpace joined = false ->
         m = joined /\ endsInWhiteSpace m = false))
  /\ (endsInWhiteSpace input = false ->
      m = trimEnd joined /\ endsInWhiteSpace m = false).
Proof.
  intros Hmode input outs joined m.
  assert (Hm : m = if endsInWhiteSpace input
                   then replaceTrailingWhiteSpace joined else trimEnd joined).
  { unfold m, format, formatValue. rewrite Hmode. reflexivity. }
  destruct (replaceTrailingWhiteSpace_cases joined) as [Hyes Hno].
  split; [apply endsInWhiteSpace_join, manualFragments_NoWhiteSpace|].
  split.
  - intros Hin. rewrite Hin in Hm. split; intros Hj.
    + rewrite Hyes in Hm by exact Hj. split; [exact Hm|].
      exists (trimEnd joined). split; [exact Hm | apply trimEnd_no_trailing].
    + rewrite Hno in Hm by exact Hj. split; [exact Hm|]. rewrite Hm. exact Hj.
  - intros Hin. rewrite Hin in Hm. split; [exact Hm|].
    rewrite Hm. apply trimEnd_no_trailing.
Qed.

Lemma manual_space_trailing_witness :
  let letters := SymbolN {| kind := KindA; value := None; min := Fin 1; max := Infinity |} in
  let parsed := {| fragments := [[letters]; [letters]]; separators := [js " "] |} in
  let rawValue := JsString (js "John ") in
  let input := inputOf rawValue in
  let outs := map out (manualFragments (fragments parsed) (words input) 0) in
  let joined := join (js " ") outs in
  let m := format parsed rawValue in
  (endsInWhiteSpace joined = true <-> 2 <= length outs /\ last outs = Some [])
  /\ (endsInWhiteSpace input = true ->
      (endsInWhiteSpace joined = true ->
         m = trimEnd joined ++ js " " /\ keepsOneTrailingSpace m)
      /\ (endsInWhiteSpace joined = false ->
         m = joined /\ endsInWhiteSpace m = false))
  /\ (endsInWhiteSpace input = false ->
      m = trimEnd joined /\ endsInWhiteSpace m = false).
Proof.
  intros letters parsed rawValue.
  apply (manual_space_trailing parsed rawValue).
  vm_compute. reflexivity.
Defined.

(** For the mask [A{+}: :A{+}] the raw value [John Smith ] ends in white
    space and is formatted as [John Smith], without a trailing space. *)
Lemma trailing_space_not_always_kept :
  exists parsed,
    parseMask (js "A{+}: :A{+}") = Ok parsed
    /\ manualSpaceMask parsed = true
    /\ endsInWhiteSpace (inputOf (JsString (js "John Smith "))) = true
    /\ format parsed (JsString (js "John Smith ")) = js "John Smith"
    /\ ~ keepsOneTrailingSpace (format parsed (JsString (js "John Smith "))).
Proof.
  eexists. split; [vm_compute; reflexivity|].
  split; [vm_compute; reflexivity|].
  split; [vm_compute; reflexivity|].
  split; [vm_compute; reflexivity|].
  intros (core & Hcore & _).
  apply (f_equal last) in Hcore. rewrite last_app in Hcore.
  vm_compute in Hcore. discriminate Hcore.
Qed.

(** ** Formatting always returns *)

Lemma StopsAtFirstUnsatisfied_step (f : list MaskNode) (frags : list (list MaskNode))
    (res : ConsumeResult) (rest : list ConsumeResult) :
  StopsAtFirstUnsatisfied frags rest ->
  StopsAtFirstUnsatisfied (f :: frags) (res :: (if satisfied res then rest else [])).
Proof.
  intros (H1 & H2 & H3). destruct (satisfied res) eqn:Hs.
  - split; [simpl; lia|]. split.
    + intros [|k] r Hk Hlen; simpl in *.
      * injection Hk as <-. exact Hs.
      * apply (H2 k r Hk). lia.
    + intros Hall. apply Forall_cons in Hall as [_ Hall]. simpl. rewrite (H3 Hall).
      reflexivity.
  - split; [simpl; lia|]. split.
    + intros [|k] r Hk Hlen; simpl in *; [lia | discriminate].
    + intros Hall. apply Forall_cons in Hall as [Habs _]. congruence.
Qed.

Lemma StopsAtFirstUnsatisfied_nil : StopsAtFirstUnsatisfied [] [].
Proof.
  split; [reflexivity|]. split; [|reflexivity]. intros k r Hk. discriminate.
Qed.

Lemma contiguousFragments_stops (frags : list (list MaskNode)) (input : str)
    (sepList : list str) :
  forall p, StopsAtFirstUnsatisfied frags (contiguousFragments frags input sepList p).
Proof.
  induction frags as [|f frags IH]; intros p; simpl.
  - apply StopsAtFirstUnsatisfied_nil.
  - apply StopsAtFirstUnsatisfied_step, IH.
Qed.

Lemma manualFragments_stops (frags : list (list MaskNode)) (parts : list str) :
  forall i, StopsAtFirstUnsatisfied frags (manualFragments frags parts i).
Proof.
  induction frags as [|f frags IH]; intros i; simpl.
  - apply StopsAtFirstUnsatisfied_nil.
  - apply StopsAtFirstUnsatisfied_step, IH.
Qed.

Lemma contiguousFragments_lookup (input : str) (sepList : list str)
    (frags : list (list MaskNode)) :
  forall p k f,
    let results := contiguousFragments frags input sepList p in
    frags !! k = Some f -> k < length results ->
    results !! k
    = Some (consumeNodes f input
              (match k with
               | 0 => p
               | S j => match results !! j with Some r => pos r | None => 0 end
               end)
              sepList (frags !! S k)).
Proof.
  induction frags as [|f0 frags IH]; intros p k f results Hf Hk; [discriminate Hf|].
  subst results. cbn [contiguousFragments] in *.
  destruct k as [|k].
  - injection Hf as <-. cbn. destruct frags; reflexivity.
  - cbn in Hf. cbn [length] in Hk.
    destruct (satisfied (consumeNodes f0 input p sepList (head frags)));
      [|cbn in Hk; lia].
    cbn [lookup list_lookup]. change (list_lookup k) with (lookup (M := list ConsumeResult) k).
    rewrite (IH _ k f Hf) by lia.
    destruct k as [|k]; reflexivity.
Qed.

Lemma manualFragments_lookup (parts : list str) (frags : list (list MaskNode)) :
  forall i k f,
    let results := manualFragments frags parts i in
    frags !! k = Some f -> k < length results ->
    results !! k = Some (consumeNodes f (nth (i + k) parts []) 0 [] None).
Proof.
  induction frags as [|f0 frags IH]; intros i k f results Hf Hk; [discriminate Hf|].
  subst results. cbn [manualFragments] in *.
  destruct k as [|k].
  - injection Hf as <-. cbn. rewrite Nat.add_0_r. reflexivity.
  - cbn in Hf. cbn [length] in Hk.
    destruct (satisfied (consumeNodes f0 (nth i parts []) 0 [] None));
      [|cbn in Hk; lia].
    replace (i + S k) with (S i + k) by lia.
    apply (IH (S i) k f Hf). lia.
Qed.

Lemma StopsAtFirstUnsatisfied_last (frags : list (list MaskNode))
    (results : list ConsumeResult) (r : ConsumeResult) :
  StopsAtFirstUnsatisfied frags results ->
  last results = Some r -> length results < length frags ->
  satisfied r = false.
Proof.
  intros (_ & Hbut & Hall) Hlast Hlen.
  destruct (satisfied r) eqn:Hs; [|reflexivity]. exfalso.
  assert (Hfull : Forall (fun r => satisfied r = true) results).
  { apply Forall_lookup. intros k x Hk.
    destruct (decide (S k < length results)) as [Hlt|Hge]; [exact (Hbut k x Hk Hlt)|].
    apply lookup_lt_Some in Hk as Hk'.
    assert (k = pred (length results)) by lia. subst k.
    rewrite last_lookup in Hlast. congruence. }
  specialize (Hall Hfull). lia.
Qed.

(** C1. [format] raises exactly when the conversion of the raw value to
    a text raises, and then raises what the conversion raised; for every
    value that is converted it returns a string.  A null or absent value is
    formatted as the empty string, any other value as its text.  The string
    is built from the outputs of the leading fragments, each consumed where
    the code consumes it, up to and including the first fragment that is
    not satisfied: an input that is not complete or not well formed gives a
    partial mask and no error.  The separator-skipping loop of the engine
    ends where no separator starts, and the compiler returns a mask or
    raises. *)
Theorem format_never_throws (parsed : ParsedMask) (rawValue : Unknown) :
  (forall e, formatUnknown parsed rawValue = Abrupt e <-> rawValue = Unconvertible e)
  /\ (forall v,
        rawValue = Convertible v ->
        let input := inputOf v in
        let frags := fragments parsed in
        formatUnknown parsed rawValue = Normal (format parsed v)
        /\ (v = JsNull \/ v = JsUndefined -> input = [])
        /\ (forall s, v = JsString s -> input = s)
        /\ (v <> JsNull -> v <> JsUndefined ->
            format parsed v = format parsed (JsString (ToString v)))
        /\ format parsed v = format parsed (JsString input)
        /\ exists results,
             StopsAtFirstUnsatisfied frags results
             /\ (frags <> [] -> results <> [])
             /\ (forall r, last results = Some r ->
                   length results < length frags -> satisfied r = false)
             /\ ((manualSpaceMask parsed = true
                  /\ (forall k f,
                        frags !! k = Some f -> k < length results ->
                        results !! k
                        = Some (consumeNodes f (nth k (words input) []) 0 [] None))
                  /\ format parsed v
                     = (let joined := join (js " ") (map out results) in
                        if endsInWhiteSpace input
                        then replaceTrailingWhiteSpace joined else trimEnd joined))
                 \/ (manualSpaceMask parsed = false
                     /\ (forall k f,
                           frags !! k = Some f -> k < length results ->
                           results !! k
                           = Some (consumeNodes f input
                                     (match k with
                                      | 0 => 0
                                      | S j => match results !! j with
                                               | Some r => pos r
                                               | None => 0
                                               end
                                      end)
                                     (sortLongestFirst
                                        (filter (fun s => s <> []) (separators parsed)))
                                     (frags !! S k)))
                     /\ format parsed v
                        = joinWithSeparators (map out results) (separators parsed))))
  /\ (forall input p seps,
        separatorLengthAt input (skipSeparators input p seps) seps = 0
        /\ skipSeparators input p seps
           = (if 0 <? separatorLengthAt input p seps
              then skipSeparators input (p + separatorLengthAt input p seps) seps
              else p))
  /\ (forall pattern, create pattern <> OutOfFuel)
  /\ (forall pattern f,
        create pattern = Ok f ->
        exists compiled,
          parseMask pattern = Ok compiled /\ forall v, f v = format compiled v)
  /\ run "0{3}:-:0{2}" "1234" = Ok "123-4"%string
  /\ run "0{3}:-:0{2}" "12" = Ok "12"%string
  /\ run "0{3}:-:0{2}" "12a" = Ok "12"%string
  /\ run "0{3}:-:0{2}" "abc" = Ok ""%string
  /\ run "0{3}:-:0{2}" "" = Ok ""%string.
Proof.
  split.
  { intros e. destruct rawValue as [v|e']; cbn; split; congruence. }
  split.
  { intros v -> input frags. split; [reflexivity|].
    split; [intros [->| ->]; reflexivity|].
    split; [intros s ->; reflexivity|].
    split; [destruct v; intros; try reflexivity; congruence|].
    split; [reflexivity|].
    unfold format, formatValue. fold input.
    destruct (manualSpaceMask parsed) eqn:Hmode.
    - exists (manualFragments frags (words input) 0).
      pose proof (manualFragments_stops frags (words input) 0) as Hstops.
      split; [exact Hstops|].
      split; [subst frags; destruct (fragments parsed); [congruence|discriminate]|].
      split; [intros r; apply StopsAtFirstUnsatisfied_last, Hstops|].
      left. split; [reflexivity|]. split; [|reflexivity].
      intros k f Hf Hk. apply (manualFragments_lookup (words input) frags 0 k f Hf Hk).
    - exists (contiguousFragments frags input
                (sortLongestFirst (filter (fun s => s <> []) (separators parsed))) 0).
      pose proof (contiguousFragments_stops frags input
                    (sortLongestFirst (filter (fun s => s <> []) (separators parsed)))
                    0) as Hstops.
      split; [exact Hstops|].
      split; [subst frags; destruct (fragments parsed); [congruence|discriminate]|].
      split; [intros r; apply StopsAtFirstUnsatisfied_last, Hstops|].
      right. split; [reflexivity|]. split; [|reflexivity].
      intros k f Hf Hk.
      apply (contiguousFragments_lookup input _ frags 0 k f Hf Hk). }
  split.
  { intros input p seps. split; [apply skipSeparators_stops | apply skipSeparators_eq]. }
  split.
  { intros pattern. unfold create, bind.
    pose proof (parseMask_fuel pattern). destruct (parseMask pattern); congruence. }
  split.
  { intros pattern f. unfold create, bind.
    destruct (parseMask pattern) as [compiled| |]; try discriminate.
    intros [= <-]. exists compiled. split; reflexivity. }
  repeat split; vm_compute; reflexivity.
Qed.

Lemma format_never_throws_witness :
  formatUnknown {| fragments := [[digitNode]]; separators := [] |}
    (Convertible (JsInteger 4111 eq_refl))
  = Normal (format {| fragments := [[digitNode]]; separators := [] |}
              (JsInteger 4111 eq_refl)).
Proof.
  apply (proj1 (proj2 (format_never_throws
           {| fragments := [[digitNode]]; separators := [] |}
           (Convertible (JsInteger 4111 eq_refl)))) (JsInteger 4111 eq_refl)).
  reflexivity.
Defined.

(** A value whose conversion to a text raises makes [format] raise: for
    the compiled mask of the pattern [0] and an object without conversion
    methods, as [Object.create(null)], the [TypeError] of [String]. *)
Lemma format_raises_on_unconvertible_value :
  exists parsed,
    parseMask (js "0") = Ok parsed
    /\ formatUnknown parsed (Unconvertible TypeError) = Abrupt TypeError
    /\ forall text, formatUnknown parsed (Unconvertible TypeError) <> Normal text.
Proof.
  eexists. split; [vm_compute; reflexivity|]. split; [reflexivity|].
  intros text. discriminate.
Qed.

(** ** The card number example *)

(** C2. The pattern [0{4}:-:0{4}:-:0{4}:-:0{4}] formats the input
    [4111 1111 1111 1111] as [4111-1111-1111-1111]: the contiguous branch
    is used, each fragment consumes four digits (the cursor stops at 4, 9,
    14 and 19), each space is skipped (it is no separator and starts no
    lookahead node), and [-] is put between the fragment outputs. *)
Theorem card_number_example :
  exists parsed,
    let input := js "4111 1111 1111 1111" in
    let sepList := [js "-"; js "-"; js "-"] in
    parseMask (js "0{4}:-:0{4}:-:0{4}:-:0{4}") = Ok parsed
    /\ separators parsed = sepList
    /\ manualSpaceMask parsed = false
    /\ sortLongestFirst (filter (fun s => s <> []) (separators parsed)) = sepList
    /\ map (fun r => (out r, pos r, satisfied r))
         (contiguousFragments (fragments parsed) input sepList 0)
       = [(js "4111", 4, true); (js "1111", 9, true);
          (js "1111", 14, true); (js "1111", 19, true)]
    /\ forallb (fun nodes => negb (canStartWithChar nodes (ch " ")))
         (fragments parsed) = true
    /\ forallb (fun p => separatorLengthAt input p sepList =? 0) [4; 9; 14] = true
    /\ recognized (formatValue parsed (JsString input)) = js "4111111111111111"
    /\ format parsed (JsString input) = js "4111-1111-1111-1111".
Proof.
  eexists. cbn zeta.
  split; [vm_compute; reflexivity|].
  repeat split; vm_compute; reflexivity.
Qed.

(** * Further properties of the compiler and of the engine *)

(** ** Splitting a pattern *)

Lemma isChar_eq (a : ascii) (c : char) : isChar a c = true -> c = ch a.
Proof. unfold isChar. apply N.eqb_eq. Qed.

Lemma nextIs_cons (a : ascii) (rest : str) :
  nextIs a rest = true -> rest = ch a :: tl rest.
Proof.
  destruct rest as [|c rest]; simpl; [discriminate|].
  intros H. apply isChar_eq in H. congruence.
Qed.

Lemma indexOf_split (c : char) (s : str) (e : nat) :
  indexOf c s = Some e ->
  s = take e s ++ c :: drop (S e) s
  /\ Forall (fun x => N.eqb x c = false) (take e s).
Proof.
  revert e. induction s as [|x s IH]; intros e; simpl; [discriminate|].
  destruct (N.eqb x c) eqn:E.
  - intros [= <-]. apply N.eqb_eq in E. subst. split; [reflexivity | constructor].
  - destruct (indexOf c s) as [k|]; simpl; [|discriminate].
    intros [= <-]. destruct (IH k eq_refl) as [H1 H2]. simpl. split.
    + f_equal. exact H1.
    + constructor; assumption.
Qed.

Lemma interleave_cons_cons (x y : str) (parts seps : list str) :
  interleave (x :: y :: parts) seps
  = x ++ hd [] seps ++ interleave (y :: parts) (tl seps).
Proof. reflexivity. Qed.

Lemma interleave_closed (frags seps : list str) (current : str) :
  length frags = length seps ->
  interleave (frags ++ [current]) (map delimited seps)
  = closedText frags seps ++ current.
Proof.
  revert seps. induction frags as [|f frags IH]; intros [|sep seps] Hlen;
    try discriminate Hlen; [reflexivity|].
  injection Hlen as Hlen. specialize (IH seps Hlen).
  change ((f :: frags) ++ [current]) with (f :: (frags ++ [current])).
  destruct (frags ++ [current]) as [|y ys] eqn:E.
  { apply app_eq_nil in E as [_ E]. discriminate E. }
  rewrite interleave_cons_cons. cbn [map hd tl closedText].
  rewrite IH, <- !app_assoc. reflexivity.
Qed.

Lemma closedText_snoc (frags seps : list str) (f sep : str) :
  length frags = length seps ->
  closedText (frags ++ [f]) (seps ++ [sep])
  = closedText frags seps ++ f ++ delimited sep.
Proof.
  revert seps. induction frags as [|g frags IH]; intros [|t seps] Hlen;
    try discriminate Hlen; cbn [closedText app].
  - rewrite !app_nil_r. reflexivity.
  - injection Hlen as Hlen. rewrite (IH seps Hlen), <- !app_assoc. reflexivity.
Qed.

Lemma splitBySeparators_loop_text (fuel : nat) :
  forall frags seps current depth rest fs ss,
    length frags = length seps ->
    splitBySeparators_loop fuel frags seps current depth rest = Ok (fs, ss) ->
    interleave fs (map delimited ss) = closedText frags seps ++ current ++ rest
    /\ length fs = S (length ss).
Proof.
  induction fuel as [|fuel IH]; intros frags seps current depth rest fs ss Hlen H;
    cbn [splitBySeparators_loop] in H; [discriminate|].
  destruct rest as [|c rest1].
  { destruct (negb (depth =? 0)); [discriminate|].
    destruct (isEmpty current); [discriminate|]. injection H as <- <-.
    rewrite interleave_closed, app_nil_r by exact Hlen.
    split; [reflexivity|]. rewrite length_app. simpl. lia. }
  destruct (isChar "[" c && nextIs "[" rest1) eqn:E1.
  { apply andb_true_iff in E1 as [Ec En]. apply isChar_eq in Ec.
    apply nextIs_cons in En. apply IH in H as [H1 H2]; [|exact Hlen].
    split; [|exact H2]. rewrite H1, En, Ec, <- !app_assoc. reflexivity. }
  destruct (isChar "]" c && nextIs "]" rest1) eqn:E2.
  { destruct (depth =? 0); [discriminate|].
    apply andb_true_iff in E2 as [Ec En]. apply isChar_eq in Ec.
    apply nextIs_cons in En. apply IH in H as [H1 H2]; [|exact Hlen].
    split; [|exact H2]. rewrite H1, En, Ec, <- !app_assoc. reflexivity. }
  destruct (isChar ":" c && (depth =? 0)) eqn:E3.
  { destruct (indexOf (ch ":") rest1) as [e|] eqn:Ee; [|discriminate].
    destruct (isEmpty current); [discriminate|].
    apply andb_true_iff in E3 as [Ec _]. apply isChar_eq in Ec.
    apply indexOf_split in Ee as [Hsplit _].
    apply IH in H as [H1 H2]; [|rewrite !length_app; simpl; lia].
    split; [|exact H2]. rewrite H1, closedText_snoc by exact Hlen.
    rewrite Hsplit at 3. unfold delimited. rewrite Ec, <- !app_assoc.
    cbn [app]. rewrite <- !app_assoc. reflexivity. }
  destruct (isChar ":" c && (0 <? depth)); [discriminate|].
  apply IH in H as [H1 H2]; [|exact Hlen].
  split; [|exact H2]. rewrite H1, <- !app_assoc. reflexivity.
Qed.

Lemma mapParse_Forall2 (rawFragments : list str) :
  forall frags, mapParse rawFragments = Ok frags ->
    Forall2 (fun f nodes => parseFragment f = Ok nodes) rawFragments frags.
Proof.
  induction rawFragments as [|f fs IH]; intros frags H; simpl in H.
  { injection H as <-. constructor. }
  unfold bind in H.
  destruct (parseFragment f) as [nodes| |] eqn:Ef; try discriminate.
  destruct (mapParse fs) as [rest| |] eqn:Em; try discriminate.
  injection H as <-. constructor; [exact Ef | apply IH; reflexivity].
Qed.

Lemma parseMask_parts (pattern : str) (parsed : ParsedMask) :
  parseMask pattern = Ok parsed ->
  exists rawFragments,
    splitBySeparators pattern = Ok (rawFragments, separators parsed)
    /\ Forall2 (fun f nodes => parseFragment f = Ok nodes)
         rawFragments (fragments parsed).
Proof.
  unfold parseMask, bind. destruct (isEmpty pattern); [discriminate|].
  destruct (splitBySeparators pattern) as [[raws seps]| |] eqn:Es; try discriminate.
  destruct (mapParse raws) as [frags| |] eqn:Em; try discriminate.
  intros [= <-]. simpl. exists raws. split; [reflexivity|].
  apply mapParse_Forall2, Em.
Qed.

(** X1. A compiled pattern is its fragment texts with the separators,
    each between two colons, put back between them; there is one separator
    less than there are fragments, and fragment [i] of the mask is the
    parse of fragment text [i]. *)
Theorem parseMask_split_round_trip (pattern : str) (parsed : ParsedMask) :
  parseMask pattern = Ok parsed ->
  exists rawFragments,
    splitBySeparators pattern = Ok (rawFragments, separators parsed)
    /\ pattern = interleave rawFragments (map delimited (separators parsed))
    /\ Forall2 (fun f nodes => parseFragment f = Ok nodes)
         rawFragments (fragments parsed)
    /\ length rawFragments = S (length (separators parsed))
    /\ length (fragments parsed) = S (length (separators parsed)).
Proof.
  unfold parseMask, bind. destruct (isEmpty pattern); [discriminate|].
  destruct (splitBySeparators pattern) as [[raws seps]| |] eqn:Es; try discriminate.
  destruct (mapParse raws) as [frags| |] eqn:Em; try discriminate.
  intros [= <-]. simpl. exists raws.
  apply splitBySeparators_loop_text in Es as [H1 H2]; [|reflexivity].
  apply mapParse_Forall2 in Em.
  repeat split; auto.
  rewrite <- (Forall2_length _ _ _ Em). exact H2.
Qed.

Lemma parseMask_split_round_trip_witness :
  exists rawFragments,
    splitBySeparators (js "0{3}:-:[[A|0]]: / :A{+}")
    = Ok (rawFragments, [js "-"; js " / "])
    /\ js "0{3}:-:[[A|0]]: / :A{+}"
       = interleave rawFragments (map delimited [js "-"; js " / "])
    /\ Forall2 (fun f nodes => parseFragment f = Ok nodes) rawFragments
         [[SymbolN {| kind := Kind0; value := None; min := Fin 3; max := Fin 3 |}];
          [GroupN [[letterNode]; [digitNode]]];
          [SymbolN {| kind := KindA; value := None; min := Fin 1; max := Infinity |}]]
    /\ length rawFragments = 3
    /\ 3 = 3.
Proof.
  apply (parseMask_split_round_trip (js "0{3}:-:[[A|0]]: / :A{+}")
           {| fragments :=
                [[SymbolN {| kind := Kind0; value := None; min := Fin 3; max := Fin 3 |}];
                 [GroupN [[letterNode]; [digitNode]]];
                 [SymbolN {| kind := KindA; value := None; min := Fin 1; max := Infinity |}]];
              separators := [js "-"; js " / "] |}).
  vm_compute. reflexivity.
Defined.

Lemma splitBySeparators_loop_NoColon (fuel : nat) :
  forall frags seps current depth rest fs ss,
    Forall NoColon frags -> Forall NoColon seps -> NoColon current ->
    splitBySeparators_loop fuel frags seps current depth rest = Ok (fs, ss) ->
    Forall NoColon fs /\ Forall NoColon ss.
Proof.
  induction fuel as [|fuel IH];
    intros frags seps current depth rest fs ss Hf Hs Hc H;
    cbn [splitBySeparators_loop] in H; [discriminate|].
  assert (Hbr : forall a, isChar ":" (ch a) = false -> NoColon (current ++ [ch a; ch a])).
  { intros a Ha. apply Forall_app. split; [exact Hc|]. repeat constructor; exact Ha. }
  destruct rest as [|c rest1].
  { destruct (negb (depth =? 0)); [discriminate|].
    destruct (isEmpty current); [discriminate|]. injection H as <- <-.
    split; [|exact Hs]. apply Forall_app. split; [exact Hf|].
    constructor; [exact Hc | constructor]. }
  destruct (isChar "[" c && nextIs "[" rest1).
  { eapply IH; [exact Hf | exact Hs | | exact H]. apply (Hbr "["%char). reflexivity. }
  destruct (isChar "]" c && nextIs "]" rest1).
  { destruct (depth =? 0); [discriminate|].
    eapply IH; [exact Hf | exact Hs | | exact H]. apply (Hbr "]"%char). reflexivity. }
  destruct (isChar ":" c && (depth =? 0)) eqn:E3.
  { destruct (indexOf (ch ":") rest1) as [e|] eqn:Ee; [|discriminate].
    destruct (isEmpty current); [discriminate|].
    apply indexOf_split in Ee as [_ Hfresh].
    eapply IH; [| | |exact H].
    - apply Forall_app. split; [exact Hf|]. constructor; [exact Hc | constructor].
    - apply Forall_app. split; [exact Hs|]. constructor; [exact Hfresh | constructor].
    - constructor. }
  destruct (isChar ":" c && (0 <? depth)) eqn:E4.
  { discriminate. }
  eapply IH; [exact Hf | exact Hs | | exact H].
  apply Forall_app. split; [exact Hc|]. constructor; [|constructor].
  destruct (isChar ":" c); [|reflexivity].
  destruct depth; simpl in E3, E4; discriminate.
Qed.

(** X2. No separator of a compiled mask contains a colon; the fragment
    texts the pattern is split into contain none either, and none of them
    is empty. *)
Theorem parseMask_no_colon (pattern : str) (parsed : ParsedMask) :
  parseMask pattern = Ok parsed ->
  Forall NoColon (separators parsed)
  /\ exists rawFragments,
       splitBySeparators pattern = Ok (rawFragments, separators parsed)
       /\ Forall NoColon rawFragments
       /\ Forall (fun f => f <> []) rawFragments.
Proof.
  unfold parseMask, bind. destruct (isEmpty pattern); [discriminate|].
  destruct (splitBySeparators pattern) as [[raws seps]| |] eqn:Es; try discriminate.
  destruct (mapParse raws) as [frags| |] eqn:Em; try discriminate.
  intros [= <-]. simpl.
  pose proof (splitBySeparators_loop_nonempty _ _ _ _ _ _ _ _ (List.Forall_nil _) Es)
    as Hne.
  destruct (splitBySeparators_loop_NoColon _ _ _ _ _ _ _ _
              (List.Forall_nil _) (List.Forall_nil _) (List.Forall_nil _) Es)
    as [H1 H2].
  split; [exact H2|]. exists raws. repeat split; assumption.
Qed.

Lemma parseMask_no_colon_witness :
  Forall NoColon [js "-"; js " / "]
  /\ exists rawFragments,
       splitBySeparators (js "0{3}:-:[[A|0]]: / :A{+}")
       = Ok (rawFragments, [js "-"; js " / "])
       /\ Forall NoColon rawFragments
       /\ Forall (fun f => f <> []) rawFragments.
Proof.
  apply (parseMask_no_colon (js "0{3}:-:[[A|0]]: / :A{+}")
           {| fragments :=
                [[SymbolN {| kind := Kind0; value := None; min := Fin 3; max := Fin 3 |}];
                 [GroupN [[letterNode]; [digitNode]]];
                 [SymbolN {| kind := KindA; value := None; min := Fin 1; max := Infinity |}]];
              separators := [js "-"; js " / "] |}).
  vm_compute. reflexivity.
Defined.

(** ** What the compiler puts in a symbol *)

Lemma makeSymbolNode_plainSymbol (c : char) :
  makeSymbolNode c
  = if reserved c
    then Throw (if isChar "[" c
                   && negb (isChar ":" c || isChar "{" c || isChar "}" c
                            || isChar "|" c || isChar "]" c)
                then UnexpectedOpenBracket else UnexpectedSymbol c)
    else Ok (plainSymbol c).
Proof.
  unfold makeSymbolNode, reserved, plainSymbol.
  destruct (isChar ":" c), (isChar "{" c), (isChar "}" c), (isChar "|" c),
    (isChar "]" c), (isChar "[" c); reflexivity.
Qed.

Lemma parseSymbol_Compiled (c : char) (rest1 : str) (s : SymbolNode) (rest' : str) :
  parseSymbol c rest1 = Ok (s, rest') -> Compiled s.
Proof.
  unfold parseSymbol, bind. rewrite makeSymbolNode_plainSymbol.
  destruct (reserved c) eqn:Er; [discriminate|].
  destruct (nextIs "{" rest1).
  - destruct (parseQuantifier (tl rest1)) as [[[mn mx] r]| |] eqn:Eq;
      try discriminate.
    intros [= <- <-]. exists c. simpl.
    apply parseQuantifier_ok in Eq as (H1 & H2 & H3 & _).
    repeat split; auto.
  - intros [= <- <-]. exists c. simpl.
    split; [exact Er|]. split; [reflexivity|]. split; [reflexivity|].
    split; [cbn; lia|]. split; [reflexivity | left; reflexivity].
Qed.

Section EverySymbolOfTheParser.
Variable P : SymbolNode -> Prop.
Hypothesis parseSymbol_P :
  forall c rest1 s rest', parseSymbol c rest1 = Ok (s, rest') -> P s.

Lemma parseGroup_every (fuel : nat) :
  forall alts current rest g rest',
    Forall (Forall (EverySymbol P)) alts -> Forall (EverySymbol P) current ->
    parseGroup fuel alts current rest = Ok (g, rest') ->
    EverySymbol P g.
Proof using parseSymbol_P.
  induction fuel as [|fuel IH]; intros alts current rest g rest' Halts Hcur H;
    simpl in H; [discriminate|].
  destruct rest as [|c rest1]; [discriminate|].
  destruct (isChar ":" c && negb (isEmpty rest1)); [discriminate|].
  destruct (isChar "[" c && nextIs "[" rest1).
  { break_bind H. apply IH in E; [|constructor|constructor].
    apply IH in H; auto. apply Forall_app. split; auto. }
  destruct (isChar "|" c).
  { destruct (isEmpty current); [discriminate|].
    apply IH in H; auto. apply Forall_app. split; auto. }
  destruct (isChar "]" c && nextIs "]" rest1).
  { destruct (isEmpty current); [discriminate|]. injection H as <- <-.
    constructor. apply Forall_app. split; auto. }
  destruct (isChar "]" c || isChar "{" c || isChar "}" c); [discriminate|].
  break_bind H. apply parseSymbol_P in E.
  apply IH in H; auto. apply Forall_app. split; auto.
  constructor; [constructor; exact E | constructor].
Qed.

Lemma parseFragment_loop_every (fuel : nat) :
  forall nodes rest res,
    Forall (EverySymbol P) nodes ->
    parseFragment_loop fuel nodes rest = Ok res ->
    Forall (EverySymbol P) res.
Proof using parseSymbol_P.
  induction fuel as [|fuel IH]; intros nodes rest res Hnodes H;
    simpl in H; [discriminate|].
  destruct rest as [|c rest1]; [injection H as <-; exact Hnodes|].
  destruct (isChar "[" c && nextIs "[" rest1).
  { break_bind_as H g r E. destruct (nextIs "{" r); [discriminate|].
    apply parseGroup_every in E; [|constructor|constructor].
    apply IH in H; auto. apply Forall_app. split; auto. }
  destruct (isChar "]" c || isChar "]" c && nextIs "]" rest1); [discriminate|].
  destruct (isChar "|" c); [discriminate|].
  break_bind H. apply parseSymbol_P in E.
  apply IH in H; auto. apply Forall_app. split; auto.
  constructor; [constructor; exact E | constructor].
Qed.

Lemma EverySymbol_nodesOf (node : MaskNode) :
  EverySymbol P node -> forall s, In (SymbolN s) (nodesOf node) -> P s.
Proof.
  induction node as [s0|alts IH] using MaskNode_ind; intros Hall s Hin;
    simpl in Hin.
  - destruct Hin as [[= <-]|[]]. inversion Hall. assumption.
  - destruct Hin as [Habs|Hin]; [discriminate Habs|].
    inversion Hall as [|alts' Halts]; subst.
    apply in_flat_map in Hin as (alt & Halt & Hin).
    apply in_flat_map in Hin as (x & Hx & Hin).
    rewrite List.Forall_forall in IH, Halts.
    specialize (IH alt Halt). specialize (Halts alt Halt).
    rewrite List.Forall_forall in IH, Halts.
    exact (IH x Hx (Halts x Hx) s Hin).
Qed.

Lemma parseMask_every (pattern : str) (parsed : ParsedMask) (s : SymbolNode) :
  parseMask pattern = Ok parsed -> In (SymbolN s) (allNodes parsed) -> P s.
Proof using parseSymbol_P.
  intros Hp Hin. unfold allNodes in Hin.
  apply in_flat_map in Hin as (f & Hf & Hin).
  apply in_flat_map in Hin as (x & Hx & Hin).
  destruct (parseMask_parts pattern parsed Hp) as (raws & _ & Hall).
  apply list_elem_of_In in Hf.
  destruct (proj1 (list_elem_of_lookup _ _) Hf) as [i Hi].
  destruct (Forall2_lookup_r _ _ _ _ _ Hall Hi) as (raw & _ & Hparse).
  apply parseFragment_loop_every in Hparse; [|constructor].
  rewrite List.Forall_forall in Hparse.
  exact (EverySymbol_nodesOf x (Hparse x Hx) s Hin).
Qed.
End EverySymbolOfTheParser.

(** X3. Every symbol of a compiled mask is the node of one pattern
    character that is not reserved, with the bounds of its quantifier: a
    letter or digit symbol has no value, a literal carries its character,
    which is none of [: { } | ] [ A 0], and matches that character only;
    its min is a double that is at least 1, and its max is its min or is
    unbounded with min 1 (so an unbounded symbol has min 1, or min
    [Infinity] when its numeral is beyond the range of doubles). *)
Theorem compiled_symbol_shape (pattern : str) (parsed : ParsedMask) (s : SymbolNode) :
  parseMask pattern = Ok parsed ->
  In (SymbolN s) (allNodes parsed) ->
  Compiled s
  /\ (kind s = KindLiteral <-> value s <> None)
  /\ (forall v, value s = Some v ->
        reserved v = false /\ v <> ch "A" /\ v <> ch "0")
  /\ (kind s = KindLiteral ->
      forall c, matchesNode s c = true <-> value s = Some c)
  /\ (max s = Infinity -> min s = Fin 1 \/ min s = Infinity).
Proof.
  intros Hp Hin.
  assert (Hc : Compiled s).
  { exact (parseMask_every Compiled parseSymbol_Compiled pattern parsed s Hp Hin). }
  split; [exact Hc|].
  destruct Hc as (c & Hres & Hk & Hv & Hmin & Hdbl & Hmax).
  unfold plainSymbol in Hk, Hv. simpl in Hk, Hv.
  assert (HA : isChar "A" c = false -> c <> ch "A").
  { intros H ->. discriminate H. }
  assert (H0 : isChar "0" c = false -> c <> ch "0").
  { intros H ->. discriminate H. }
  split; [|split; [|split]].
  - rewrite Hk, Hv. destruct (isChar "A" c), (isChar "0" c); simpl;
      split; congruence.
  - intros v. rewrite Hv.
    destruct (isChar "A" c) eqn:EA, (isChar "0" c) eqn:E0; simpl; try discriminate.
    intros [= <-]. auto.
  - intros Hlit c'. unfold matchesNode. rewrite Hlit, Hv.
    rewrite Hk in Hlit.
    destruct (isChar "A" c), (isChar "0" c); simpl in *; try discriminate.
    rewrite N.eqb_eq. split; congruence.
  - intros Hinf. destruct Hmax as [Hfin|[H1 _]]; [right; congruence | left; exact H1].
Qed.

Lemma compiled_symbol_shape_witness :
  let s := {| kind := KindLiteral; value := Some (ch "-"); min := Fin 1; max := Fin 1 |} in
  Compiled s
  /\ (kind s = KindLiteral <-> value s <> None)
  /\ (forall v, value s = Some v ->
        reserved v = false /\ v <> ch "A" /\ v <> ch "0")
  /\ (kind s = KindLiteral ->
      forall c, matchesNode s c = true <-> value s = Some c)
  /\ (max s = Infinity -> min s = Fin 1 \/ min s = Infinity).
Proof.
  intros s.
  apply (compiled_symbol_shape (js "0-0")
           {| fragments := [[digitNode; SymbolN s; digitNode]]; separators := [] |} s).
  - vm_compute. reflexivity.
  - simpl. right. left. reflexivity.
Defined.

(** ** Fragments of plain characters *)

Lemma reserved_false (c : char) :
  reserved c = false ->
  isChar ":" c = false /\ isChar "{" c = false /\ isChar "}" c = false
  /\ isChar "|" c = false /\ isChar "]" c = false /\ isChar "[" c = false.
Proof.
  unfold reserved.
  destruct (isChar ":" c), (isChar "{" c), (isChar "}" c), (isChar "|" c),
    (isChar "]" c), (isChar "[" c); simpl; intros H; try discriminate H;
    repeat split; reflexivity.
Qed.

Lemma parseFragment_loop_plain (fuel : nat) :
  forall nodes rest,
    length rest < fuel ->
    Forall (fun c => reserved c = false) rest ->
    parseFragment_loop fuel nodes rest
    = Ok (nodes ++ map (fun c => SymbolN (plainSymbol c)) rest).
Proof.
  induction fuel as [|fuel IH]; intros nodes rest Hlen Hall; [lia|].
  cbn [parseFragment_loop].
  destruct Hall as [|c rest1 Hc Hrest]; [rewrite app_nil_r; reflexivity|].
  simpl in Hlen.
  destruct (reserved_false c Hc) as (H1 & H2 & H3 & H4 & H5 & H6).
  rewrite H6, H5, H4. cbn [andb orb].
  assert (Hsym : parseSymbol c rest1 = Ok (plainSymbol c, rest1)).
  { unfold parseSymbol. rewrite makeSymbolNode_plainSymbol, Hc. simpl.
    destruct Hrest as [|c2 rest2 Hc2 _]; [reflexivity|]. simpl.
    destruct (reserved_false c2 Hc2) as (_ & -> & _). reflexivity. }
  rewrite Hsym. simpl. rewrite IH by (auto; lia).
  rewrite <- app_assoc. reflexivity.
Qed.

(** X4. A fragment text without any of the reserved characters
    [: { } | ] [] compiles to one symbol per character, in order, each to be
    matched exactly once: [A] to a letter symbol, [0] to a digit symbol and
    any other character to the literal of that character. *)
Theorem parseFragment_plain (fragment : str) :
  Forall (fun c => reserved c = false) fragment ->
  parseFragment fragment = Ok (map (fun c => SymbolN (plainSymbol c)) fragment).
Proof.
  intros Hall. unfold parseFragment.
  rewrite parseFragment_loop_plain by (auto; lia). reflexivity.
Qed.

Lemma parseFragment_plain_witness :
  parseFragment (js "+7 (000) A-0")
  = Ok (map (fun c => SymbolN (plainSymbol c)) (js "+7 (000) A-0")).
Proof.
  apply parseFragment_plain.
  repeat constructor.
Defined.

(** ** The separator found at a position *)

Lemma isPrefix_iff (sep s : str) :
  isPrefix sep s = true <-> take (length sep) s = sep.
Proof.
  revert s. induction sep as [|a sep IH]; intros [|b s]; simpl;
    try (split; [reflexivity | reflexivity]).
  - split; discriminate.
  - rewrite andb_true_iff, N.eqb_eq, IH. split.
    + intros [-> ->]. reflexivity.
    + intros [= -> H]. rewrite H. auto.
Qed.

Lemma insertByLength_In (x y : str) (l : list str) :
  In y (insertByLength x l) <-> y = x \/ In y l.
Proof.
  induction l as [|z l IH]; simpl; [intuition congruence|].
  destruct (length z <=? length x); simpl; [intuition congruence|].
  rewrite IH. intuition congruence.
Qed.

Lemma sortLongestFirst_In (y : str) (l : list str) :
  In y (sortLongestFirst l) <-> In y l.
Proof.
  unfold sortLongestFirst. induction l as [|x l IH]; simpl; [reflexivity|].
  rewrite insertByLength_In, IH. intuition congruence.
Qed.

Lemma insertByLength_LongestFirst (x : str) (l : list str) :
  LongestFirst l -> LongestFirst (insertByLength x l).
Proof.
  induction l as [|z l IH]; intros Hl; simpl; [split; constructor|].
  destruct Hl as [Hz Hl]. destruct (length z <=? length x) eqn:E; simpl.
  - apply Nat.leb_le in E. split; [|split; assumption].
    constructor; [exact E|]. eapply Forall_impl; [exact Hz|].
    intros y Hy. simpl in Hy. lia.
  - apply Nat.leb_gt in E. split; [|apply IH, Hl].
    apply List.Forall_forall. intros y Hy. apply insertByLength_In in Hy as [->|Hy].
    + lia.
    + rewrite List.Forall_forall in Hz. apply Hz, Hy.
Qed.

Lemma sortLongestFirst_LongestFirst (l : list str) : LongestFirst (sortLongestFirst l).
Proof.
  unfold sortLongestFirst. induction l as [|x l IH]; simpl; [exact I|].
  apply insertByLength_LongestFirst, IH.
Qed.

Lemma separatorLengthAt_found (input : str) (p : nat) (seps : list str) :
  0 < separatorLengthAt input p seps ->
  exists sep, In sep seps /\ sep <> [] /\ startsWith input sep p = true
              /\ length sep = separatorLengthAt input p seps.
Proof.
  induction seps as [|x seps IH]; simpl; [lia|].
  destruct x as [|c x]; simpl.
  - intros H. destruct (IH H) as (sep & Hin & Hne & Hs & Hl).
    exists sep. auto.
  - destruct (startsWith input (c :: x) p) eqn:E.
    + intros _. exists (c :: x). repeat split; auto; discriminate.
    + intros H. destruct (IH H) as (sep & Hin & Hne & Hs & Hl).
      exists sep. auto.
Qed.

Lemma separatorLengthAt_longest (input : str) (p : nat) (seps : list str) :
  LongestFirst seps ->
  forall sep, In sep seps -> sep <> [] -> startsWith input sep p = true ->
    length sep <= separatorLengthAt input p seps.
Proof.
  induction seps as [|x seps IH]; intros Hsorted sep Hin Hne Hs; [destruct Hin|].
  destruct Hsorted as [Hx Hsorted]. simpl.
  destruct x as [|c x]; simpl.
  - destruct Hin as [<-|Hin]; [congruence|]. apply IH; assumption.
  - destruct (startsWith input (c :: x) p) eqn:E.
    + destruct Hin as [<-|Hin]; [reflexivity|].
      rewrite List.Forall_forall in Hx. apply (Hx sep Hin).
    + destruct Hin as [<-|Hin]; [congruence|]. apply IH; assumption.
Qed.

Lemma filter_nonempty_In (sep : str) (seps : list str) :
  In sep (filter (fun s => s <> []) seps) <-> In sep seps /\ sep <> [].
Proof.
  rewrite <- !list_elem_of_In, list_elem_of_filter. tauto.
Qed.

(** X5. The separator that the contiguous branch sees at a position is the
    longest non-empty separator of the mask that occurs in the input at
    that position, and it sees none exactly when no non-empty separator
    occurs there. *)
Theorem longest_separator_found (seps : list str) (input : str) (p : nat) :
  let sepList := sortLongestFirst (filter (fun s => s <> []) seps) in
  let found := separatorLengthAt input p sepList in
  (forall sep, startsWith input sep p = true
               <-> take (length sep) (drop p input) = sep)
  /\ (forall sep, In sep seps -> sep <> [] -> startsWith input sep p = true ->
        length sep <= found)
  /\ (0 < found ->
      exists sep, In sep seps /\ sep <> [] /\ startsWith input sep p = true
                  /\ length sep = found)
  /\ (found = 0 <->
      forall sep, In sep seps -> sep <> [] -> startsWith input sep p = false).
Proof.
  intros sepList found.
  assert (Hlong : forall sep, In sep seps -> sep <> [] ->
                    startsWith input sep p = true -> length sep <= found).
  { intros sep Hin Hne Hs.
    apply separatorLengthAt_longest; auto.
    - apply sortLongestFirst_LongestFirst.
    - apply sortLongestFirst_In, filter_nonempty_In. auto. }
  assert (Hfound : 0 < found ->
      exists sep, In sep seps /\ sep <> [] /\ startsWith input sep p = true
                  /\ length sep = found).
  { intros H. destruct (separatorLengthAt_found _ _ _ H) as (sep & Hin & Hne & Hs & Hl).
    apply sortLongestFirst_In, filter_nonempty_In in Hin as [Hin _].
    exists sep. auto. }
  split; [intros sep; apply isPrefix_iff|].
  split; [exact Hlong|]. split; [exact Hfound|]. split.
  - intros H0 sep Hin Hne. destruct (startsWith input sep p) eqn:E; [|reflexivity].
    specialize (Hlong sep Hin Hne E). destruct sep; [congruence|]. simpl in Hlong. lia.
  - intros Hnone. destruct (Nat.eq_dec found 0) as [|Hpos]; [assumption|].
    destruct Hfound as (sep & Hin & Hne & Hs & _); [lia|].
    rewrite (Hnone sep Hin Hne) in Hs. discriminate Hs.
Qed.

Lemma longest_separator_found_witness :
  let seps := [js "-"; js ""; js "--"; js " - "] in
  let found :=
    separatorLengthAt (js "12--34") 2
      (sortLongestFirst (filter (fun s => s <> []) seps)) in
  length (js "-") <= found.
Proof.
  intros seps found.
  apply (proj1 (proj2 (longest_separator_found seps (js "12--34") 2)) (js "-")).
  - left. reflexivity.
  - discriminate.
  - reflexivity.
Defined.

(** ** The cursor stays in the input *)

Lemma skipSeparators_loop_bound (fuel : nat) (input : str) (seps : list str) :
  forall p, p <= length input ->
    skipSeparators_loop fuel input seps p <= length input.
Proof.
  induction fuel as [|fuel IH]; intros p Hp; simpl; [exact Hp|].
  destruct (0 <? separatorLengthAt input p seps) eqn:E; [|exact Hp].
  apply Nat.ltb_lt in E. apply IH. apply separatorLengthAt_bound, E.
Qed.

Lemma consumeSymbol_loop_bound (node : SymbolNode) (input : str) (startPos : nat)
    (seps : list str) (rem : list MaskNode) (rest : str) :
  forall o r p count,
    rest = drop p input -> p <= length input ->
    pos (consumeSymbol_loop node input startPos seps rem rest o r p count)
    <= length input.
Proof.
  induction rest as [|c rest IH]; intros o r p count Hrest Hp; simpl; [exact Hp|].
  destruct (num_ltb count (max node)); [|exact Hp].
  destruct (0 <? separatorLengthAt input p seps) eqn:E.
  { apply Nat.ltb_lt in E. simpl. apply separatorLengthAt_bound, E. }
  assert (Hlt : p < length input).
  { apply (f_equal (@length _)) in Hrest. rewrite length_drop in Hrest.
    simpl in Hrest. lia. }
  symmetry in Hrest. pose proof (drop_cons_next _ _ _ _ Hrest) as Hnext.
  destruct (matchesNode node c); [apply IH; [auto | lia]|].
  destruct (num_leb (min node) count && canStartWithChar rem c); [exact Hp|].
  apply IH; [auto | lia].
Qed.

Lemma consumeNodes_loop_bound
    (rec : MaskNode -> str -> nat -> list str -> list MaskNode -> ConsumeResult)
    (input : str) (startPos : nat) (seps : list str)
    (tailNodes : option (list MaskNode)) (nodes : list MaskNode) :
  Forall (InBounds rec input seps) nodes ->
  forall o r p, p <= length input ->
    pos (consumeNodes_loop rec input startPos seps tailNodes nodes o r p)
    <= length input.
Proof.
  induction 1 as [|n nodes Hn _ IH]; intros o r p Hp; simpl; [exact Hp|].
  assert (Hres : pos (rec n input (skipSeparators input p seps) seps
                        (lookaheadOf nodes tailNodes)) <= length input).
  { apply Hn. apply skipSeparators_loop_bound, Hp. }
  destruct (satisfied _); [apply IH, Hres | exact Hres].
Qed.

Lemma consumeGroup_loop_bound
    (rec : MaskNode -> str -> nat -> list str -> list MaskNode -> ConsumeResult)
    (input : str) (startPos : nat) (seps : list str)
    (tailNodes : list MaskNode) (alts : list (list MaskNode)) :
  Forall (Forall (InBounds rec input seps)) alts ->
  startPos <= length input ->
  forall best, pos best <= length input ->
    pos (consumeGroup_loop rec input startPos seps tailNodes alts best)
    <= length input.
Proof.
  intros Hall Hstart. induction Hall as [|alt alts Halt _ IH]; intros best Hbest;
    simpl; [exact Hbest|].
  apply IH. destruct (better _ best); [|exact Hbest].
  apply consumeNodes_loop_bound; assumption.
Qed.

Lemma consumeNode_bound (node : MaskNode) (input : str) (seps : list str) :
  InBounds consumeNode input seps node.
Proof.
  induction node as [s|alts IH] using MaskNode_ind; intros p rem Hp; simpl.
  - apply consumeSymbol_loop_bound; [reflexivity | exact Hp].
  - apply consumeGroup_loop_bound; assumption.
Qed.

Lemma consumeNodes_bound (nodes : list MaskNode) (input : str) (startPos : nat)
    (seps : list str) (tailNodes : option (list MaskNode)) :
  startPos <= length input ->
  pos (consumeNodes nodes input startPos seps tailNodes) <= length input.
Proof.
  intros Hp. apply consumeNodes_loop_bound; [|exact Hp].
  apply Forall_forall. intros n _. apply consumeNode_bound.
Qed.

Lemma consumeNodes_loop_advanced
    (rec : MaskNode -> str -> nat -> list str -> list MaskNode -> ConsumeResult)
    (input : str) (startPos : nat) (seps : list str)
    (tailNodes : option (list MaskNode)) (nodes : list MaskNode) :
  forall o r p,
    let res := consumeNodes_loop rec input startPos seps tailNodes nodes o r p in
    advanced res = (Z.of_nat (pos res) - Z.of_nat startPos)%Z.
Proof.
  induction nodes as [|n nodes IH]; intros o r p; simpl; [reflexivity|].
  destruct (satisfied _); [apply IH | reflexivity].
Qed.

(** X6. Consuming a node, or a sequence of nodes, from a position inside
    the input leaves the cursor between that position and the end of the
    input, whatever the separators and the lookahead; so does skipping
    separators. *)
Theorem cursor_stays_in_input (input : str) (startPos : nat) (seps : list str) :
  startPos <= length input ->
  (forall node remainingNodes,
     let r := consumeNode node input startPos seps remainingNodes in
     startPos <= pos r <= length input)
  /\ (forall nodes tailNodes,
        let r := consumeNodes nodes input startPos seps tailNodes in
        startPos <= pos r <= length input
        /\ advanced r = (Z.of_nat (pos r) - Z.of_nat startPos)%Z)
  /\ startPos <= skipSeparators input startPos seps <= length input.
Proof.
  intros Hp. split; [|split].
  - intros node rem r. split.
    + apply (consumeNode_recognized node input seps startPos rem).
    + apply consumeNode_bound, Hp.
  - intros nodes t r. split; [split|].
    + apply (consumeNodes_recognized nodes input startPos seps t).
    + apply consumeNodes_bound, Hp.
    + apply consumeNodes_loop_advanced.
  - split; [apply skipSeparators_ge | apply skipSeparators_loop_bound, Hp].
Qed.

Lemma cursor_stays_in_input_witness :
  (forall node remainingNodes,
     let r := consumeNode node (js "12-34") 2 [js "-"] remainingNodes in
     2 <= pos r <= length (js "12-34"))
  /\ (forall nodes tailNodes,
        let r := consumeNodes nodes (js "12-34") 2 [js "-"] tailNodes in
        2 <= pos r <= length (js "12-34")
        /\ advanced r = (Z.of_nat (pos r) - Z.of_nat 2)%Z)
  /\ 2 <= skipSeparators (js "12-34") 2 [js "-"] <= length (js "12-34").
Proof.
  apply (cursor_stays_in_input (js "12-34") 2 [js "-"]). simpl. lia.
Defined.

(** ** The recognized text as a whole *)

Lemma drop_slice (input : str) (a b : nat) :
  a <= b -> drop a input = slice input a b ++ drop b input.
Proof.
  intros Hab. unfold slice.
  replace (drop b input) with (drop (b - a) (drop a input)).
  - symmetry. apply take_drop.
  - rewrite drop_drop. f_equal. lia.
Qed.

Lemma contiguousFragments_recognized (input : str) (sepList : list str)
    (frags : list (list MaskNode)) :
  forall p,
    concat (map raw (contiguousFragments frags input sepList p))
    `sublist_of` drop p input.
Proof.
  induction frags as [|f frags IH]; intros p; simpl; [apply sublist_nil_l|].
  destruct (consumeNodes_recognized f input p sepList (head frags))
    as (_ & Hpos & Hsub).
  rewrite (drop_slice input p _ Hpos).
  apply sublist_app; [exact Hsub|].
  destruct (satisfied _); [apply IH | apply sublist_nil_l].
Qed.

Lemma splitWhiteSpace_concat (s : str) :
  forall inRun current,
    concat (splitWhiteSpace inRun current s)
    = current ++ List.filter (fun c => negb (isWhiteSpace c)) s.
Proof.
  induction s as [|c s IH]; intros inRun current; simpl.
  - rewrite !app_nil_r. reflexivity.
  - destruct (isWhiteSpace c); simpl.
    + destruct inRun; [apply IH|]. simpl. rewrite IH. reflexivity.
    + rewrite IH, <- app_assoc. reflexivity.
Qed.

Lemma concat_filter_nonempty (l : list str) :
  concat (filter (fun w => w <> []) l) = concat l.
Proof.
  induction l as [|w l IH]; [reflexivity|].
  unfold str in *. rewrite filter_cons. case_decide as Hw; cbn [concat].
  - rewrite IH. reflexivity.
  - rewrite IH. destruct w; [reflexivity | congruence].
Qed.

Lemma words_concat (input : str) :
  concat (words input) = List.filter (fun c => negb (isWhiteSpace c)) input.
Proof.
  unfold words. rewrite concat_filter_nonempty, splitWhiteSpace_concat. reflexivity.
Qed.

Lemma filter_sublist {A} (f : A -> bool) (l : list A) : List.filter f l `sublist_of` l.
Proof.
  induction l as [|x l IH]; simpl; [constructor|].
  destruct (f x); [apply sublist_skip | apply sublist_cons]; exact IH.
Qed.

Lemma concat_drop_nth (parts : list str) (i : nat) :
  concat (drop i parts) = nth i parts [] ++ concat (drop (S i) parts).
Proof.
  destruct (parts !! i) as [w|] eqn:E.
  - rewrite (drop_S _ _ _ E), (nth_lookup_Some _ _ _ _ E). reflexivity.
  - apply lookup_ge_None in E.
    rewrite !drop_ge by lia. rewrite nth_overflow by lia. reflexivity.
Qed.

Lemma manualFragments_recognized (parts : list str) (frags : list (list MaskNode)) :
  forall i,
    concat (map raw (manualFragments frags parts i))
    `sublist_of` concat (drop i parts).
Proof.
  induction frags as [|f frags IH]; intros i; simpl; [apply sublist_nil_l|].
  destruct (consumeNodes_recognized f (nth i parts []) 0 [] None) as (_ & _ & Hsub).
  rewrite concat_drop_nth.
  apply sublist_app; [eapply sublist_slice_input, Hsub|].
  destruct (satisfied _); [apply IH | apply sublist_nil_l].
Qed.

(** X7. In both branches the recognized text that [formatValue] returns
    beside the masked text is a subsequence of the raw input: characters of
    the input, in the order of the input, none used twice. *)
Theorem recognized_is_subsequence (parsed : ParsedMask) (rawValue : JsValue) :
  recognized (formatValue parsed rawValue) `sublist_of` inputOf rawValue
  /\ length (recognized (formatValue parsed rawValue)) <= length (inputOf rawValue).
Proof.
  assert (H : recognized (formatValue parsed rawValue) `sublist_of` inputOf rawValue).
  { unfold formatValue. destruct (manualSpaceMask parsed); simpl.
    - etransitivity; [apply manualFragments_recognized|].
      rewrite drop_0, words_concat. apply filter_sublist.
    - etransitivity; [apply contiguousFragments_recognized|].
      rewrite drop_0. reflexivity. }
  split; [exact H | apply sublist_length, H].
Qed.

(** ** The words of the input *)

Lemma splitWhiteSpace_word (w : str) :
  NoWhiteSpace w -> w <> [] ->
  forall inRun current s,
    splitWhiteSpace inRun current (w ++ s) = splitWhiteSpace false (current ++ w) s.
Proof.
  induction 1 as [|c w Hc Hw IH]; intros Hne inRun current s;
    [exfalso; apply Hne; reflexivity|].
  simpl. rewrite Hc. destruct w as [|d w].
  - reflexivity.
  - rewrite IH by discriminate. rewrite <- app_assoc. reflexivity.
Qed.

Lemma splitWhiteSpace_join (ws : list str) :
  Forall (fun w => w <> [] /\ NoWhiteSpace w) ws -> ws <> [] ->
  forall inRun, splitWhiteSpace inRun [] (join (js " ") ws) = ws.
Proof.
  induction 1 as [|w ws [Hne Hw] Hall IH]; intros Hws inRun;
    [exfalso; apply Hws; reflexivity|].
  destruct ws as [|v ws].
  - cbn [join]. rewrite <- (app_nil_r w) at 1.
    rewrite splitWhiteSpace_word by assumption. reflexivity.
  - change (join (js " ") (w :: v :: ws))
      with (w ++ js " " ++ join (js " ") (v :: ws)).
    rewrite splitWhiteSpace_word by assumption.
    cbn [app js list_ascii_of_string map splitWhiteSpace].
    change (isWhiteSpace (N_of_ascii " ")) with true. cbn iota.
    rewrite IH by discriminate. reflexivity.
Qed.

(** X8. The words the manual-space branch cuts the input into are not
    empty and hold no white space; put end to end they are the input
    without its white space; and words joined by single spaces are cut
    into the same words again. *)
Theorem words_of_input (input : str) :
  Forall (fun w => w <> [] /\ NoWhiteSpace w) (words input)
  /\ concat (words input) = List.filter (fun c => negb (isWhiteSpace c)) input
  /\ (forall ws, Forall (fun w => w <> [] /\ NoWhiteSpace w) ws ->
        words (join (js " ") ws) = ws).
Proof.
  split; [|split].
  - apply List.Forall_forall. intros w Hw. split.
    + unfold words in Hw. apply list_elem_of_In, list_elem_of_filter in Hw as [Hw _].
      exact Hw.
    + apply words_spec in Hw as [_ Hw]. exact Hw.
  - apply words_concat.
  - intros ws Hall. unfold words. destruct ws as [|w ws]; [reflexivity|].
    rewrite splitWhiteSpace_join by (auto; discriminate).
    generalize (w :: ws) Hall. clear. intros l Hall.
    induction Hall as [|x l [Hx _] _ IH]; [reflexivity|].
    unfold str in *. rewrite filter_cons_True by exact Hx. rewrite IH. reflexivity.
Qed.

Lemma words_of_input_witness :
  words (join (js " ") [js "John"; js "Smith"]) = [js "John"; js "Smith"].
Proof.
  apply (proj2 (proj2 (words_of_input []))).
  repeat constructor; discriminate.
Defined.

(** ** The length of the masked text *)

Lemma parseMask_length (pattern : str) (parsed : ParsedMask) :
  parseMask pattern = Ok parsed ->
  length (fragments parsed) = S (length (separators parsed)).
Proof.
  intros Hp. destruct (parseMask_parts pattern parsed Hp) as (raws & Hs & Hall).
  apply splitBySeparators_loop_text in Hs as [_ H]; [|reflexivity].
  rewrite <- (Forall2_length _ _ _ Hall). exact H.
Qed.

Lemma joinWithSeparators_length (outs seps : list str) :
  length (joinWithSeparators outs seps)
  <= length (concat outs) + length (concat seps).
Proof.
  revert seps. induction outs as [|part outs IH]; intros seps; [simpl; lia|].
  cbn [joinWithSeparators concat]. destruct (isEmpty part); [simpl; lia|].
  specialize (IH (tl seps)).
  set (J := joinWithSeparators outs (tl seps)) in *.
  assert (Htl : length (concat (tl seps)) <= length (concat seps)).
  { destruct seps; simpl; [lia|]. rewrite length_app. lia. }
  assert (Hsep : length (match seps, outs with
                         | sep :: _, nextPart :: _ =>
                             if isEmpty nextPart then [] else sep
                         | _, _ => []
                         end) + length (concat (tl seps))
                 <= length (concat seps)).
  { destruct seps as [|sep seps]; [simpl; lia|].
    cbn [tl concat]. rewrite length_app.
    destruct outs as [|nextPart outs]; [simpl; lia|].
    destruct (isEmpty nextPart); simpl; lia. }
  rewrite !length_app. lia.
Qed.

Lemma join_length (sep : str) (parts : list str) :
  length (join sep parts)
  <= length (concat parts) + length sep * (length parts - 1).
Proof.
  induction parts as [|x parts IH]; [simpl; lia|].
  destruct parts as [|y parts]; [simpl; rewrite app_nil_r; lia|].
  change (join sep (x :: y :: parts)) with (x ++ sep ++ join sep (y :: parts)).
  change (concat (x :: y :: parts)) with (x ++ concat (y :: parts)).
  rewrite !length_app. simpl length in *. nia.
Qed.

Lemma trimEnd_length_le (s : str) : length (trimEnd s) <= length s.
Proof.
  induction s as [|c s IH]; simpl; [lia|].
  destruct (trimEnd s); [destruct (isWhiteSpace c)|]; simpl in *; lia.
Qed.

Lemma replaceTrailingWhiteSpace_length (s : str) :
  length (replaceTrailingWhiteSpace s) <= length s.
Proof.
  unfold replaceTrailingWhiteSpace.
  destruct (length (trimEnd s) <? length s) eqn:E; [|lia].
  apply Nat.ltb_lt in E. rewrite length_app. simpl. lia.
Qed.

Lemma concat_out_raw (results : list ConsumeResult) :
  Forall (fun r => out r = raw r) results ->
  concat (map out results) = concat (map raw results).
Proof.
  induction 1 as [|r results Hr _ IH]; simpl; [reflexivity|].
  rewrite Hr, IH. reflexivity.
Qed.

Lemma spaces_length (seps : list str) :
  forallb (fun s => str_eqb s (js " ")) seps = true ->
  length (concat seps) = length seps.
Proof.
  induction seps as [|s seps IH]; simpl; [reflexivity|].
  intros H. apply andb_true_iff in H as [Hs H]. apply str_eqb_eq in Hs. subst s.
  rewrite <- (IH H). reflexivity.
Qed.

(** X9. The masked text of a compiled mask is never longer than the raw
    input and all the separators of the mask together. *)
Theorem masked_length_bound (pattern : str) (parsed : ParsedMask) (rawValue : JsValue) :
  parseMask pattern = Ok parsed ->
  length (format parsed rawValue)
  <= length (inputOf rawValue) + length (concat (separators parsed)).
Proof.
  intros Hp. pose proof (parseMask_length pattern parsed Hp) as Hlen.
  unfold format, formatValue. destruct (manualSpaceMask parsed) eqn:Hmode; simpl.
  - set (input := inputOf rawValue).
    set (results := manualFragments (fragments parsed) (words input) 0).
    assert (Hjoined : length (join (js " ") (map out results))
                      <= length input + length (concat (separators parsed))).
    { etransitivity; [apply join_length|].
      rewrite concat_out_raw.
      2:{ apply List.Forall_forall. intros r Hr.
          apply (manualFragments_outputs input _ _ _ Hr). }
      pose proof (sublist_length _ _ (manualFragments_recognized (words input)
                                        (fragments parsed) 0)) as Hrec.
      fold results in Hrec. rewrite drop_0, words_concat in Hrec.
      pose proof (sublist_length _ _ (filter_sublist
                    (fun c => negb (isWhiteSpace c)) input)) as Hfil.
      destruct (manualFragments_stops (fragments parsed) (words input) 0)
        as (Hshort & _). fold results in Hshort.
      unfold manualSpaceMask in Hmode.
      apply andb_true_iff in Hmode as [Hsp _].
      apply andb_true_iff in Hsp as [_ Hsp].
      rewrite (spaces_length _ Hsp), length_map. simpl length. lia. }
    destruct (endsInWhiteSpace input).
    + etransitivity; [apply replaceTrailingWhiteSpace_length | exact Hjoined].
    + etransitivity; [apply trimEnd_length_le | exact Hjoined].
  - etransitivity; [apply joinWithSeparators_length|].
    apply Nat.add_le_mono_r.
    rewrite concat_out_raw.
    2:{ apply List.Forall_forall. intros r Hr.
        apply (contiguousFragments_outputs _ _ _ _ _ Hr). }
    pose proof (sublist_length _ _ (contiguousFragments_recognized
                  (inputOf rawValue)
                  (sortLongestFirst (filter (fun s => s <> []) (separators parsed)))
                  (fragments parsed) 0)) as Hrec.
    rewrite drop_0 in Hrec. exact Hrec.
Qed.

Lemma masked_length_bound_witness :
  let parsed := {| fragments := [[digitNode]; [digitNode]; [digitNode]];
                   separators := [js "-"; js "-"] |} in
  length (format parsed (JsString (js "1x2y3z")))
  <= length (js "1x2y3z") + length (concat (separators parsed)).
Proof.
  intros parsed.
  apply (masked_length_bound (js "0:-:0:-:0") parsed (JsString (js "1x2y3z"))).
  vm_compute. reflexivity.
Defined.

(** ** Every recognized character is accepted by a symbol *)

Lemma consumeNodes_loop_all (Q : char -> Prop)
    (rec : MaskNode -> str -> nat -> list str -> list MaskNode -> ConsumeResult)
    (input : str) (startPos : nat) (seps : list str)
    (tailNodes : option (list MaskNode)) (nodes : list MaskNode) :
  Forall (fun n => forall p rem, Forall Q (raw (rec n input p seps rem))) nodes ->
  forall o r p, Forall Q r ->
    Forall Q (raw (consumeNodes_loop rec input startPos seps tailNodes nodes o r p)).
Proof.
  induction 1 as [|n nodes Hn _ IH]; intros o r p Hr; simpl; [exact Hr|].
  assert (Hnew : Forall Q (r ++ raw (rec n input (skipSeparators input p seps) seps
                                       (lookaheadOf nodes tailNodes)))).
  { apply Forall_app. split; [exact Hr | apply Hn]. }
  destruct (satisfied _); [apply IH, Hnew | exact Hnew].
Qed.

Lemma consumeGroup_loop_all (Q : char -> Prop)
    (rec : MaskNode -> str -> nat -> list str -> list MaskNode -> ConsumeResult)
    (input : str) (startPos : nat) (seps : list str)
    (tailNodes : list MaskNode) (alts : list (list MaskNode)) :
  Forall (Forall (fun n => forall p rem, Forall Q (raw (rec n input p seps rem)))) alts ->
  forall best, Forall Q (raw best) ->
    Forall Q (raw (consumeGroup_loop rec input startPos seps tailNodes alts best)).
Proof.
  induction 1 as [|alt alts Halt _ IH]; intros best Hbest; simpl; [exact Hbest|].
  apply IH. destruct (better _ best); [|exact Hbest].
  apply consumeNodes_loop_all; [exact Halt | constructor].
Qed.

Lemma consumeNode_accepts (node : MaskNode) :
  forall Q : char -> Prop,
    (forall s, In (SymbolN s) (nodesOf node) ->
               forall c, matchesNode s c = true -> Q c) ->
    forall input seps p rem, Forall Q (raw (consumeNode node input p seps rem)).
Proof.
  induction node as [s|alts IH] using MaskNode_ind; intros Q HQ input seps p rem.
  - destruct (consumeSymbol_spec s input p seps rem) as (_ & Hall & _).
    eapply Forall_impl; [exact Hall|]. apply HQ. left. reflexivity.
  - simpl. apply consumeGroup_loop_all; [|constructor].
    apply List.Forall_forall. intros alt Halt.
    apply List.Forall_forall. intros x Hx p' rem'.
    rewrite List.Forall_forall in IH. specialize (IH alt Halt).
    rewrite List.Forall_forall in IH. apply (IH x Hx).
    intros s Hs. apply HQ. right.
    apply in_flat_map. exists alt. split; [exact Halt|].
    apply in_flat_map. exists x. split; assumption.
Qed.

Lemma consumeNodes_accepts (Q : char -> Prop) (nodes : list MaskNode) :
  (forall s, In (SymbolN s) (flat_map nodesOf nodes) ->
             forall c, matchesNode s c = true -> Q c) ->
  forall input p seps t, Forall Q (raw (consumeNodes nodes input p seps t)).
Proof.
  intros HQ input p seps t. apply consumeNodes_loop_all; [|constructor].
  apply List.Forall_forall. intros n Hn p' rem'. apply consumeNode_accepts.
  intros s Hs. apply HQ. apply in_flat_map. exists n. split; assumption.
Qed.

Lemma contiguousFragments_accepts (Q : char -> Prop) (input : str)
    (sepList : list str) (frags : list (list MaskNode)) :
  (forall s, In (SymbolN s) (flat_map (flat_map nodesOf) frags) ->
             forall c, matchesNode s c = true -> Q c) ->
  forall p r, In r (contiguousFragments frags input sepList p) -> Forall Q (raw r).
Proof.
  induction frags as [|f frags IH]; intros HQ p r Hin; simpl in Hin; [destruct Hin|].
  destruct Hin as [<-|Hin].
  - apply consumeNodes_accepts. intros s Hs. apply HQ. simpl.
    apply in_or_app. left. exact Hs.
  - destruct (satisfied _); [|destruct Hin]. apply (IH) with (p := pos
      (consumeNodes f input p sepList (head frags))); [|exact Hin].
    intros s Hs. apply HQ. simpl. apply in_or_app. right. exact Hs.
Qed.

Lemma manualFragments_accepts (Q : char -> Prop) (parts : list str)
    (frags : list (list MaskNode)) :
  (forall s, In (SymbolN s) (flat_map (flat_map nodesOf) frags) ->
             forall c, matchesNode s c = true -> Q c) ->
  forall i r, In r (manualFragments frags parts i) -> Forall Q (raw r).
Proof.
  induction frags as [|f frags IH]; intros HQ i r Hin; simpl in Hin; [destruct Hin|].
  destruct Hin as [<-|Hin].
  - apply consumeNodes_accepts. intros s Hs. apply HQ. simpl.
    apply in_or_app. left. exact Hs.
  - destruct (satisfied _); [|destruct Hin]. apply (IH) with (i := S i); [|exact Hin].
    intros s Hs. apply HQ. simpl. apply in_or_app. right. exact Hs.
Qed.

(** X10. Every character of the recognized text is accepted by a symbol
    of the mask, and every character of the masked text is accepted by a
    symbol of the mask or occurs in one of its separators.  So a mask whose
    symbols are all digit symbols recognizes digits only. *)
Theorem recognized_characters_accepted (parsed : ParsedMask) (rawValue : JsValue) :
  let accepted c :=
    exists s, In (SymbolN s) (allNodes parsed) /\ matchesNode s c = true in
  Forall accepted (recognized (formatValue parsed rawValue))
  /\ (forall c, In c (format parsed rawValue) ->
        accepted c \/ exists sep, In sep (separators parsed) /\ In c sep)
  /\ ((forall s, In (SymbolN s) (allNodes parsed) -> kind s = Kind0) ->
      Forall (fun c => DIGIT_RE c = true) (recognized (formatValue parsed rawValue))).
Proof.
  intros accepted.
  assert (HQ : forall s, In (SymbolN s) (flat_map (flat_map nodesOf) (fragments parsed)) ->
                         forall c, matchesNode s c = true -> accepted c).
  { intros s Hs c Hc. exists s. split; assumption. }
  assert (Hres : exists results,
             (forall r, In r results -> out r = raw r /\ Forall accepted (raw r))
             /\ recognized (formatValue parsed rawValue) = concat (map raw results)
             /\ (forall c, In c (format parsed rawValue) ->
                   (exists r, In r results /\ In c (out r))
                   \/ exists sep, In sep (separators parsed) /\ In c sep)).
  { unfold format, formatValue. destruct (manualSpaceMask parsed) eqn:Hmode; simpl.
    - eexists. split; [|split; [reflexivity|]].
      + intros r Hr. split.
        * apply (manualFragments_outputs (inputOf rawValue) _ _ _ Hr).
        * apply (manualFragments_accepts accepted _ _ HQ _ _ Hr).
      + intros c Hc.
        assert (Hj : In c (join (js " ") (map out
                       (manualFragments (fragments parsed)
                          (words (inputOf rawValue)) 0))) \/ In c (js " ")).
        { destruct (endsInWhiteSpace (inputOf rawValue)).
          - apply replaceTrailingWhiteSpace_chars, Hc.
          - left. apply trimEnd_chars, Hc. }
        destruct Hj as [Hj|Hj].
        * apply join_chars in Hj as [Hj|(part & Hpart & Hj)].
          -- right. exists (js " "). split; [apply manualSpaceMask_space, Hmode | exact Hj].
          -- left. apply in_map_iff in Hpart as (r & <- & Hr). exists r. auto.
        * right. exists (js " "). split; [apply manualSpaceMask_space, Hmode | exact Hj].
    - eexists. split; [|split; [reflexivity|]].
      + intros r Hr. split.
        * apply (contiguousFragments_outputs _ _ _ _ _ Hr).
        * apply (contiguousFragments_accepts accepted _ _ _ HQ _ _ Hr).
      + intros c Hc. apply joinWithSeparators_chars in Hc as [(part & Hpart & Hc)|Hc].
        * left. apply in_map_iff in Hpart as (r & <- & Hr). exists r. auto.
        * right. exact Hc. }
  destruct Hres as (results & Hall & Hrec & Hmasked).
  assert (Hacc : Forall accepted (recognized (formatValue parsed rawValue))).
  { rewrite Hrec. apply List.Forall_forall. intros c Hc.
    apply in_concat in Hc as (x & Hx & Hc).
    apply in_map_iff in Hx as (r & <- & Hr).
    destruct (Hall r Hr) as [_ Hq]. rewrite List.Forall_forall in Hq. apply Hq, Hc. }
  split; [exact Hacc|]. split.
  - intros c Hc. destruct (Hmasked c Hc) as [(r & Hr & Hin)|Hsep]; [|right; exact Hsep].
    left. destruct (Hall r Hr) as [Ho Hq]. rewrite Ho in Hin.
    rewrite List.Forall_forall in Hq. apply Hq, Hin.
  - intros Hdigits. eapply Forall_impl; [exact Hacc|].
    intros c (s & Hs & Hm). unfold matchesNode in Hm.
    rewrite (Hdigits s Hs) in Hm. exact Hm.
Qed.

Lemma recognized_characters_accepted_witness :
  Forall (fun c => DIGIT_RE c = true)
    (recognized (formatValue
       {| fragments := [[digitNode]; [GroupN [[digitNode; digitNode]; [digitNode]]]];
          separators := [js "/"] |}
       (JsString (js "a1/b23")))).
Proof.
  apply (proj2 (proj2 (recognized_characters_accepted _ _))).
  intros s Hs. cbv [allNodes fragments flat_map nodesOf app digitNode] in Hs.
  repeat (destruct Hs as [Hs|Hs];
          [first [discriminate Hs | injection Hs as <-; reflexivity]|]).
  destruct Hs.
Defined.

(** ** The run of one symbol *)

Lemma consumeSymbol_loop_max (node : SymbolNode) (input : str) (startPos : nat)
    (seps : list str) (rem : list MaskNode) (rest : str) :
  forall o r p count,
    count = N.of_nat (length r) -> num_le (Fin count) (max node) ->
    num_le (Fin (N.of_nat (length (raw
      (consumeSymbol_loop node input startPos seps rem rest o r p count)))))
      (max node).
Proof.
  induction rest as [|c rest IH]; intros o r p count -> Hle;
    cbn [consumeSymbol_loop]; [exact Hle|].
  destruct (num_ltb (N.of_nat (length r)) (max node)) eqn:Elt; [|exact Hle].
  destruct (0 <? separatorLengthAt input p seps); [exact Hle|].
  destruct (matchesNode node c).
  - apply IH.
    + rewrite length_app. simpl. lia.
    + destruct (max node) as [m|]; simpl in *; [|exact I].
      apply N.ltb_lt in Elt. lia.
  - destruct (num_leb (min node) (N.of_nat (length r)) && canStartWithChar rem c);
      [exact Hle | apply IH; [reflexivity | exact Hle]].
Qed.

Lemma consumeSymbol_loop_run (node : SymbolNode) (input : str) (startPos : nat)
    (seps : list str) (rem : list MaskNode) (k : nat) :
  forall o r p count,
    length (take k (drop p input)) = k ->
    Forall (fun c => matchesNode node c = true) (take k (drop p input)) ->
    (forall j, j < k -> separatorLengthAt input (p + j) seps = 0) ->
    (max node = Fin (count + N.of_nat k)
     \/ (p + k = length input /\ num_le (Fin (count + N.of_nat k)) (max node))) ->
    consumeSymbol_loop node input startPos seps rem (drop p input) o r p count
    = {| out := o ++ take k (drop p input); raw := r ++ take k (drop p input);
         pos := p + k; satisfied := num_leb (min node) (count + N.of_nat k);
         advanced := Z.of_nat (p + k) - Z.of_nat startPos |}.
Proof.
  induction k as [|k IH]; intros o r p count Hlen Hall Hsep Hstop.
  - rewrite take_0, !app_nil_r, Nat.add_0_r, N.add_0_r in *.
    destruct (drop p input) as [|c rest] eqn:E; [reflexivity|].
    simpl. destruct Hstop as [Hmax|[Hend _]].
    + rewrite Hmax. simpl. rewrite N.ltb_irrefl. reflexivity.
    + apply (f_equal (@length _)) in E. rewrite length_drop in E. simpl in E. lia.
  - destruct (drop p input) as [|c rest] eqn:E; [discriminate Hlen|].
    pose proof (drop_cons_next _ _ _ _ E) as Hnext.
    simpl in Hlen, Hall. injection Hlen as Hlen.
    apply Forall_cons in Hall as [Hc Hall].
    cbn [consumeSymbol_loop].
    assert (Hlt : num_ltb count (max node) = true).
    { destruct Hstop as [Hmax|[_ Hle]].
      - rewrite Hmax. simpl. apply N.ltb_lt. lia.
      - destruct (max node) as [m|]; simpl in *; [apply N.ltb_lt; lia | reflexivity]. }
    rewrite Hlt. rewrite <- (Nat.add_0_r p) at 1. rewrite (Hsep 0) by lia.
    cbn [Nat.ltb Nat.leb]. rewrite Hc, <- Hnext.
    rewrite (IH (o ++ [c]) (r ++ [c]) (p + 1) (count + 1)%N).
    + rewrite Hnext. cbn [take]. rewrite <- !app_assoc.
      replace (p + 1 + k) with (p + S k) by lia.
      replace (count + 1 + N.of_nat k)%N with (count + N.of_nat (S k))%N by lia.
      reflexivity.
    + rewrite Hnext. exact Hlen.
    + rewrite Hnext. exact Hall.
    + intros j Hj. replace (p + 1 + j) with (p + S j) by lia. apply Hsep. lia.
    + replace (count + 1 + N.of_nat k)%N with (count + N.of_nat (S k))%N by lia.
      replace (p + 1 + k) with (p + S k) by lia. exact Hstop.
Qed.

(** X11. A symbol never consumes more characters than its max.  When the
    input holds at the cursor a run of [k] characters that match the
    symbol, with no separator starting inside the run, and the run ends
    where the symbol must stop ([k] is its max, or the input ends there and
    [k] does not exceed the max), the symbol consumes exactly that run: it
    emits it, moves the cursor by [k], and is satisfied when [k] reaches
    its min. *)
Theorem consumeSymbol_run (s : SymbolNode) (input : str) (startPos : nat)
    (seps : list str) (remainingNodes : list MaskNode) :
  num_le (Fin (N.of_nat (length (raw
    (consumeSymbol s input startPos seps remainingNodes))))) (max s)
  /\ (forall k,
        let run := take k (drop startPos input) in
        length run = k ->
        Forall (fun c => matchesNode s c = true) run ->
        (forall j, j < k -> separatorLengthAt input (startPos + j) seps = 0) ->
        (max s = Fin (N.of_nat k)
         \/ (startPos + k = length input /\ num_le (Fin (N.of_nat k)) (max s))) ->
        consumeSymbol s input startPos seps remainingNodes
        = {| out := run; raw := run; pos := startPos + k;
             satisfied := num_leb (min s) (N.of_nat k);
             advanced := Z.of_nat k |}).
Proof.
  split.
  - apply consumeSymbol_loop_max; [reflexivity|].
    destruct (max s); simpl; [lia | exact I].
  - intros k run Hlen Hall Hsep Hstop. unfold consumeSymbol.
    rewrite (consumeSymbol_loop_run s input startPos seps remainingNodes k);
      try assumption.
    f_equal. lia.
Qed.

Lemma consumeSymbol_run_witness :
  let s := {| kind := Kind0; value := None; min := Fin 3; max := Fin 3 |} in
  consumeSymbol s (js "12345") 1 [js "-"] []
  = {| out := js "234"; raw := js "234"; pos := 1 + 3;
       satisfied := num_leb (min s) (N.of_nat 3); advanced := Z.of_nat 3 |}.
Proof.
  intros s.
  apply (proj2 (consumeSymbol_run s (js "12345") 1 [js "-"] []) 3).
  - reflexivity.
  - repeat constructor.
  - intros j Hj. destruct j as [|[|[|j]]]; try reflexivity. lia.
  - left. reflexivity.
Defined.

(** ** A character kept for the next node is consumed by it *)

Lemma consumeNodes_loop_raw_length
    (rec : MaskNode -> str -> nat -> list str -> list MaskNode -> ConsumeResult)
    (input : str) (startPos : nat) (seps : list str)
    (tailNodes : option (list MaskNode)) (nodes : list MaskNode) :
  forall o r p,
    length r
    <= length (raw (consumeNodes_loop rec input startPos seps tailNodes nodes o r p)).
Proof.
  induction nodes as [|n nodes IH]; intros o r p; simpl; [lia|].
  destruct (satisfied _).
  - etransitivity; [|apply IH]. rewrite length_app. lia.
  - simpl. rewrite length_app. lia.
Qed.

Lemma skipSeparators_none (input : str) (p : nat) (seps : list str) :
  separatorLengthAt input p seps = 0 -> skipSeparators input p seps = p.
Proof. intros H. rewrite skipSeparators_eq, H. reflexivity. Qed.

Lemma canStartNode_consumes (node : MaskNode) :
  WellFormed node ->
  forall c input p seps rem rest,
    canStartNode node c = true ->
    drop p input = c :: rest ->
    separatorLengthAt input p seps = 0 ->
    1 <= length (raw (consumeNode node input p seps rem)).
Proof.
  induction node as [s|alts IH] using MaskNode_ind;
    intros Hwf c input p seps rem rest Hcan Hdrop Hsep.
  - inversion Hwf as [s' Hmin Hmax|]; subst. simpl in Hcan |- *.
    unfold consumeSymbol. rewrite Hdrop. cbn [consumeSymbol_loop].
    assert (Hlt : num_ltb 0 (max s) = true).
    { destruct Hmax as [->| ->]; [|reflexivity].
      destruct (min s); simpl in *; [apply N.ltb_lt; lia | reflexivity]. }
    rewrite Hlt, Hsep, Hcan. cbn [Nat.ltb Nat.leb].
    destruct (consumeSymbol_loop_spec s input p seps rem rest ([] ++ [c]) ([] ++ [c])
                (p + 1) (0 + 1)%N) as (more & _ & Hr & _).
    { symmetry. eapply drop_cons_next, Hdrop. }
    cbn zeta in Hr. rewrite Hr, length_app. simpl. lia.
  - inversion Hwf as [|alts' Hne Halts]; subst. simpl in Hcan.
    apply existsb_exists in Hcan as (alt & Halt & Hcan).
    destruct alt as [|first remaining]; [discriminate Hcan|].
    rewrite List.Forall_forall in IH, Halts.
    specialize (IH _ Halt). destruct (Halts _ Halt) as [_ Hwfalt].
    apply Forall_cons in IH as [IHfirst _].
    apply Forall_cons in Hwfalt as [Hwffirst _].
    assert (Hcand : 1 <= length (raw (consumeNodesWith consumeNode
                       (first :: remaining) input p seps (Some rem)))).
    { unfold consumeNodesWith. cbn [consumeNodes_loop].
      rewrite (skipSeparators_none input p seps Hsep).
      specialize (IHfirst Hwffirst c input p seps
                    (lookaheadOf remaining (Some rem)) rest Hcan Hdrop Hsep).
      destruct (satisfied (consumeNode first input p seps
                             (lookaheadOf remaining (Some rem)))).
      - etransitivity; [|apply consumeNodes_loop_raw_length]. simpl. exact IHfirst.
      - simpl. exact IHfirst. }
    pose proof (consumeGroup_loop_best consumeNode input p seps rem alts
                  (noMatch p) _ Halt) as Hbest.
    apply not_true_iff_false in Hbest. rewrite better_iff in Hbest.
    change (consumeNode (GroupN alts) input p seps rem)
      with (consumeGroup_loop consumeNode input p seps rem alts (noMatch p)).
    lia.
Qed.

(** X12. The lookahead rule is sound for compiled masks: when
    [canStartWithChar] says that the next nodes can start with the
    character at the cursor, and no separator starts there, consuming those
    nodes from the cursor recognizes at least one character. *)
Theorem lookahead_character_is_consumed (nodes : list MaskNode) (c : char)
    (input : str) (p : nat) (seps : list str) (tailNodes : option (list MaskNode)) :
  Forall WellFormed nodes ->
  canStartWithChar nodes c = true ->
  input !! p = Some c ->
  separatorLengthAt input p seps = 0 ->
  1 <= length (raw (consumeNodes nodes input p seps tailNodes)).
Proof.
  intros Hwf Hcan Hc Hsep.
  destruct nodes as [|first remaining]; [discriminate Hcan|].
  apply Forall_cons in Hwf as [Hwf _]. simpl in Hcan.
  unfold consumeNodes, consumeNodesWith. cbn [consumeNodes_loop].
  rewrite (skipSeparators_none input p seps Hsep).
  pose proof (canStartNode_consumes first Hwf c input p seps
                (lookaheadOf remaining tailNodes) (drop (S p) input) Hcan
                (drop_S _ _ _ Hc) Hsep) as H.
  destruct (satisfied _).
  - etransitivity; [|apply consumeNodes_loop_raw_length]. simpl. exact H.
  - simpl. exact H.
Qed.

Lemma lookahead_character_is_consumed_witness :
  1 <= length (raw (consumeNodes
                      [GroupN [[letterNode]; [digitNode; digitNode]]; letterNode]
                      (js "x7y") 1 [js "-"] None)).
Proof.
  apply (lookahead_character_is_consumed _ (ch "7")).
  - repeat constructor; try discriminate; simpl; auto; try lia.
  - reflexivity.
  - reflexivity.
  - reflexivity.
Defined.

(** ** The result of a group *)

Lemma satisfied_recognizes (node : MaskNode) :
  WellFormed node ->
  forall input p seps rem,
    satisfied (consumeNode node input p seps rem) = true ->
    1 <= length (raw (consumeNode node input p seps rem)).
Proof.
  induction node as [s|alts IH] using MaskNode_ind; intros Hwf input p seps rem Hsat.
  - inversion Hwf as [s' Hmin Hmax|]; subst. cbn [consumeNode] in *.
    destruct (consumeSymbol_spec s input p seps rem) as (_ & _ & Hs).
    rewrite Hs in Hsat. destruct (min s) as [m|]; simpl in *; [|discriminate].
    apply N.leb_le in Hsat. lia.
  - inversion Hwf as [|alts' Hne Halts]; subst. cbn [consumeNode] in *.
    unfold consumeGroupWith in *.
    destruct (consumeGroup_loop_from consumeNode input p seps rem alts (noMatch p))
      as [Hseed|Hin].
    + rewrite Hseed in Hsat. discriminate Hsat.
    + apply in_map_iff in Hin as (alt & Heq & Halt).
      rewrite <- Heq in *. clear Heq.
      rewrite List.Forall_forall in IH, Halts.
      specialize (IH alt Halt). destruct (Halts alt Halt) as [Hane Hawf].
      destruct alt as [|first remaining]; [congruence|].
      inversion IH as [|? ? IHfirst _]; subst.
      inversion Hawf as [|? ? Hfirst _]; subst.
      unfold consumeNodesWith in *. cbn [consumeNodes_loop] in *. cbv zeta in *.
      destruct (satisfied (consumeNode first input (skipSeparators input p seps) seps
                             (lookaheadOf remaining (Some rem)))) eqn:Hs;
        [|discriminate Hsat].
      specialize (IHfirst Hfirst _ _ _ _ Hs).
      etransitivity; [|apply consumeNodes_loop_raw_length].
      rewrite length_app. cbn [length]. lia.
Qed.

Lemma consumeGroup_loop_unbeaten
    (rec : MaskNode -> str -> nat -> list str -> list MaskNode -> ConsumeResult)
    (input : str) (startPos : nat) (seps : list str) (tailNodes : list MaskNode)
    (alts : list (list MaskNode)) (best : ConsumeResult) :
  (forall alt, In alt alts ->
     better (consumeNodesWith rec alt input startPos seps (Some tailNodes)) best = false) ->
  consumeGroup_loop rec input startPos seps tailNodes alts best = best.
Proof.
  induction alts as [|alt alts IH]; intros H; cbn [consumeGroup_loop]; [reflexivity|].
  cbv zeta. rewrite (H alt (or_introl eq_refl)). apply IH.
  intros a Ha. apply H. right. exact Ha.
Qed.

(** An alternative of a well-formed group that recognizes nothing does
    not beat the initial result. *)
Lemma empty_candidate_unbeaten (alt : list MaskNode) (input : str) (startPos : nat)
    (seps : list str) (tailNodes : list MaskNode) :
  alt <> [] -> Forall WellFormed alt ->
  raw (consumeNodes alt input startPos seps (Some tailNodes)) = [] ->
  better (consumeNodes alt input startPos seps (Some tailNodes)) (noMatch startPos)
  = false.
Proof.
  intros Hne Hwf Hraw. apply not_true_iff_false. rewrite better_iff.
  pose proof (consumeNodes_recognized alt input startPos seps (Some tailNodes))
    as (_ & Hpos & _).
  pose proof (consumeNodes_loop_advanced consumeNode input startPos seps
                (Some tailNodes) alt [] [] startPos) as Hadv.
  cbv zeta in Hadv. fold (consumeNodesWith consumeNode alt input startPos seps
                            (Some tailNodes)) in Hadv.
  fold (consumeNodes alt input startPos seps (Some tailNodes)) in Hadv.
  rewrite Hraw, Hadv. cbn [noMatch raw advanced satisfied length].
  intros [H|[[_ H]|(_ & _ & Hsat & _)]]; try lia.
  destruct alt as [|first remaining]; [congruence|].
  inversion Hwf as [|? ? Hfirst _]; subst.
  unfold consumeNodes, consumeNodesWith in *. cbn [consumeNodes_loop] in *.
  cbv zeta in *.
  destruct (satisfied (consumeNode first input (skipSeparators input startPos seps) seps
                         (lookaheadOf remaining (Some tailNodes)))) eqn:Hs;
    [|discriminate Hsat].
  pose proof (satisfied_recognizes first Hfirst _ _ _ _ Hs) as H1.
  pose proof (consumeNodes_loop_raw_length consumeNode input startPos seps
                (Some tailNodes) remaining
                ([] ++ out (consumeNode first input (skipSeparators input startPos seps)
                              seps (lookaheadOf remaining (Some tailNodes))))
                ([] ++ raw (consumeNode first input (skipSeparators input startPos seps)
                              seps (lookaheadOf remaining (Some tailNodes))))
                (pos (consumeNode first input (skipSeparators input startPos seps)
                        seps (lookaheadOf remaining (Some tailNodes))))) as H2.
  rewrite Hraw in H2. rewrite length_app in H2. cbn [length] in H2. lia.
Qed.

(** C3. A group tries every alternative from the same start position.
    No alternative recognizes more raw text than the result; among those
    that recognize as much, none advanced the cursor less; and among those
    that also advanced as much, a satisfied one is only matched by a
    satisfied result.  As soon as an alternative recognizes a character the
    result is the result of an alternative; when the alternatives of a
    well-formed group recognize nothing, the result is the initial one,
    which is empty, not satisfied and at the start position, whatever the
    alternatives skipped. *)
Theorem consumeGroup_selects_best (alternatives : list (list MaskNode))
    (input : str) (startPos : nat) (seps : list str) (tailNodes : list MaskNode) :
  let candidates :=
    map (fun alt => consumeNodes alt input startPos seps (Some tailNodes))
      alternatives in
  let best := consumeNode (GroupN alternatives) input startPos seps tailNodes in
  best = consumeGroup alternatives input startPos seps tailNodes
  /\ (best = noMatch startPos \/ In best candidates)
  /\ (forall r, In r (noMatch startPos :: candidates) -> better r best = false)
  /\ (forall r, In r candidates ->
        length (raw r) <= length (raw best)
        /\ (length (raw r) = length (raw best) ->
            (advanced best <= advanced r)%Z)
        /\ (length (raw r) = length (raw best) -> advanced r = advanced best ->
            satisfied r = true -> satisfied best = true))
  /\ ((exists r, In r candidates /\ 0 < length (raw r)) -> In best candidates)
  /\ (Forall (fun alt => alt <> [] /\ Forall WellFormed alt) alternatives ->
      (forall r, In r candidates -> raw r = []) ->
      best = noMatch startPos).
Proof.
  intros candidates best.
  assert (Hfrom : best = noMatch startPos \/ In best candidates).
  { apply (consumeGroup_loop_from consumeNode). }
  assert (Hbest : forall r, In r (noMatch startPos :: candidates) ->
                            better r best = false).
  { intros r [<-|Hr].
    - apply (consumeGroup_loop_keeps consumeNode), better_irrefl.
    - apply in_map_iff in Hr as (alt & <- & Hin).
      apply (consumeGroup_loop_best consumeNode), Hin. }
  assert (Hord : forall r, In r candidates ->
        length (raw r) <= length (raw best)
        /\ (length (raw r) = length (raw best) ->
            (advanced best <= advanced r)%Z)
        /\ (length (raw r) = length (raw best) -> advanced r = advanced best ->
            satisfied r = true -> satisfied best = true)).
  { intros r Hr. specialize (Hbest r (or_intror Hr)).
    apply not_true_iff_false in Hbest. rewrite better_iff in Hbest.
    destruct (satisfied best); repeat split; intros; try lia; auto.
    exfalso. apply Hbest. right. right. auto. }
  split; [reflexivity|]. split; [exact Hfrom|]. split; [exact Hbest|].
  split; [exact Hord|]. split.
  - intros (r & Hr & Hlen). destruct Hfrom as [Hno|Hin]; [|exact Hin].
    destruct (Hord r Hr) as (Hle & _). rewrite Hno in Hle. simpl in Hle. lia.
  - intros Hwf Hnone. subst best. cbn [consumeNode]. unfold consumeGroupWith.
    apply consumeGroup_loop_unbeaten. intros alt Halt.
    rewrite List.Forall_forall in Hwf. destruct (Hwf alt Halt) as [Hne Hawf].
    apply (empty_candidate_unbeaten alt input startPos seps tailNodes Hne Hawf).
    apply Hnone. subst candidates. apply in_map_iff. exists alt. split; [reflexivity|exact Halt].
Qed.

Lemma consumeGroup_selects_best_witness :
  let alternatives := [[letterNode]; [digitNode]] in
  let input := js "1a" in
  let r := consumeNodes [letterNode] input 0 [] (Some []) in
  let best := consumeNode (GroupN alternatives) input 0 [] [] in
  length (raw r) <= length (raw best)
  /\ (length (raw r) = length (raw best) -> (advanced best <= advanced r)%Z)
  /\ (length (raw r) = length (raw best) -> advanced r = advanced best ->
      satisfied r = true -> satisfied best = true).
Proof.
  intros alternatives input r best.
  apply (proj1 (proj2 (proj2 (proj2
           (consumeGroup_selects_best alternatives input 0 [] []))))).
  left. reflexivity.
Defined.

(** On the input [--] neither alternative of the group of [[[A|0]]]
    recognizes a character and both skip to position 2; the group returns
    none of their results but the initial one, at position 0.  The rule is
    visible in the output: on [1a] the digit alternative of
    [[[A-|0[[-]]]]] ends with a group that recognizes nothing and leaves the
    cursor at 1, so it wins over the letter alternative for having advanced
    less, while in [[[A-|0-]]] it ends with a symbol that skips to 2, and
    the letter alternative, listed first, stays. *)
Lemma group_result_is_no_alternative :
  let alternatives := [[letterNode]; [digitNode]] in
  let candidates :=
    map (fun alt => consumeNodes alt (js "--") 0 [] (Some [])) alternatives in
  let best := consumeGroup alternatives (js "--") 0 [] [] in
  ~ In best candidates
  /\ best = noMatch 0
  /\ map (fun r => (raw r, pos r, advanced r, satisfied r)) candidates
     = [([], 2, 2%Z, false); ([], 2, 2%Z, false)]
  /\ run "[[A-|0[[-]]]]" "1a" = Ok "1"%string
  /\ run "[[A-|0-]]" "1a" = Ok "a"%string.
Proof.
  cbv zeta. split; [|repeat split; vm_compute; reflexivity].
  vm_compute. intros [H|[H|[]]]; discriminate H.
Qed.

(** ** Joining the fragment outputs *)

Lemma joinWithSeparators_stops (parts more seps : list str) :
  joinWithSeparators (parts ++ [] :: more) seps = joinWithSeparators parts seps.
Proof.
  revert seps. induction parts as [|x parts IH]; intros seps; [reflexivity|].
  cbn [app joinWithSeparators]. destruct (isEmpty x); [reflexivity|].
  rewrite IH. destruct parts as [|y parts]; [|reflexivity].
  cbn [app isEmpty]. destruct seps; reflexivity.
Qed.

Lemma joinWithSeparators_interleave (parts seps : list str) :
  Forall (fun part => part <> []) parts ->
  joinWithSeparators parts seps = interleave parts seps.
Proof.
  intros Hall. revert seps. induction Hall as [|x parts Hx Hall IH]; intros seps;
    [reflexivity|].
  cbn [joinWithSeparators]. destruct x as [|c x]; [congruence|]. cbn [isEmpty].
  rewrite IH. destruct Hall as [|y parts Hy _].
  - destruct seps; cbn [interleave app]; rewrite ?app_nil_r; reflexivity.
  - rewrite interleave_cons_cons. destruct y as [|d y]; [congruence|].
    destruct seps; reflexivity.
Qed.

(** X13. The masked text of the contiguous branch is built from the
    leading non-empty outputs only: everything from the first empty output
    on is dropped, and the outputs kept are written with separator [i]
    between output [i] and output [i + 1], no separator after the last
    one (outputs that have no separator left are appended directly). *)
Theorem joinWithSeparators_leading_outputs (parts more seps : list str) :
  Forall (fun part => part <> []) parts ->
  joinWithSeparators (parts ++ [] :: more) seps = interleave parts seps
  /\ joinWithSeparators parts seps = interleave parts seps
  /\ (joinWithSeparators parts seps = [] <-> parts = [])
  /\ joinWithSeparators ([] :: more) seps = [].
Proof.
  intros Hall. split; [|split; [|split]].
  - rewrite joinWithSeparators_stops. apply joinWithSeparators_interleave, Hall.
  - apply joinWithSeparators_interleave, Hall.
  - split; [|intros ->; reflexivity].
    destruct Hall as [|x parts Hx _]; [reflexivity|].
    cbn [joinWithSeparators]. destruct x as [|c x]; [congruence|].
    cbn [isEmpty]. discriminate.
  - reflexivity.
Qed.

Lemma joinWithSeparators_leading_outputs_witness :
  joinWithSeparators ([js "12"; js "3"] ++ [] :: [js "9"]) [js "-"; js "/"; js "."]
  = interleave [js "12"; js "3"] [js "-"; js "/"; js "."]
  /\ joinWithSeparators [js "12"; js "3"] [js "-"; js "/"; js "."]
     = interleave [js "12"; js "3"] [js "-"; js "/"; js "."]
  /\ (joinWithSeparators [js "12"; js "3"] [js "-"; js "/"; js "."] = []
      <-> [js "12"; js "3"] = [])
  /\ joinWithSeparators ([] :: [js "9"]) [js "-"; js "/"; js "."] = [].
Proof.
  apply (joinWithSeparators_leading_outputs [js "12"; js "3"] [js "9"]
           [js "-"; js "/"; js "."]).
  repeat constructor; discriminate.
Defined.

(** ** The empty input *)

Lemma trimEnd_white (s : str) :
  Forall (fun c => isWhiteSpace c = true) s -> trimEnd s = [].
Proof.
  induction 1 as [|c s Hc _ IH]; [reflexivity|].
  simpl. rewrite IH, Hc. reflexivity.
Qed.

Lemma sublist_nil_eq {A} (l : list A) : l `sublist_of` [] -> l = [].
Proof. intros H. apply sublist_nil_r, H. Qed.

(** X14. Whatever the mask, compiled or not, the empty input, and so a
    null or absent value, is formatted as the empty string and nothing is
    recognized. *)
Theorem format_of_nothing (parsed : ParsedMask) (rawValue : JsValue) :
  inputOf rawValue = [] ->
  format parsed rawValue = []
  /\ recognized (formatValue parsed rawValue) = [].
Proof.
  intros Hin.
  assert (Hrec : recognized (formatValue parsed rawValue) = []).
  { apply sublist_nil_eq. rewrite <- Hin.
    unfold formatValue. destruct (manualSpaceMask parsed); simpl.
    - etransitivity; [apply manualFragments_recognized|].
      rewrite drop_0, words_concat. apply filter_sublist.
    - etransitivity; [apply contiguousFragments_recognized|].
      rewrite drop_0. reflexivity. }
  split; [|exact Hrec].
  unfold format, formatValue. rewrite Hin.
  destruct (manualSpaceMask parsed) eqn:Hmode; simpl.
  - apply trimEnd_white. apply List.Forall_forall. intros c Hc.
    apply join_chars in Hc as [Hc|(part & Hpart & Hc)].
    + destruct Hc as [<-|[]]. reflexivity.
    + apply in_map_iff in Hpart as (r & <- & Hr).
      apply (manualFragments_outputs []) in Hr as (Ho & j & Hsub).
      rewrite Ho in Hc. apply (sublist_In _ _ _ Hsub) in Hc.
      apply (valuePart_spec [] j) in Hc. destruct Hc.
  - destruct (fragments parsed) as [|f frags]; [reflexivity|].
    cbn [contiguousFragments map joinWithSeparators].
    destruct (consumeNodes_recognized f [] 0
                (sortLongestFirst (filter (fun s => s <> []) (separators parsed)))
                (head frags)) as (Ho & _ & Hsub).
    apply sublist_slice_input, sublist_nil_eq in Hsub.
    rewrite Ho, Hsub. reflexivity.
Qed.

Lemma format_of_nothing_witness :
  format {| fragments := [[digitNode]; [letterNode]]; separators := [js " "] |} JsNull
  = []
  /\ recognized (formatValue
       {| fragments := [[digitNode]; [letterNode]]; separators := [js " "] |} JsNull)
     = [].
Proof. apply format_of_nothing. reflexivity. Defined.

(** * The compiler on written patterns *)

(** ** Reading back what is written *)

Lemma parseQuantifier_plus (rest : str) :
  parseQuantifier (js "+}" ++ rest) = Ok (Fin 1, Infinity, rest).
Proof. reflexivity. Qed.

Lemma parseSymbol_write (c : char) (q : Quantifier) (rest : str) :
  reserved c = false ->
  (forall n, q = Exactly n -> (1 <= n)%N) ->
  nextIs "{" rest = false ->
  parseSymbol c (writeQuantifier q ++ rest) = Ok (symbolOf c q, rest).
Proof.
  intros Hres Hq Hrest. unfold parseSymbol.
  rewrite makeSymbolNode_plainSymbol, Hres. cbn [bind].
  destruct q as [| |n]; cbn [writeQuantifier].
  - cbn [app]. rewrite Hrest. destruct (plainSymbol c) eqn:E.
    unfold symbolOf, withQuantifier. rewrite E. cbn.
    unfold plainSymbol in E. injection E as <- <- <- <-. reflexivity.
  - change (js "{+}" ++ rest) with (ch "{" :: js "+}" ++ rest).
    cbn [nextIs]. change (isChar "{" (ch "{")) with true. cbn [tl].
    rewrite parseQuantifier_plus. reflexivity.
  - cbn [app nextIs]. change (isChar "{" (ch "{")) with true. cbn [tl].
    rewrite <- app_assoc. cbn [app].
    rewrite parseQuantifier_decimal by (apply Hq; reflexivity). reflexivity.
Qed.

Lemma write_head (item : Pattern) :
  WellWritten item ->
  exists c t, write item = c :: t /\ isChar "{" c = false.
Proof.
  intros H. inversion H as [c q Hc _|alternatives Hne Hall]; subst.
  - exists c, (writeQuantifier q). split; [reflexivity|].
    apply reserved_false in Hc. tauto.
  - eexists (ch "["), _. split; reflexivity.
Qed.

Lemma writeAll_cons (item : Pattern) (more : list Pattern) :
  writeAll (item :: more) = write item ++ writeAll more.
Proof. reflexivity. Qed.

Lemma writeAll_app (items more : list Pattern) :
  writeAll (items ++ more) = writeAll items ++ writeAll more.
Proof. unfold writeAll. apply flat_map_app. Qed.

Lemma groupText_cons (item : Pattern) (more : list Pattern)
    (others : list (list Pattern)) (tail : str) :
  groupText (item :: more) others ++ tail
  = write item ++ (groupText more others ++ tail).
Proof.
  unfold groupText. rewrite writeAll_cons.
  unfold str in *. rewrite <- ?app_assoc. reflexivity.
Qed.

Lemma groupText_nil_cons (a : list Pattern) (others : list (list Pattern))
    (tail : str) :
  groupText [] (a :: others) ++ tail = ch "|" :: (groupText a others ++ tail).
Proof.
  unfold groupText. cbn [writeAll flat_map map concat app].
  unfold str in *. rewrite <- ?app_assoc. cbn [app].
  rewrite <- ?app_assoc. reflexivity.
Qed.

Lemma groupText_nil_nil (tail : str) :
  groupText [] [] ++ tail = ch "]" :: ch "]" :: tail.
Proof. reflexivity. Qed.

Lemma join_groupText (a : list Pattern) (others : list (list Pattern)) :
  join (js "|") (map writeAll (a :: others)) ++ js "]]" = groupText a others.
Proof.
  revert a. induction others as [|b others IH]; intros a.
  - reflexivity.
  - change (join (js "|") (map writeAll (a :: b :: others)))
      with (writeAll a ++ js "|" ++ join (js "|") (map writeAll (b :: others))).
    unfold str in *. rewrite <- ?app_assoc. rewrite IH.
    unfold groupText. cbn [map concat app].
    rewrite <- ?app_assoc. reflexivity.
Qed.

Lemma write_group (a : list Pattern) (others : list (list Pattern)) (tail : str) :
  write (PGroup (a :: others)) ++ tail
  = ch "[" :: ch "[" :: (groupText a others ++ tail).
Proof.
  cbn [write]. fold writeAll. unfold str in *.
  rewrite <- join_groupText. rewrite <- ?app_assoc. reflexivity.
Qed.

Lemma groupText_notBrace (alt : list Pattern) (others : list (list Pattern))
    (tail : str) :
  Forall WellWritten alt -> nextIs "{" (groupText alt others ++ tail) = false.
Proof.
  intros Halt. destruct alt as [|item more].
  - destruct others as [|a others].
    + reflexivity.
    + rewrite groupText_nil_cons. reflexivity.
  - rewrite groupText_cons. inversion Halt as [|? ? Hn _]; subst.
    destruct (write_head item Hn) as (c & t & -> & Hc). exact Hc.
Qed.

Lemma writeAll_notBrace (items : list Pattern) (rest : str) :
  Forall WellWritten items -> nextIs "{" rest = false ->
  nextIs "{" (writeAll items ++ rest) = false.
Proof.
  intros H Hrest. destruct items as [|item more]; [exact Hrest|].
  rewrite writeAll_cons. inversion H as [|? ? Hn _]; subst.
  destruct (write_head item Hn) as (c & t & -> & Hc). exact Hc.
Qed.

(** Inside a group the parser reads back what is left of its text. *)
Lemma parseGroup_write (fuel : nat) :
  forall (alt : list Pattern) (others : list (list Pattern))
         (alts : list (list MaskNode)) (current : list MaskNode) (tail : str),
    Forall WellWritten alt ->
    Forall (fun a => a <> [] /\ Forall WellWritten a) others ->
    current ++ map nodeOf alt <> [] ->
    length (groupText alt others ++ tail) < fuel ->
    parseGroup fuel alts current (groupText alt others ++ tail)
    = Ok (GroupN (alts ++ (current ++ map nodeOf alt) :: map (map nodeOf) others),
          tail).
Proof.
  induction fuel as [|fuel IH]; intros alt others alts current tail Halt Hothers Hne Hlen;
    [lia|].
  destruct alt as [|item more].
  - destruct others as [|a others].
    + rewrite groupText_nil_nil. cbn [map] in *. rewrite app_nil_r in *.
      destruct current as [|n0 current]; [congruence|]. reflexivity.
    + rewrite groupText_nil_cons in *. cbn [map] in Hne. rewrite app_nil_r in *.
      destruct current as [|n0 current]; [congruence|].
      inversion Hothers as [|? ? [Ha Hpa] Hothers']; subst.
      cbn [parseGroup]. change (isChar ":" (ch "|")) with false.
      change (isChar "[" (ch "|")) with false.
      change (isChar "|" (ch "|")) with true. cbn [andb isEmpty].
      rewrite (IH a others (alts ++ [n0 :: current]) [] tail Hpa Hothers').
      * rewrite <- app_assoc. reflexivity.
      * destruct a; [congruence|discriminate].
      * cbn [length] in Hlen. lia.
  - rewrite groupText_cons in *.
    inversion Halt as [|? ? Hitem Hmore]; subst.
    inversion Hitem as [c q Hc Hq|alternatives Hgne Hall]; subst.
    + cbn [write app] in *.
      destruct (reserved_false _ Hc) as (H1 & H2 & H3 & H4 & H5 & H6).
      cbn [parseGroup]. rewrite H1, H6, H4, H5, H2, H3. cbn [andb orb].
      rewrite parseSymbol_write
        by (try assumption; apply groupText_notBrace; exact Hmore).
      cbn [bind].
      rewrite (IH more others alts (current ++ [SymbolN (symbolOf c q)]) tail Hmore Hothers).
      * rewrite <- app_assoc. reflexivity.
      * destruct current; discriminate.
      * cbn [length] in Hlen. rewrite length_app in Hlen. lia.
    + destruct alternatives as [|a g]; [congruence|].
      inversion Hall as [|? ? [Ha Hpa] Hg]; subst.
      rewrite write_group in *.
      cbn [parseGroup]. change (isChar ":" (ch "[")) with false.
      change (isChar "[" (ch "[")) with true. cbn [andb nextIs tl].
      change (isChar "[" (ch "[")) with true. cbn [andb].
      rewrite (IH a g [] [] (groupText more others ++ tail) Hpa Hg).
      * cbn [bind app].
        rewrite (IH more others alts (current ++ [GroupN (map nodeOf a :: map (map nodeOf) g)])
                   tail Hmore Hothers).
        -- rewrite <- app_assoc. reflexivity.
        -- destruct current; discriminate.
        -- cbn [length] in Hlen. rewrite length_app in Hlen. lia.
      * destruct a; [congruence|discriminate].
      * cbn [length] in Hlen. lia.
Qed.

(** Inside a group the parser reads the items that are written and goes
    on with what follows them. *)
Lemma parseGroup_items (items : list Pattern) :
  forall (fuel : nat) (alts : list (list MaskNode)) (current : list MaskNode)
         (rest : str),
    Forall WellWritten items ->
    nextIs "{" rest = false ->
    length (writeAll items ++ rest) < fuel ->
    exists fuel',
      length rest < fuel' /\ fuel' <= fuel
      /\ parseGroup fuel alts current (writeAll items ++ rest)
         = parseGroup fuel' alts (current ++ map nodeOf items) rest.
Proof.
  induction items as [|item more IH]; intros fuel alts current rest Hall Hrest Hlen.
  - exists fuel. cbn [writeAll flat_map map app] in *. rewrite app_nil_r. auto.
  - inversion Hall as [|? ? Hitem Hmore]; subst.
    rewrite writeAll_cons in *. unfold str in *. rewrite <- app_assoc in *.
    destruct fuel as [|fuel]; [lia|].
    inversion Hitem as [c q Hc Hq|alternatives Hgne Hg]; subst.
    + cbn [write app] in *.
      destruct (reserved_false _ Hc) as (H1 & H2 & H3 & H4 & H5 & H6).
      destruct (IH fuel alts (current ++ [SymbolN (symbolOf c q)]) rest Hmore Hrest)
        as (fuel' & Hf1 & Hf2 & Heq).
      { cbn [length] in Hlen. rewrite length_app in Hlen. lia. }
      exists fuel'. split; [exact Hf1|]. split; [lia|].
      cbn [parseGroup]. rewrite H1, H6, H4, H5, H2, H3. cbn [andb orb].
      rewrite parseSymbol_write
        by (try assumption; apply writeAll_notBrace; assumption).
      cbn [bind]. rewrite Heq. cbn [map]. rewrite <- app_assoc. reflexivity.
    + destruct alternatives as [|a g]; [congruence|].
      inversion Hg as [|? ? [Ha Hpa] Hg']; subst.
      rewrite write_group in *. cbn [length] in Hlen.
      destruct (IH fuel alts (current ++ [nodeOf (PGroup (a :: g))]) rest Hmore Hrest)
        as (fuel' & Hf1 & Hf2 & Heq).
      { rewrite length_app in Hlen. lia. }
      exists fuel'. split; [exact Hf1|]. split; [lia|].
      cbn [parseGroup]. change (isChar ":" (ch "[")) with false.
      change (isChar "[" (ch "[")) with true. cbn [andb nextIs tl].
      change (isChar "[" (ch "[")) with true. cbn [andb].
      rewrite (parseGroup_write fuel a g [] [] (writeAll more ++ rest) Hpa Hg').
      * cbn [bind app]. etransitivity; [exact Heq|].
        rewrite <- app_assoc. reflexivity.
      * destruct a; [congruence|discriminate].
      * lia.
Qed.

(** At the top level the parser reads the items that are written and goes
    on with what follows them. *)
Lemma parseFragment_loop_items (items : list Pattern) :
  forall (fuel : nat) (acc : list MaskNode) (rest : str),
    Forall WellWritten items ->
    nextIs "{" rest = false ->
    length (writeAll items ++ rest) < fuel ->
    exists fuel',
      length rest < fuel' /\ fuel' <= fuel
      /\ parseFragment_loop fuel acc (writeAll items ++ rest)
         = parseFragment_loop fuel' (acc ++ map nodeOf items) rest.
Proof.
  induction items as [|item more IH]; intros fuel acc rest Hall Hrest Hlen.
  - exists fuel. cbn [writeAll flat_map map app] in *. rewrite app_nil_r. auto.
  - inversion Hall as [|? ? Hitem Hmore]; subst.
    rewrite writeAll_cons in *. unfold str in *. rewrite <- app_assoc in *.
    destruct fuel as [|fuel]; [lia|].
    inversion Hitem as [c q Hc Hq|alternatives Hgne Hg]; subst.
    + cbn [write app] in *.
      destruct (reserved_false _ Hc) as (H1 & H2 & H3 & H4 & H5 & H6).
      destruct (IH fuel (acc ++ [SymbolN (symbolOf c q)]) rest Hmore Hrest)
        as (fuel' & Hf1 & Hf2 & Heq).
      { cbn [length] in Hlen. rewrite length_app in Hlen. lia. }
      exists fuel'. split; [exact Hf1|]. split; [lia|].
      cbn [parseFragment_loop]. rewrite H6, H5, H4. cbn [andb orb].
      rewrite parseSymbol_write
        by (try assumption; apply writeAll_notBrace; assumption).
      cbn [bind]. rewrite Heq. cbn [map]. rewrite <- app_assoc. reflexivity.
    + destruct alternatives as [|a g]; [congruence|].
      inversion Hg as [|? ? [Ha Hpa] Hg']; subst.
      rewrite write_group in *. cbn [length] in Hlen.
      destruct (IH fuel (acc ++ [nodeOf (PGroup (a :: g))]) rest Hmore Hrest)
        as (fuel' & Hf1 & Hf2 & Heq).
      { rewrite length_app in Hlen. lia. }
      exists fuel'. split; [exact Hf1|]. split; [lia|].
      cbn [parseFragment_loop]. change (isChar "[" (ch "[")) with true.
      cbn [andb nextIs tl]. change (isChar "[" (ch "[")) with true. cbn [andb].
      rewrite (parseGroup_write fuel a g [] [] (writeAll more ++ rest) Hpa Hg').
      * cbn [bind app].
        rewrite (writeAll_notBrace more rest Hmore Hrest).
        etransitivity; [exact Heq|].
        rewrite <- app_assoc. reflexivity.
      * destruct a; [congruence|discriminate].
      * lia.
Qed.

(** [parseFragment] reads back the nodes of the items that are written. *)
Lemma parseFragment_write (items : list Pattern) :
  Forall WellWritten items ->
  parseFragment (writeAll items) = Ok (map nodeOf items).
Proof.
  intros Hall. unfold parseFragment.
  destruct (parseFragment_loop_items items (S (length (writeAll items))) [] []
              Hall eq_refl) as (fuel' & Hf & _ & Heq).
  { rewrite app_nil_r. lia. }
  rewrite app_nil_r in Heq. rewrite Heq.
  destruct fuel'; [cbn in Hf; lia | reflexivity].
Qed.

(** ** Reaching a place inside a pattern *)

Lemma framesText_cons (f : Frame) (frames : list Frame) (rest : str) :
  framesText (f :: frames) ++ rest
  = ch "[" :: ch "[" :: (frameBody f ++ (framesText frames ++ rest)).
Proof.
  unfold framesText, frameText. cbn [map concat].
  unfold str in *. rewrite <- ?app_assoc. reflexivity.
Qed.

Lemma framesText_notBrace (frames : list Frame) (rest : str) :
  nextIs "{" rest = false -> nextIs "{" (framesText frames ++ rest) = false.
Proof.
  intros H. destruct frames as [|f frames]; [exact H|].
  rewrite framesText_cons. reflexivity.
Qed.

Lemma framesText_app (outer inner : list Frame) :
  framesText (outer ++ inner) = framesText outer ++ framesText inner.
Proof. unfold framesText. rewrite map_app, concat_app. reflexivity. Qed.

Lemma innerState_snoc (outer : list Frame) (inner : Frame)
    (init : list (list MaskNode) * list MaskNode) :
  innerState (outer ++ [inner]) init = frameState inner.
Proof. unfold innerState. rewrite fold_left_app. reflexivity. Qed.

(** The group parser reads the alternatives that are closed. *)
Lemma parseGroup_closed (closed : list (list Pattern)) :
  forall (fuel : nat) (alts : list (list MaskNode)) (rest : str),
    Forall WellWrittenAll closed ->
    length (concat (map (fun a => writeAll a ++ [ch "|"]) closed) ++ rest) < fuel ->
    exists fuel',
      length rest < fuel' /\ fuel' <= fuel
      /\ parseGroup fuel alts []
           (concat (map (fun a => writeAll a ++ [ch "|"]) closed) ++ rest)
         = parseGroup fuel' (alts ++ map (map nodeOf) closed) [] rest.
Proof.
  induction closed as [|a closed IH]; intros fuel alts rest Hall Hlen.
  - exists fuel. cbn [map concat app] in *. rewrite app_nil_r. auto.
  - inversion Hall as [|? ? [Hne Ha] Hclosed]; subst.
    cbn [map concat] in *. unfold str in *. rewrite <- ?app_assoc in *.
    cbn [app] in *.
    set (R := concat (map (fun a => writeAll a ++ [ch "|"]) closed) ++ rest) in *.
    destruct (parseGroup_items a fuel alts [] (ch "|" :: R) Ha eq_refl Hlen)
      as (fuel1 & Hf1 & Hf1' & Heq1).
    destruct fuel1 as [|fuel1]; [cbn in Hf1; lia|].
    destruct (IH fuel1 (alts ++ [map nodeOf a]) rest Hclosed)
      as (fuel2 & Hf2 & Hf2' & Heq2).
    { cbn [length] in Hf1. fold R. lia. }
    exists fuel2. split; [exact Hf2|]. split; [lia|].
    rewrite Heq1. cbn [parseGroup app]. change (isChar ":" (ch "|")) with false.
    change (isChar "[" (ch "|")) with false.
    change (isChar "|" (ch "|")) with true. cbn [andb].
    destruct a as [|item a]; [congruence|]. cbn [map isEmpty].
    fold R in Heq2. etransitivity; [exact Heq2|].
    rewrite <- app_assoc. reflexivity.
Qed.

(** The group parser reads a frame: it is then in the state of the frame. *)
Lemma parseGroup_frame (f : Frame) (fuel : nat) (rest : str) :
  WellWrittenFrame f ->
  nextIs "{" rest = false ->
  length (frameBody f ++ rest) < fuel ->
  exists fuel',
    length rest < fuel' /\ fuel' <= fuel
    /\ parseGroup fuel [] [] (frameBody f ++ rest)
       = parseGroup fuel' (fst (frameState f)) (snd (frameState f)) rest.
Proof.
  intros [Hclosed Hcurrent] Hrest Hlen. unfold frameBody in *.
  unfold str in *. rewrite <- app_assoc in *.
  destruct (parseGroup_closed (closedAlternatives f) fuel []
              (writeAll (currentItems f) ++ rest) Hclosed Hlen)
    as (fuel1 & Hf1 & Hf1' & Heq1).
  destruct (parseGroup_items (currentItems f) fuel1
              ([] ++ map (map nodeOf) (closedAlternatives f)) [] rest
              Hcurrent Hrest Hf1) as (fuel2 & Hf2 & Hf2' & Heq2).
  exists fuel2. split; [exact Hf2|]. split; [lia|].
  rewrite Heq1, Heq2. reflexivity.
Qed.

(** What the group parser raises inside the innermost group entered is
    raised by the parser of the outermost one. *)
Lemma parseGroup_frames (frames : list Frame) :
  forall (fuel : nat) (alts : list (list MaskNode)) (current : list MaskNode)
         (rest : str) (e : MaskError),
    Forall WellWrittenFrame frames ->
    nextIs "{" rest = false ->
    length (framesText frames ++ rest) < fuel ->
    (forall fuel', length rest < fuel' ->
       parseGroup fuel' (fst (innerState frames (alts, current)))
         (snd (innerState frames (alts, current))) rest = Throw e) ->
    parseGroup fuel alts current (framesText frames ++ rest) = Throw e.
Proof.
  induction frames as [|f frames IH];
    intros fuel alts current rest e Hall Hrest Hlen Hinner.
  - apply Hinner. exact Hlen.
  - inversion Hall as [|? ? Hf Hframes]; subst.
    rewrite framesText_cons in *. cbn [length] in Hlen.
    destruct fuel as [|fuel]; [lia|].
    cbn [parseGroup]. change (isChar ":" (ch "[")) with false.
    change (isChar "[" (ch "[")) with true. cbn [andb nextIs tl].
    change (isChar "[" (ch "[")) with true. cbn [andb].
    destruct (parseGroup_frame f fuel (framesText frames ++ rest) Hf
                (framesText_notBrace frames rest Hrest))
      as (fuel1 & Hf1 & _ & Heq1); [lia|].
    rewrite Heq1.
    rewrite (IH fuel1 _ _ rest e Hframes Hrest Hf1); [reflexivity|].
    intros fuel' Hfuel'. specialize (Hinner fuel' Hfuel').
    unfold innerState in *. cbn [fold_left] in Hinner.
    destruct (frameState f) as [a c]. exact Hinner.
Qed.

(** The same at the top level of a fragment, after the items read there. *)
Lemma parseFragment_loop_frames (top : list Pattern) (f : Frame)
    (frames : list Frame) (fuel : nat) (acc : list MaskNode) (rest : str)
    (e : MaskError) :
  Forall WellWritten top ->
  Forall WellWrittenFrame (f :: frames) ->
  nextIs "{" rest = false ->
  length (writeAll top ++ framesText (f :: frames) ++ rest) < fuel ->
  (forall fuel', length rest < fuel' ->
     parseGroup fuel' (fst (innerState frames (frameState f)))
       (snd (innerState frames (frameState f))) rest = Throw e) ->
  parseFragment_loop fuel acc (writeAll top ++ framesText (f :: frames) ++ rest)
  = Throw e.
Proof.
  intros Htop Hall Hrest Hlen Hinner.
  inversion Hall as [|? ? Hf Hframes]; subst.
  destruct (parseFragment_loop_items top fuel acc (framesText (f :: frames) ++ rest)
              Htop (framesText_notBrace _ rest Hrest) Hlen)
    as (fuel1 & Hf1 & _ & ->).
  rewrite framesText_cons in *. cbn [length] in Hf1.
  destruct fuel1 as [|fuel1]; [lia|].
  cbn [parseFragment_loop]. change (isChar "[" (ch "[")) with true.
  cbn [andb nextIs tl]. change (isChar "[" (ch "[")) with true. cbn [andb].
  destruct (parseGroup_frame f fuel1 (framesText frames ++ rest) Hf
              (framesText_notBrace frames rest Hrest))
    as (fuel2 & Hf2 & _ & Heq2); [lia|].
  rewrite Heq2.
  rewrite (parseGroup_frames frames fuel2 _ _ rest e Hframes Hrest Hf2); [reflexivity|].
  destruct (frameState f) as [a c]. exact Hinner.
Qed.

(** *** An empty alternative *)

Lemma parseGroup_empty_alternative (fuel : nat) (alts : list (list MaskNode))
    (rest : str) :
  AlternativeEnds rest ->
  parseGroup (S fuel) alts [] rest = Throw EmptyAlternativeInGroup.
Proof. intros [[r ->]|[r ->]]; reflexivity. Qed.

Lemma AlternativeEnds_notBrace (rest : str) :
  AlternativeEnds rest -> nextIs "{" rest = false.
Proof. intros [[r ->]|[r ->]]; reflexivity. Qed.

(** A fragment whose text is well written up to an empty alternative
    raises the error of the empty alternative, whatever follows. *)
Lemma parseFragment_empty_alternative (top : list Pattern) (outer : list Frame)
    (inner : Frame) (rest : str) :
  Forall WellWritten top ->
  Forall WellWrittenFrame outer -> WellWrittenFrame inner ->
  currentItems inner = [] ->
  AlternativeEnds rest ->
  parseFragment (writeAll top ++ framesText (outer ++ [inner]) ++ rest)
  = Throw EmptyAlternativeInGroup.
Proof.
  intros Htop Houter Hinner Hcur Hrest. unfold parseFragment.
  assert (Hall : Forall WellWrittenFrame (outer ++ [inner])).
  { apply Forall_app. split; [exact Houter | constructor; [exact Hinner|constructor]]. }
  destruct (outer ++ [inner]) as [|f frames] eqn:E.
  { apply app_eq_nil in E as [_ E]. discriminate E. }
  apply parseFragment_loop_frames; try assumption.
  - apply AlternativeEnds_notBrace, Hrest.
  - lia.
  - intros fuel' Hfuel'.
    replace (innerState frames (frameState f)) with (frameState inner).
    + unfold frameState. rewrite Hcur. cbn [fst snd map].
      destruct fuel' as [|fuel']; [lia|].
      apply parseGroup_empty_alternative, Hrest.
    + change (innerState frames (frameState f))
        with (innerState (f :: frames) ([], [])).
      rewrite <- E. symmetry. apply innerState_snoc.
Qed.

(** *** A quantifier that is not one *)

Lemma parseQuantifier_bad (body rest : str) :
  BadBody body ->
  parseQuantifier (body ++ ch "}" :: rest)
  = Throw (if isEmpty body then EmptyQuantifier else InvalidQuantifier body).
Proof.
  intros (Hfresh & Hplus & Hre). rewrite parseQuantifier_cases.
  rewrite indexOf_app_fresh by exact Hfresh. cbv zeta.
  rewrite take_app_length, Hplus, Hre. reflexivity.
Qed.

Lemma parseSymbol_throws (c : char) (rest : str) (err : MaskError) :
  reserved c = false ->
  parseQuantifier rest = Throw err ->
  parseSymbol c (ch "{" :: rest) = Throw err.
Proof.
  intros Hc Hq. unfold parseSymbol. rewrite makeSymbolNode_plainSymbol, Hc.
  cbn [bind nextIs]. change (isChar "{" (ch "{")) with true. cbn [tl].
  rewrite Hq. reflexivity.
Qed.

Lemma parseGroup_symbol_throws (fuel : nat) (alts : list (list MaskNode))
    (current : list MaskNode) (c : char) (rest : str) (err : MaskError) :
  reserved c = false ->
  parseQuantifier rest = Throw err ->
  parseGroup (S fuel) alts current (c :: ch "{" :: rest) = Throw err.
Proof.
  intros Hc Hq. destruct (reserved_false _ Hc) as (H1 & H2 & H3 & H4 & H5 & H6).
  cbn [parseGroup]. rewrite H1, H6, H4, H5, H2, H3. cbn [andb orb].
  rewrite (parseSymbol_throws c rest err Hc Hq). reflexivity.
Qed.

Lemma parseFragment_loop_symbol_throws (fuel : nat) (nodes : list MaskNode)
    (c : char) (rest : str) (err : MaskError) :
  reserved c = false ->
  parseQuantifier rest = Throw err ->
  parseFragment_loop (S fuel) nodes (c :: ch "{" :: rest) = Throw err.
Proof.
  intros Hc Hq. destruct (reserved_false _ Hc) as (H1 & H2 & H3 & H4 & H5 & H6).
  cbn [parseFragment_loop]. rewrite H6, H5, H4. cbn [andb orb].
  rewrite (parseSymbol_throws c rest err Hc Hq). reflexivity.
Qed.

(** A fragment whose text is well written up to a symbol raises what the
    quantifier of the symbol raises, at the top level and inside groups. *)
Lemma parseFragment_quantifier_throws (top : list Pattern) (frames : list Frame)
    (c : char) (rest : str) (err : MaskError) :
  Forall WellWritten top -> Forall WellWrittenFrame frames ->
  reserved c = false ->
  parseQuantifier rest = Throw err ->
  parseFragment (writeAll top ++ framesText frames ++ c :: ch "{" :: rest)
  = Throw err.
Proof.
  intros Htop Hframes Hc Hq. unfold parseFragment.
  assert (Hnb : nextIs "{" (c :: ch "{" :: rest) = false).
  { apply reserved_false in Hc. cbn. tauto. }
  destruct frames as [|f frames].
  - cbn [framesText map concat app].
    destruct (parseFragment_loop_items top
                (S (length (writeAll top ++ c :: ch "{" :: rest))) []
                (c :: ch "{" :: rest) Htop Hnb) as (fuel' & Hf & _ & ->); [lia|].
    destruct fuel' as [|fuel']; [cbn in Hf; lia|].
    apply parseFragment_loop_symbol_throws; assumption.
  - apply parseFragment_loop_frames; try assumption; [lia|].
    intros fuel' Hfuel'. destruct fuel' as [|fuel']; [lia|].
    apply parseGroup_symbol_throws; assumption.
Qed.

(** ** Splitting a written pattern *)

Lemma splitBySeparators_loop_copied (text : str) :
  forall (fuel : nat) (frags seps : list str) (current : str) (depth : nat)
         (rest : str),
    Forall Copied text ->
    length (text ++ rest) < fuel ->
    splitBySeparators_loop fuel frags seps current depth (text ++ rest)
    = splitBySeparators_loop (fuel - length text) frags seps (current ++ text)
        depth rest.
Proof.
  induction text as [|c text IH]; intros fuel frags seps current depth rest Hall Hlen.
  - cbn [app length]. rewrite Nat.sub_0_r, app_nil_r. reflexivity.
  - destruct fuel as [|fuel]; [cbn in Hlen; lia|].
    inversion Hall as [|? ? (H1 & H2 & H3) Hall']; subst.
    cbn [app splitBySeparators_loop]. rewrite H1, H2, H3. cbn [andb].
    rewrite IH by (try exact Hall'; cbn in Hlen; lia).
    cbn [length]. rewrite <- app_assoc. reflexivity.
Qed.

Lemma decimal_Copied (n : N) : Forall Copied (decimal n).
Proof.
  pose proof (digits_all (N.to_uint n)) as H. fold (decimal n) in H.
  rewrite forallb_forall in H. apply List.Forall_forall. intros c Hc.
  specialize (H c Hc). unfold DIGIT_RE in H.
  apply andb_prop in H as [Hlo Hhi]. apply N.leb_le in Hlo, Hhi.
  unfold Copied, isChar.
  repeat split; apply N.eqb_neq; intros ->; vm_compute in Hlo, Hhi;
    first [apply Hlo; reflexivity | apply Hhi; reflexivity].
Qed.

Lemma writeSymbol_Copied (c : char) (q : Quantifier) :
  reserved c = false -> Forall Copied (c :: writeQuantifier q).
Proof.
  intros Hc. destruct (reserved_false _ Hc) as (H1 & H2 & H3 & H4 & H5 & H6).
  constructor; [repeat split; assumption|].
  destruct q as [| |n]; cbn [writeQuantifier].
  - constructor.
  - repeat constructor.
  - constructor; [repeat split; reflexivity|].
    apply Forall_app. split; [apply decimal_Copied|].
    constructor; [repeat split; reflexivity | constructor].
Qed.

(** Inside a group the splitter copies what is left of its text and comes
    back to the depth of the group. *)
Lemma splitBySeparators_loop_groupText (fuel : nat) :
  forall (alt : list Pattern) (others : list (list Pattern))
         (frags seps : list str) (current : str) (depth : nat) (tail : str),
    Forall WellWritten alt ->
    Forall (fun a => a <> [] /\ Forall WellWritten a) others ->
    length (groupText alt others ++ tail) < fuel ->
    exists fuel',
      length tail < fuel' /\ fuel' <= fuel
      /\ splitBySeparators_loop fuel frags seps current (S depth)
           (groupText alt others ++ tail)
         = splitBySeparators_loop fuel' frags seps (current ++ groupText alt others)
             depth tail.
Proof.
  induction fuel as [fuel IH] using lt_wf_ind.
  intros alt others frags seps current depth tail Halt Hothers Hlen.
  destruct fuel as [|fuel]; [lia|].
  destruct alt as [|item more].
  - destruct others as [|a others].
    + rewrite groupText_nil_nil in *. exists fuel.
      cbn [length] in Hlen. split; [lia|]. split; [lia|].
      cbn [splitBySeparators_loop]. change (isChar "[" (ch "]")) with false.
      change (isChar "]" (ch "]")) with true. cbn [andb nextIs tl].
      change (isChar "]" (ch "]")) with true. cbn [Nat.eqb].
      replace (S depth - 1) with depth by lia. reflexivity.
    + rewrite groupText_nil_cons in *.
      inversion Hothers as [|? ? [Ha Hpa] Hothers']; subst.
      cbn [length] in Hlen.
      destruct (IH fuel (Nat.lt_succ_diag_r fuel) a others frags seps
                  (current ++ [ch "|"]) depth tail Hpa Hothers')
        as (fuel' & Hf1 & Hf2 & Heq); [lia|].
      exists fuel'. split; [exact Hf1|]. split; [lia|].
      cbn [splitBySeparators_loop]. change (isChar "[" (ch "|")) with false.
      change (isChar "]" (ch "|")) with false.
      change (isChar ":" (ch "|")) with false. cbn [andb].
      rewrite Heq. f_equal.
      pose proof (groupText_nil_cons a others []) as E.
      rewrite !app_nil_r in E. rewrite E.
      unfold str in *. rewrite <- app_assoc. reflexivity.
  - inversion Halt as [|? ? Hitem Hmore]; subst.
    assert (Ecur : forall cur : str,
               cur ++ groupText (item :: more) others
               = (cur ++ write item) ++ groupText more others).
    { intros cur. pose proof (groupText_cons item more others []) as E.
      rewrite !app_nil_r in E. rewrite E.
      unfold str in *. rewrite <- app_assoc. reflexivity. }
    rewrite groupText_cons in *.
    inversion Hitem as [c q Hc Hq|alternatives Hgne Hall]; subst.
    + cbn [write] in *.
      rewrite splitBySeparators_loop_copied
        by (try exact Hlen; apply writeSymbol_Copied; exact Hc).
      rewrite length_app in Hlen. cbn [length] in *.
      destruct (IH (S fuel - S (length (writeQuantifier q))))
                 with (alt := more) (others := others) (frags := frags)
                      (seps := seps)
                      (current := current ++ c :: writeQuantifier q)
                      (depth := depth) (tail := tail)
        as (fuel' & Hf1 & Hf2 & Heq); try assumption; try lia.
      exists fuel'. split; [exact Hf1|]. split; [lia|].
      rewrite Heq. rewrite Ecur. reflexivity.
    + destruct alternatives as [|a g]; [congruence|].
      inversion Hall as [|? ? [Ha Hpa] Hg]; subst.
      rewrite write_group in *. cbn [length] in Hlen.
      destruct (IH fuel (Nat.lt_succ_diag_r fuel) a g frags seps
                  (current ++ js "[[") (S depth)
                  (groupText more others ++ tail) Hpa Hg)
        as (fuel1 & Hf1 & Hf1' & Heq1); [lia|].
      destruct (IH fuel1) with (alt := more) (others := others) (frags := frags)
                      (seps := seps)
                      (current := (current ++ js "[[") ++ groupText a g)
                      (depth := depth) (tail := tail)
        as (fuel2 & Hf2 & Hf2' & Heq2); try assumption; try lia.
      exists fuel2. split; [exact Hf2|]. split; [lia|].
      cbn [splitBySeparators_loop]. change (isChar "[" (ch "[")) with true.
      cbn [andb nextIs tl]. change (isChar "[" (ch "[")) with true.
      replace (S depth + 1) with (S (S depth)) by lia.
      rewrite Heq1, Heq2. f_equal.
      rewrite Ecur. f_equal.
      pose proof (write_group a g []) as E. rewrite !app_nil_r in E.
      rewrite E. unfold str in *. rewrite <- app_assoc. reflexivity.
Qed.

(** At any depth the splitter copies the text of a list of items. *)
Lemma splitBySeparators_loop_items (items : list Pattern) :
  forall (fuel : nat) (frags seps : list str) (current : str) (depth : nat)
         (tail : str),
    Forall WellWritten items ->
    length (writeAll items ++ tail) < fuel ->
    exists fuel',
      length tail < fuel' /\ fuel' <= fuel
      /\ splitBySeparators_loop fuel frags seps current depth
           (writeAll items ++ tail)
         = splitBySeparators_loop fuel' frags seps (current ++ writeAll items)
             depth tail.
Proof.
  induction items as [|item more IH];
    intros fuel frags seps current depth tail Hall Hlen.
  - exists fuel. split; [exact Hlen|]. split; [lia|]. cbn [writeAll flat_map app].
    rewrite app_nil_r. reflexivity.
  - inversion Hall as [|? ? Hitem Hmore]; subst.
    rewrite writeAll_cons in *. unfold str in *.
    rewrite <- app_assoc in *. rewrite (app_assoc current).
    inversion Hitem as [c q Hc Hq|alternatives Hgne Hg]; subst.
    + cbn [write] in *.
      rewrite splitBySeparators_loop_copied
        by (try exact Hlen; apply writeSymbol_Copied; exact Hc).
      rewrite length_app in Hlen. cbn [length] in *.
      destruct (IH (fuel - S (length (writeQuantifier q))) frags seps
                  (current ++ c :: writeQuantifier q) depth tail Hmore)
        as (fuel' & Hf1 & Hf2 & Heq); [lia|].
      exists fuel'. split; [exact Hf1|]. split; [lia|]. exact Heq.
    + destruct alternatives as [|a g]; [congruence|].
      inversion Hg as [|? ? [Ha Hpa] Hg']; subst.
      rewrite write_group in *. cbn [length] in Hlen.
      destruct fuel as [|fuel]; [lia|].
      destruct (splitBySeparators_loop_groupText fuel a g frags seps
                  (current ++ js "[[") depth (writeAll more ++ tail) Hpa Hg')
        as (fuel1 & Hf1 & Hf1' & Heq1); [lia|].
      destruct (IH fuel1 frags seps ((current ++ js "[[") ++ groupText a g)
                  depth tail Hmore Hf1) as (fuel2 & Hf2 & Hf2' & Heq2).
      exists fuel2. split; [exact Hf2|]. split; [lia|].
      cbn [splitBySeparators_loop]. change (isChar "[" (ch "[")) with true.
      cbn [andb nextIs tl]. change (isChar "[" (ch "[")) with true.
      replace (depth + 1) with (S depth) by lia.
      rewrite Heq1, Heq2. f_equal. f_equal.
      pose proof (write_group a g []) as E. rewrite !app_nil_r in E.
      rewrite E. rewrite <- app_assoc. reflexivity.
Qed.

(** Inside a group the splitter copies the alternatives that are closed. *)
Lemma splitBySeparators_loop_closed (closed : list (list Pattern)) :
  forall (fuel : nat) (frags seps : list str) (current : str) (depth : nat)
         (tail : str),
    Forall WellWrittenAll closed ->
    length (concat (map (fun a => writeAll a ++ [ch "|"]) closed) ++ tail) < fuel ->
    exists fuel',
      length tail < fuel' /\ fuel' <= fuel
      /\ splitBySeparators_loop fuel frags seps current depth
           (concat (map (fun a => writeAll a ++ [ch "|"]) closed) ++ tail)
         = splitBySeparators_loop fuel' frags seps
             (current ++ concat (map (fun a => writeAll a ++ [ch "|"]) closed))
             depth tail.
Proof.
  induction closed as [|a closed IH];
    intros fuel frags seps current depth tail Hall Hlen.
  - exists fuel. cbn [map concat app] in *. rewrite app_nil_r. auto.
  - inversion Hall as [|? ? [Hne Ha] Hclosed]; subst.
    cbn [map concat] in *. unfold str in *. rewrite <- ?app_assoc in *.
    cbn [app] in *.
    set (R := concat (map (fun a => writeAll a ++ [ch "|"]) closed) ++ tail) in *.
    destruct (splitBySeparators_loop_items a fuel frags seps current depth
                (ch "|" :: R) Ha Hlen) as (fuel1 & Hf1 & Hf1' & Heq1).
    destruct fuel1 as [|fuel1]; [cbn in Hf1; lia|].
    destruct (IH fuel1 frags seps ((current ++ writeAll a) ++ [ch "|"]) depth tail
                Hclosed) as (fuel2 & Hf2 & Hf2' & Heq2).
    { cbn [length] in Hf1. change (length R < fuel1). lia. }
    exists fuel2. split; [exact Hf2|]. split; [lia|].
    rewrite Heq1. cbn [splitBySeparators_loop].
    change (isChar "[" (ch "|")) with false.
    change (isChar "]" (ch "|")) with false.
    change (isChar ":" (ch "|")) with false. cbn [andb].
    fold R in Heq2. rewrite Heq2. f_equal.
    rewrite <- ?app_assoc. reflexivity.
Qed.

(** The splitter copies the groups entered and is then as deep as they
    are many. *)
Lemma splitBySeparators_loop_frames (frames : list Frame) :
  forall (fuel : nat) (frags seps : list str) (current : str) (depth : nat)
         (tail : str),
    Forall WellWrittenFrame frames ->
    length (framesText frames ++ tail) < fuel ->
    exists fuel',
      length tail < fuel' /\ fuel' <= fuel
      /\ splitBySeparators_loop fuel frags seps current depth
           (framesText frames ++ tail)
         = splitBySeparators_loop fuel' frags seps (current ++ framesText frames)
             (depth + length frames) tail.
Proof.
  induction frames as [|f frames IH];
    intros fuel frags seps current depth tail Hall Hlen.
  - exists fuel. cbn [framesText map concat app length] in *.
    rewrite app_nil_r, Nat.add_0_r. auto.
  - inversion Hall as [|? ? [Hclosed Hcur] Hframes]; subst.
    assert (Ecur : current ++ framesText (f :: frames)
                   = (((current ++ js "[[")
                       ++ concat (map (fun a => writeAll a ++ [ch "|"])
                                    (closedAlternatives f)))
                      ++ writeAll (currentItems f)) ++ framesText frames).
    { pose proof (framesText_cons f frames []) as E. rewrite !app_nil_r in E.
      rewrite E. unfold frameBody. unfold str in *.
      rewrite <- ?app_assoc. reflexivity. }
    rewrite framesText_cons in *. cbn [length] in Hlen.
    unfold frameBody in *. unfold str in *. rewrite <- ?app_assoc in *.
    destruct fuel as [|fuel]; [lia|].
    destruct (splitBySeparators_loop_closed (closedAlternatives f) fuel frags seps
                (current ++ js "[[") (S depth)
                (writeAll (currentItems f) ++ framesText frames ++ tail) Hclosed)
      as (fuel1 & Hf1 & Hf1' & Heq1); [lia|].
    destruct (splitBySeparators_loop_items (currentItems f) fuel1 frags seps
                ((current ++ js "[[")
                 ++ concat (map (fun a => writeAll a ++ [ch "|"])
                              (closedAlternatives f)))
                (S depth) (framesText frames ++ tail) Hcur Hf1)
      as (fuel2 & Hf2 & Hf2' & Heq2).
    destruct (IH fuel2 frags seps
                (((current ++ js "[[")
                  ++ concat (map (fun a => writeAll a ++ [ch "|"])
                               (closedAlternatives f)))
                 ++ writeAll (currentItems f))
                (S depth) tail Hframes Hf2) as (fuel3 & Hf3 & Hf3' & Heq3).
    exists fuel3. split; [exact Hf3|]. split; [lia|].
    cbn [splitBySeparators_loop]. change (isChar "[" (ch "[")) with true.
    cbn [andb nextIs tl]. change (isChar "[" (ch "[")) with true.
    replace (depth + 1) with (S depth) by lia.
    rewrite Heq1, Heq2, Heq3. rewrite Ecur.
    replace (depth + length (f :: frames)) with (S depth + length frames)
      by (cbn [length]; lia).
    rewrite <- ?app_assoc. reflexivity.
Qed.

Lemma indexOf_NoColon (s rest : str) :
  NoColon s -> indexOf (ch ":") (s ++ ch ":" :: rest) = Some (length s).
Proof.
  induction 1 as [|c s Hc Hs IH].
  - reflexivity.
  - cbn [app indexOf length]. unfold isChar in Hc. rewrite Hc, IH. reflexivity.
Qed.

Lemma writeAll_nonempty (items : list Pattern) :
  WellWrittenAll items -> exists c t, writeAll items = c :: t.
Proof.
  intros [Hne Hall]. destruct items as [|item more]; [congruence|].
  inversion Hall as [|? ? Hitem _]; subst.
  destruct (write_head item Hitem) as (c & t & E & _).
  rewrite writeAll_cons, E. eauto.
Qed.

(** At depth 0 the splitter closes the fragments that are followed by a
    separator. *)
Lemma splitBySeparators_loop_closedText (cfrags : list (list Pattern)) :
  forall (cseps : list str) (fuel : nat) (frags seps : list str) (tail : str),
    Forall WellWrittenAll cfrags ->
    length cfrags = length cseps ->
    Forall NoColon cseps ->
    length (closedText (map writeAll cfrags) cseps ++ tail) < fuel ->
    exists fuel',
      length tail < fuel' /\ fuel' <= fuel
      /\ splitBySeparators_loop fuel frags seps [] 0
           (closedText (map writeAll cfrags) cseps ++ tail)
         = splitBySeparators_loop fuel' (frags ++ map writeAll cfrags)
             (seps ++ cseps) [] 0 tail.
Proof.
  induction cfrags as [|f cfrags IH];
    intros cseps fuel frags seps tail Hall Hlen Hseps Hfuel.
  - destruct cseps; [|discriminate Hlen].
    exists fuel. cbn [map closedText app] in *. rewrite !app_nil_r. auto.
  - destruct cseps as [|sep cseps]; [discriminate Hlen|].
    inversion Hall as [|? ? Hf Hcfrags]; subst.
    inversion Hseps as [|? ? Hsep Hcseps]; subst.
    injection Hlen as Hlen.
    destruct (writeAll_nonempty f Hf) as (c0 & t0 & Ef).
    cbn [map closedText] in *. unfold delimited in *.
    unfold str in *. rewrite <- ?app_assoc in *. cbn [app] in *.
    rewrite <- ?app_assoc in *. cbn [app] in *.
    set (R := closedText (map writeAll cfrags) cseps ++ tail) in *.
    destruct (splitBySeparators_loop_items f fuel frags seps [] 0
                (ch ":" :: sep ++ ch ":" :: R) (proj2 Hf) Hfuel)
      as (fuel1 & Hf1 & Hf1' & Heq1).
    destruct fuel1 as [|fuel1]; [cbn in Hf1; lia|].
    destruct (IH cseps fuel1 (frags ++ [writeAll f]) (seps ++ [sep]) tail
                Hcfrags Hlen Hcseps) as (fuel2 & Hf2 & Hf2' & Heq2).
    { cbn [length] in Hf1. rewrite length_app in Hf1. cbn [length] in Hf1.
      change (length R < fuel1). lia. }
    exists fuel2. split; [exact Hf2|]. split; [lia|].
    etransitivity; [exact Heq1|]. cbn [app splitBySeparators_loop].
    change (isChar "[" (ch ":")) with false.
    change (isChar "]" (ch ":")) with false.
    change (isChar ":" (ch ":")) with true. cbn [andb Nat.eqb].
    rewrite indexOf_NoColon by exact Hsep.
    rewrite take_app_length.
    replace (drop (S (length sep)) (sep ++ ch ":" :: R)) with R.
    2:{ change (ch ":" :: R) with ([ch ":"] ++ R). rewrite app_assoc.
        replace (S (length sep)) with (length (sep ++ [ch ":"]))
          by (rewrite length_app; cbn; lia).
        rewrite drop_app_length. reflexivity. }
    rewrite Ef. cbn [isEmpty]. rewrite <- Ef.
    fold R in Heq2. etransitivity; [exact Heq2|].
    rewrite <- ?app_assoc. reflexivity.
Qed.

(** The splitter on the text of a pattern up to a place inside its last
    fragment. *)
Lemma splitBySeparators_loop_prefix (cfrags : list (list Pattern))
    (cseps : list str) (top : list Pattern) (frames : list Frame)
    (fuel : nat) (tail : str) :
  Forall WellWrittenAll cfrags ->
  length cfrags = length cseps ->
  Forall NoColon cseps ->
  Forall WellWritten top ->
  Forall WellWrittenFrame frames ->
  length (prefixText cfrags cseps top frames ++ tail) < fuel ->
  exists fuel',
    length tail < fuel' /\ fuel' <= fuel
    /\ splitBySeparators_loop fuel [] [] [] 0
         (prefixText cfrags cseps top frames ++ tail)
       = splitBySeparators_loop fuel' (map writeAll cfrags) cseps
           (writeAll top ++ framesText frames) (length frames) tail.
Proof.
  intros Hcf Hlen Hcs Htop Hframes Hfuel. unfold prefixText in *.
  unfold str in *. rewrite <- ?app_assoc in *.
  destruct (splitBySeparators_loop_closedText cfrags cseps fuel [] []
              (writeAll top ++ framesText frames ++ tail) Hcf Hlen Hcs Hfuel)
    as (fuel1 & Hf1 & Hf1' & Heq1).
  destruct (splitBySeparators_loop_items top fuel1 ([] ++ map writeAll cfrags)
              ([] ++ cseps) [] 0 (framesText frames ++ tail) Htop Hf1)
    as (fuel2 & Hf2 & Hf2' & Heq2).
  destruct (splitBySeparators_loop_frames frames fuel2 ([] ++ map writeAll cfrags)
              ([] ++ cseps) ([] ++ writeAll top) 0 tail Hframes Hf2)
    as (fuel3 & Hf3 & Hf3' & Heq3).
  exists fuel3. split; [exact Hf3|]. split; [lia|].
  etransitivity; [exact Heq1|]. etransitivity; [exact Heq2|]. exact Heq3.
Qed.

(** What the splitter has read of the current fragment stays at the head
    of that fragment. *)
Lemma splitBySeparators_loop_current (fuel : nat) :
  forall (frags seps : list str) (current : str) (depth : nat) (rest : str)
         (fs ss : list str),
    splitBySeparators_loop fuel frags seps current depth rest = Ok (fs, ss) ->
    exists j more, fs = frags ++ (current ++ take j rest) :: more.
Proof.
  induction fuel as [|fuel IH]; intros frags seps current depth rest fs ss H;
    [discriminate H|].
  cbn [splitBySeparators_loop] in H.
  destruct rest as [|c rest1].
  - repeat break_if; try discriminate. injection H as <- <-.
    exists 0, []. cbn [take]. rewrite app_nil_r. reflexivity.
  - destruct (isChar "[" c && nextIs "[" rest1) eqn:E1.
    + apply andb_prop in E1 as [Ec En]. apply isChar_eq in Ec.
      apply nextIs_cons in En. subst c. rewrite En in *. cbn [tl] in *.
      apply IH in H as (j & more & ->).
      exists (S (S j)), more. cbn [take]. rewrite <- app_assoc. reflexivity.
    + destruct (isChar "]" c && nextIs "]" rest1) eqn:E2.
      * destruct (Nat.eqb depth 0); [discriminate|].
        apply andb_prop in E2 as [Ec En]. apply isChar_eq in Ec.
        apply nextIs_cons in En. subst c. rewrite En in *. cbn [tl] in *.
        apply IH in H as (j & more & ->).
        exists (S (S j)), more. cbn [take]. rewrite <- app_assoc. reflexivity.
      * destruct (isChar ":" c && Nat.eqb depth 0) eqn:E3.
        -- destruct (indexOf (ch ":") rest1) as [e|]; [|discriminate].
           cbv zeta in H. destruct (isEmpty current); [discriminate|].
           apply IH in H as (j & more & ->).
           exists 0, (([] ++ take j (drop (S e) rest1)) :: more).
           cbn [take]. rewrite app_nil_r, <- app_assoc. reflexivity.
        -- destruct (isChar ":" c && Nat.ltb 0 depth); [discriminate|].
           apply IH in H as (j & more & ->).
           exists (S j), more. cbn [take]. rewrite <- app_assoc. reflexivity.
Qed.

(** The splitter cuts a written pattern into the texts of its fragments
    and its separators. *)
Lemma splitBySeparators_writeMask (frags : list (list Pattern)) (seps : list str) :
  Forall WellWrittenAll frags ->
  length frags = S (length seps) ->
  Forall NoColon seps ->
  splitBySeparators (writeMask frags seps) = Ok (map writeAll frags, seps).
Proof.
  intros Hfrags Hlen Hseps.
  destruct (exists_last (l := frags)) as (cfrags & final & ->).
  { intros ->. discriminate Hlen. }
  rewrite length_app in Hlen. cbn [length] in Hlen.
  apply Forall_app in Hfrags as [Hcf Hfinal].
  inversion Hfinal as [|? ? Hf _]; subst.
  unfold writeMask. rewrite map_app. cbn [map].
  rewrite interleave_closed by (rewrite length_map; lia).
  unfold splitBySeparators.
  destruct (splitBySeparators_loop_closedText cfrags seps
              (S (length (closedText (map writeAll cfrags) seps ++ writeAll final)))
              [] [] (writeAll final) Hcf ltac:(lia) Hseps ltac:(lia))
    as (fuel1 & Hf1 & _ & ->).
  rewrite <- (app_nil_r (writeAll final)) in Hf1 |- * at 1.
  destruct (splitBySeparators_loop_items final fuel1 ([] ++ map writeAll cfrags)
              ([] ++ seps) [] 0 [] (proj2 Hf) Hf1) as (fuel2 & Hf2 & _ & ->).
  destruct fuel2 as [|fuel2]; [cbn in Hf2; lia|].
  destruct (writeAll_nonempty final Hf) as (c0 & t0 & Ef).
  cbn [splitBySeparators_loop app Nat.eqb negb]. rewrite Ef. cbn [isEmpty].
  reflexivity.
Qed.

(** ** The bodies that are positive numerals *)

Lemma digit_cases (c : char) :
  DIGIT_RE c = true ->
  c = 48%N \/ c = 49%N \/ c = 50%N \/ c = 51%N \/ c = 52%N
  \/ c = 53%N \/ c = 54%N \/ c = 55%N \/ c = 56%N \/ c = 57%N.
Proof.
  unfold DIGIT_RE. intros H. apply andb_prop in H as [H1 H2].
  apply N.leb_le in H1, H2. lia.
Qed.

Lemma uintOf_string (body : str) :
  forallb DIGIT_RE body = true ->
  js (NilEmpty.string_of_uint (uintOf body)) = body.
Proof.
  induction body as [|c ds IH]; intros H; [reflexivity|].
  cbn [forallb] in H. apply andb_prop in H as [Hc Hds]. specialize (IH Hds).
  destruct (digit_cases c Hc) as [->|[->|[->|[->|[->|[->|[->|[->|[->| ->]]]]]]]]];
    cbn [uintOf N.eqb Pos.eqb NilEmpty.string_of_uint js list_ascii_of_string map];
    fold (js (NilEmpty.string_of_uint (uintOf ds))); rewrite IH; reflexivity.
Qed.

(** A body that matches [^[1-9]\d*$] is the decimal numeral of its value,
    which is at least 1. *)
Lemma positive_numeral (body : str) :
  POSITIVE_INT_RE body = true ->
  body = decimal (MV body) /\ (1 <= MV body)%N.
Proof.
  intros Hre. split; [|apply MV_pos, Hre].
  destruct body as [|c ds]; [discriminate Hre|].
  cbn [POSITIVE_INT_RE] in Hre. apply andb_prop in Hre as [Hc Hds].
  assert (Hall : forallb DIGIT_RE (c :: ds) = true).
  { cbn [forallb]. rewrite Hds, andb_true_r. unfold DIGIT_RE.
    apply andb_prop in Hc as [H1 H2]. apply N.leb_le in H1.
    rewrite H2, andb_true_r. apply N.leb_le. lia. }
  pose proof (uintOf_string (c :: ds) Hall) as Hs.
  rewrite <- Hs at 2. rewrite MV_of_uint. unfold decimal.
  rewrite DecimalN.Unsigned.to_of.
  assert (Hnorm : Decimal.unorm (uintOf (c :: ds)) = uintOf (c :: ds)).
  { apply andb_prop in Hc as [H1 H2]. apply N.leb_le in H1, H2.
    assert (Hd : DIGIT_RE c = true).
    { unfold DIGIT_RE. apply andb_true_intro. split; apply N.leb_le; lia. }
    destruct (digit_cases c Hd) as [->|[->|[->|[->|[->|[->|[->|[->|[->| ->]]]]]]]]];
      try reflexivity.
    vm_compute in H1. exfalso. apply H1. reflexivity. }
  rewrite Hnorm. symmetry. exact Hs.
Qed.

(** ** Compiling a written pattern *)

Lemma mapParse_write (frags : list (list Pattern)) :
  Forall WellWrittenAll frags ->
  mapParse (map writeAll frags) = Ok (map (map nodeOf) frags).
Proof.
  induction 1 as [|f frags [_ Hf] _ IH]; [reflexivity|].
  cbn [map mapParse]. rewrite parseFragment_write by exact Hf.
  cbn [bind]. rewrite IH. reflexivity.
Qed.

Lemma mapParse_closed_throws (cfrags : list (list Pattern)) (bad : str)
    (more : list str) (e : MaskError) :
  Forall WellWrittenAll cfrags ->
  parseFragment bad = Throw e ->
  mapParse (map writeAll cfrags ++ bad :: more) = Throw e.
Proof.
  intros Hall Hbad. induction Hall as [|f cfrags [_ Hf] _ IH].
  - cbn [map app mapParse]. rewrite Hbad. reflexivity.
  - cbn [map app mapParse]. rewrite parseFragment_write by exact Hf.
    cbn [bind]. rewrite IH. reflexivity.
Qed.

(** A written pattern compiles to the nodes of its items and to its
    separators. *)
Lemma parseMask_write (frags : list (list Pattern)) (seps : list str) :
  Forall WellWrittenAll frags ->
  length frags = S (length seps) ->
  Forall NoColon seps ->
  parseMask (writeMask frags seps)
  = Ok {| fragments := map (map nodeOf) frags; separators := seps |}.
Proof.
  intros Hfrags Hlen Hseps. unfold parseMask.
  assert (Hne : isEmpty (writeMask frags seps) = false).
  { unfold writeMask. destruct frags as [|f frags]; [discriminate Hlen|].
    inversion Hfrags as [|? ? Hf _]; subst.
    destruct (writeAll_nonempty f Hf) as (c0 & t0 & Ef).
    cbn [map interleave]. rewrite Ef. destruct (map writeAll frags); reflexivity. }
  rewrite Hne, splitBySeparators_writeMask by assumption.
  cbn [bind]. rewrite mapParse_write by exact Hfrags. reflexivity.
Qed.

(** A pattern whose text is well written up to a place where the splitter
    copies [head] and every fragment that goes on from there raises an
    error in [P]: the compilation raises an error in [P], or the error of
    the splitter. *)
Lemma parseMask_prefix_throws (P : MaskError -> Prop)
    (cfrags : list (list Pattern)) (cseps : list str) (top : list Pattern)
    (frames : list Frame) (head tail : str) :
  Forall WellWrittenAll cfrags ->
  length cfrags = length cseps ->
  Forall NoColon cseps ->
  Forall WellWritten top ->
  Forall WellWrittenFrame frames ->
  head <> [] ->
  (forall fuel frags seps current,
     length (head ++ tail) < fuel ->
     exists fuel' depth',
       length tail < fuel'
       /\ splitBySeparators_loop fuel frags seps current (length frames) (head ++ tail)
          = splitBySeparators_loop fuel' frags seps (current ++ head) depth' tail) ->
  (forall j, exists e,
     P e /\ parseFragment (writeAll top ++ framesText frames ++ head ++ take j tail)
            = Throw e) ->
  let pattern := prefixText cfrags cseps top frames ++ head ++ tail in
  (exists e, P e /\ parseMask pattern = Throw e)
  \/ (exists e, splitBySeparators pattern = Throw e /\ parseMask pattern = Throw e).
Proof.
  intros Hcf Hlen Hcs Htop Hframes Hhead Hcopy Hthrows pattern.
  assert (Hne : isEmpty pattern = false).
  { subst pattern. destruct head as [|h head]; [congruence|].
    destruct (prefixText cfrags cseps top frames); reflexivity. }
  unfold parseMask. rewrite Hne. unfold splitBySeparators. subst pattern.
  destruct (splitBySeparators_loop_prefix cfrags cseps top frames
              (S (length (prefixText cfrags cseps top frames ++ head ++ tail)))
              (head ++ tail) Hcf Hlen Hcs Htop Hframes) as (fuel1 & Hf1 & _ & ->);
    [lia|].
  destruct (Hcopy fuel1 (map writeAll cfrags) cseps
              (writeAll top ++ framesText frames) Hf1)
    as (fuel2 & depth' & Hf2 & ->).
  destruct (splitBySeparators_loop fuel2 (map writeAll cfrags) cseps
              ((writeAll top ++ framesText frames) ++ head) depth' tail)
    as [[fs ss]|e|] eqn:Es.
  - left. apply splitBySeparators_loop_current in Es as (j & more & ->).
    destruct (Hthrows j) as (e & He & Hparse). exists e. split; [exact He|].
    cbn [bind]. rewrite (mapParse_closed_throws cfrags _ more e Hcf); [reflexivity|].
    unfold str in *. rewrite <- ?app_assoc. exact Hparse.
  - right. exists e. split; reflexivity.
  - exfalso. revert Es. apply splitBySeparators_loop_fuel. exact Hf2.
Qed.

Lemma splitBySeparators_loop_bar (fuel : nat) (frags seps : list str)
    (current : str) (depth : nat) (tail : str) :
  length ([ch "|"] ++ tail) < fuel ->
  exists fuel' depth',
    length tail < fuel'
    /\ splitBySeparators_loop fuel frags seps current depth ([ch "|"] ++ tail)
       = splitBySeparators_loop fuel' frags seps (current ++ [ch "|"]) depth' tail.
Proof.
  intros Hlen. destruct fuel as [|fuel]; [lia|].
  exists fuel, depth. split; [cbn in Hlen; lia|]. reflexivity.
Qed.

Lemma splitBySeparators_loop_closing (fuel : nat) (frags seps : list str)
    (current : str) (depth : nat) (tail : str) :
  length (js "]]" ++ tail) < fuel ->
  exists fuel' depth',
    length tail < fuel'
    /\ splitBySeparators_loop fuel frags seps current (S depth) (js "]]" ++ tail)
       = splitBySeparators_loop fuel' frags seps (current ++ js "]]") depth' tail.
Proof.
  intros Hlen. destruct fuel as [|fuel]; [lia|].
  exists fuel, depth. split; [cbn in Hlen; lia|].
  cbn [splitBySeparators_loop app js list_ascii_of_string map].
  change (isChar "[" (N_of_ascii "]")) with false.
  change (isChar "]" (N_of_ascii "]")) with true. cbn [andb nextIs tl Nat.eqb].
  change (isChar "]" (N_of_ascii "]")) with true.
  replace (S depth - 1) with depth by lia. reflexivity.
Qed.

(** A pattern whose text is well written up to an empty alternative does
    not compile: the error is the one of the empty alternative unless the
    splitter raises its own. *)
Lemma parseMask_empty_alternative (cfrags : list (list Pattern))
    (cseps : list str) (top : list Pattern) (outer : list Frame) (inner : Frame)
    (rest : str) :
  Forall WellWrittenAll cfrags ->
  length cfrags = length cseps ->
  Forall NoColon cseps ->
  Forall WellWritten top ->
  Forall WellWrittenFrame outer -> WellWrittenFrame inner ->
  currentItems inner = [] ->
  AlternativeEnds rest ->
  let pattern := prefixText cfrags cseps top (outer ++ [inner]) ++ rest in
  parseMask pattern = Throw EmptyAlternativeInGroup
  \/ (exists e, splitBySeparators pattern = Throw e /\ parseMask pattern = Throw e).
Proof.
  intros Hcf Hlen Hcs Htop Houter Hinner Hcur Hrest pattern.
  assert (Hall : Forall WellWrittenFrame (outer ++ [inner])).
  { apply Forall_app. split; [exact Houter | constructor; [exact Hinner|constructor]]. }
  assert (Hdepth : length (outer ++ [inner]) = S (length outer)).
  { rewrite length_app. cbn. lia. }
  destruct Hrest as [[r ->]|[r ->]].
  - destruct (parseMask_prefix_throws (fun e => e = EmptyAlternativeInGroup)
                cfrags cseps top (outer ++ [inner]) [ch "|"] r Hcf Hlen Hcs Htop Hall)
      as [(e & -> & H)|H].
    + discriminate.
    + intros fuel frags seps current. apply splitBySeparators_loop_bar.
    + intros j. exists EmptyAlternativeInGroup. split; [reflexivity|].
      apply parseFragment_empty_alternative; try assumption.
      left. eexists. reflexivity.
    + left. exact H.
    + right. exact H.
  - destruct (parseMask_prefix_throws (fun e => e = EmptyAlternativeInGroup)
                cfrags cseps top (outer ++ [inner]) (js "]]") r Hcf Hlen Hcs Htop Hall)
      as [(e & -> & H)|H].
    + discriminate.
    + intros fuel frags seps current. rewrite Hdepth.
      apply splitBySeparators_loop_closing.
    + intros j. exists EmptyAlternativeInGroup. split; [reflexivity|].
      apply parseFragment_empty_alternative; try assumption.
      right. eexists. reflexivity.
    + left. exact H.
    + right. exact H.
Qed.

Lemma indexOf_fresh (c : char) (l : str) :
  Forall (fun x => N.eqb x c = false) l -> indexOf c l = None.
Proof.
  induction 1 as [|x l Hx _ IH]; [reflexivity|].
  cbn [indexOf]. rewrite Hx, IH. reflexivity.
Qed.

Lemma parseQuantifier_bad_prefix (body rest : str) (j : nat) :
  BadBody body ->
  parseQuantifier (take j (body ++ ch "}" :: rest)) = Throw UnclosedQuantifier
  \/ parseQuantifier (take j (body ++ ch "}" :: rest))
     = Throw (if isEmpty body then EmptyQuantifier else InvalidQuantifier body).
Proof.
  intros Hbad. destruct (le_lt_dec j (length body)) as [Hle|Hgt].
  - left. rewrite take_app_le by exact Hle.
    unfold parseQuantifier. rewrite indexOf_fresh; [reflexivity|].
    destruct Hbad as (Hfresh & _).
    apply Forall_take. exact Hfresh.
  - right. rewrite take_app_ge by lia.
    destruct (j - length body) as [|k] eqn:E; [lia|].
    cbn [take]. apply parseQuantifier_bad, Hbad.
Qed.

Lemma splitBySeparators_loop_symbol (c : char) (fuel : nat) (frags seps : list str)
    (current : str) (depth : nat) (tail : str) :
  reserved c = false ->
  length ([c; ch "{"] ++ tail) < fuel ->
  exists fuel' depth',
    length tail < fuel'
    /\ splitBySeparators_loop fuel frags seps current depth ([c; ch "{"] ++ tail)
       = splitBySeparators_loop fuel' frags seps (current ++ [c; ch "{"]) depth' tail.
Proof.
  intros Hc Hlen. exists (fuel - 2), depth. split; [cbn in Hlen; lia|].
  apply (splitBySeparators_loop_copied [c; ch "{"]); [|exact Hlen].
  destruct (reserved_false _ Hc) as (H1 & H2 & H3 & H4 & H5 & H6).
  repeat constructor; assumption.
Qed.

(** A pattern whose text is well written up to a symbol with a quantifier
    that is not one does not compile. *)
Lemma parseMask_quantifier_throws (cfrags : list (list Pattern))
    (cseps : list str) (top : list Pattern) (frames : list Frame)
    (c : char) (body rest : str) :
  Forall WellWrittenAll cfrags ->
  length cfrags = length cseps ->
  Forall NoColon cseps ->
  Forall WellWritten top ->
  Forall WellWrittenFrame frames ->
  reserved c = false ->
  BadBody body ->
  exists e,
    parseMask (prefixText cfrags cseps top frames
               ++ c :: ch "{" :: body ++ ch "}" :: rest) = Throw e.
Proof.
  intros Hcf Hlen Hcs Htop Hframes Hc Hbad.
  destruct (parseMask_prefix_throws (fun _ => True)
              cfrags cseps top frames [c; ch "{"] (body ++ ch "}" :: rest)
              Hcf Hlen Hcs Htop Hframes) as [(e & _ & H)|(e & _ & H)].
  - discriminate.
  - intros fuel frags seps current. apply splitBySeparators_loop_symbol, Hc.
  - intros j.
    destruct (parseQuantifier_bad_prefix body rest j Hbad) as [Hq|Hq];
      eexists; (split; [exact I|]);
      apply (parseFragment_quantifier_throws top frames c _ _ Htop Hframes Hc Hq).
  - exists e. exact H.
  - exists e. exact H.
Qed.

(** ** Quantifiers anywhere in a pattern *)

Lemma toDouble_overflow : toDouble (2 ^ 1024) = Infinity.
Proof. vm_compute. reflexivity. Qed.

(** C7. The suffix of a symbol is read up to the first closing brace.  A
    body [+] gives min 1 and no upper bound.  A body that matches
    [^[1-9]\d*$] is the decimal numeral of an integer [n >= 1] and gives
    min = max = the Number value of [n]: [n] itself below 2^53, the nearest
    double above, [Infinity] beyond the range of doubles.  Any other body
    raises a [MaskError].  This holds for every symbol of a pattern, at the
    top level of a fragment and inside groups: a written pattern compiles
    to the nodes of its items, each symbol with the bounds of its
    quantifier, and a pattern that is well written up to a symbol with
    another body does not compile, whatever follows.  In particular the
    pattern [A{0}] does not compile. *)
Theorem quantifier_parsing :
  (forall rest,
     parseQuantifier rest =
     match indexOf (ch "}") rest with
     | None => Throw UnclosedQuantifier
     | Some e =>
         let body := take e rest in
         if str_eqb body (js "+") then Ok (Fin 1, Infinity, drop (S e) rest)
         else if POSITIVE_INT_RE body
              then Ok (Number body, Number body, drop (S e) rest)
              else Throw (if isEmpty body then EmptyQuantifier
                          else InvalidQuantifier body)
     end)
  /\ (forall body,
        POSITIVE_INT_RE body = true ->
        body = decimal (MV body) /\ (1 <= MV body)%N
        /\ Number body = toDouble (MV body))
  /\ (forall n,
        (1 <= n)%N ->
        POSITIVE_INT_RE (decimal n) = true /\ MV (decimal n) = n)
  /\ (forall n,
        ((n < 2 ^ 53)%N -> toDouble n = Fin n)
        /\ IsDouble (toDouble n)
        /\ ((1 <= n)%N -> num_le (Fin 1) (toDouble n)))
  /\ (forall c q,
        nodeOf (PSymbol c q)
        = SymbolN {| kind := kind (plainSymbol c); value := value (plainSymbol c);
                     min := fst (boundsOf q); max := snd (boundsOf q) |})
  /\ (forall n,
        boundsOf Once = (Fin 1, Fin 1)
        /\ boundsOf OneOrMore = (Fin 1, Infinity)
        /\ boundsOf (Exactly n) = (Number (decimal n), Number (decimal n)))
  /\ (forall frags seps,
        Forall WellWrittenAll frags ->
        length frags = S (length seps) ->
        Forall NoColon seps ->
        parseMask (writeMask frags seps)
        = Ok {| fragments := map (map nodeOf) frags; separators := seps |})
  /\ (forall pattern parsed s,
        parseMask pattern = Ok parsed ->
        In (SymbolN s) (allNodes parsed) ->
        (min s = Fin 1 /\ max s = Infinity)
        \/ (exists n, (1 <= n)%N /\ min s = toDouble n /\ max s = toDouble n))
  /\ (forall top frames c body rest,
        Forall WellWritten top -> Forall WellWrittenFrame frames ->
        reserved c = false -> BadBody body ->
        parseFragment (writeAll top ++ framesText frames
                       ++ c :: ch "{" :: body ++ ch "}" :: rest)
        = Throw (if isEmpty body then EmptyQuantifier else InvalidQuantifier body))
  /\ (forall cfrags cseps top frames c body rest,
        Forall WellWrittenAll cfrags -> length cfrags = length cseps ->
        Forall NoColon cseps ->
        Forall WellWritten top -> Forall WellWrittenFrame frames ->
        reserved c = false -> BadBody body ->
        exists e,
          parseMask (prefixText cfrags cseps top frames
                     ++ c :: ch "{" :: body ++ ch "}" :: rest) = Throw e)
  /\ parseMask (js "A{0}") = Throw (InvalidQuantifier (js "0"))
  /\ parseMask (js "A{}") = Throw EmptyQuantifier
  /\ parseMask (js "A{012}") = Throw (InvalidQuantifier (js "012"))
  /\ parseMask (js "A{n}") = Throw (InvalidQuantifier (js "n"))
  /\ parseMask (js "0:-:[[0|[[A{0}|0]]]]") = Throw (InvalidQuantifier (js "0"))
  /\ parseMask (js "[[A{+}|[[-|0{12}]]]]")
     = Ok {| fragments :=
               [[GroupN
                   [[SymbolN {| kind := KindA; value := None;
                                min := Fin 1; max := Infinity |}];
                    [GroupN
                       [[SymbolN {| kind := KindLiteral; value := Some (ch "-");
                                    min := Fin 1; max := Fin 1 |}];
                        [SymbolN {| kind := Kind0; value := None;
                                    min := Fin 12; max := Fin 12 |}]]]]]];
             separators := [] |}.
Proof.
  split; [exact parseQuantifier_cases|].
  split.
  { intros body Hre. destruct (positive_numeral body Hre) as [H1 H2].
    split; [exact H1|]. split; [exact H2|reflexivity]. }
  split.
  { intros n Hn. split; [apply decimal_positive, Hn | apply MV_decimal]. }
  split.
  { intros n. split; [apply toDouble_exact|].
    split; [apply toDouble_IsDouble | apply toDouble_ge1]. }
  split; [reflexivity|].
  split.
  { intros n. split; [reflexivity|]. split; [reflexivity|].
    unfold Number. rewrite MV_decimal. reflexivity. }
  split; [exact parseMask_write|].
  split.
  { intros pattern parsed s Hp Hin.
    destruct (parseMask_every Compiled parseSymbol_Compiled pattern parsed s Hp Hin)
      as (c & _ & _ & _ & Hmin & Hdbl & [Hmax|[H1 Hinf]]); [|left; auto].
    right. rewrite Hmax. destruct (min s) as [m|].
    - exists m. cbn in Hmin, Hdbl. rewrite Hdbl. auto.
    - exists (2 ^ 1024)%N. rewrite toDouble_overflow.
      split; [vm_compute; discriminate | auto]. }
  split.
  { intros top frames c body rest Htop Hframes Hc Hbad.
    apply parseFragment_quantifier_throws; try assumption.
    apply parseQuantifier_bad, Hbad. }
  split; [exact parseMask_quantifier_throws|].
  repeat split; vm_compute; reflexivity.
Qed.

(** The side conditions of a concrete written pattern. *)
Ltac written :=
  repeat first
    [ discriminate
    | reflexivity
    | match goal with
      | |- forall n, _ = Exactly n -> _ =>
          let n := fresh "n" in
          let Hn := fresh "Hn" in
          intros n Hn;
          first [discriminate Hn | injection Hn as <-; vm_compute; discriminate]
      end
    | constructor ].

Lemma quantifier_parsing_witness :
  let top := [PSymbol (ch "0") Once] in
  let frames :=
    [{| closedAlternatives := [[PSymbol (ch "A") (Exactly 2)]];
        currentItems := [PSymbol (ch "-") OneOrMore] |}] in
  let text := writeAll top ++ framesText frames ++ ch "0" :: ch "{" :: js "07" ++ ch "}" :: js "]]" in
  text = js "0[[A{2}|-{+}0{07}]]"
  /\ parseFragment text = Throw (InvalidQuantifier (js "07")).
Proof.
  intros top frames text. split; [vm_compute; reflexivity|].
  destruct quantifier_parsing as (_ & _ & _ & _ & _ & _ & _ & _ & H & _).
  apply (H top frames (ch "0") (js "07") (js "]]")); [written..|].
  repeat split; repeat constructor.
Defined.

(** The numeral 9007199254740993 matches [^[1-9]\d*$] and the compiled
    bounds are 9007199254740992, the nearest double; a numeral of 310
    digits gives the bounds [Infinity]. *)
Lemma numeral_is_rounded_to_a_double :
  POSITIVE_INT_RE (js "9007199254740993") = true
  /\ MV (js "9007199254740993") = 9007199254740993%N
  /\ parseMask (js "A{9007199254740993}")
     = Ok {| fragments :=
               [[SymbolN {| kind := KindA; value := None;
                            min := Fin 9007199254740992;
                            max := Fin 9007199254740992 |}]];
             separators := [] |}
  /\ Fin 9007199254740992 <> Fin 9007199254740993
  /\ POSITIVE_INT_RE (decimal (10 ^ 309)) = true
  /\ parseMask (ch "A" :: ch "{" :: decimal (10 ^ 309) ++ [ch "}"])
     = Ok {| fragments :=
               [[SymbolN {| kind := KindA; value := None;
                            min := Infinity; max := Infinity |}]];
             separators := [] |}.
Proof.
  split; [vm_compute; reflexivity|]. split; [vm_compute; reflexivity|].
  split; [vm_compute; reflexivity|]. split; [discriminate|].
  split; vm_compute; reflexivity.
Qed.

(** ** Groups of a compiled mask *)

(** C8. A pattern whose text is well written up to an empty alternative of
    a group (closed fragments with their separators, then items and groups
    entered, the innermost with nothing read for its current alternative,
    followed by a bar or by closing brackets) does not compile, whatever
    follows: its fragment raises the error of the empty alternative, and so
    does the pattern unless the splitter raises its own error first.  The
    pattern [[[A|]]] fails with the error of the empty alternative.  So
    every group of a compiled mask has an alternative and none of its
    alternatives is empty. *)
Theorem empty_alternative_rejected :
  (forall top outer inner rest,
     Forall WellWritten top ->
     Forall WellWrittenFrame outer -> WellWrittenFrame inner ->
     currentItems inner = [] ->
     AlternativeEnds rest ->
     parseFragment (writeAll top ++ framesText (outer ++ [inner]) ++ rest)
     = Throw EmptyAlternativeInGroup)
  /\ (forall cfrags cseps top outer inner rest,
        Forall WellWrittenAll cfrags -> length cfrags = length cseps ->
        Forall NoColon cseps ->
        Forall WellWritten top ->
        Forall WellWrittenFrame outer -> WellWrittenFrame inner ->
        currentItems inner = [] ->
        AlternativeEnds rest ->
        let pattern := prefixText cfrags cseps top (outer ++ [inner]) ++ rest in
        parseMask pattern = Throw EmptyAlternativeInGroup
        \/ (exists e, splitBySeparators pattern = Throw e
                      /\ parseMask pattern = Throw e))
  /\ parseMask (js "[[A|]]") = Throw EmptyAlternativeInGroup
  /\ parseMask (js "[[|A]]") = Throw EmptyAlternativeInGroup
  /\ parseMask (js "[[]]") = Throw EmptyAlternativeInGroup
  /\ parseMask (js "0[[A||0]]") = Throw EmptyAlternativeInGroup
  /\ parseMask (js "A{2}:-:0[[A|[[0{+}|]]]]:/:0") = Throw EmptyAlternativeInGroup
  /\ parseMask (js "[[A|]]:") = Throw SeparatorNotClosed
  /\ (forall pattern parsed,
        parseMask pattern = Ok parsed ->
        forall alternatives,
          In (GroupN alternatives) (allNodes parsed) ->
          alternatives <> [] /\ Forall (fun alt => alt <> []) alternatives).
Proof.
  split; [exact parseFragment_empty_alternative|].
  split; [exact parseMask_empty_alternative|].
  do 6 (split; [vm_compute; reflexivity|]).
  intros pattern parsed Hp alternatives Hin.
  pose proof (parseMask_allNodes pattern parsed Hp _ Hin) as Hwf.
  inversion Hwf as [|alts Hne Hall]; subst. split; [exact Hne|].
  eapply Forall_impl; [exact Hall|]. intros alt [Halt _]. exact Halt.
Qed.

Lemma empty_alternative_rejected_witness :
  let cfrags := [[PSymbol (ch "A") (Exactly 2)]] in
  let top := [PSymbol (ch "0") Once] in
  let outer := [{| closedAlternatives := [[PSymbol (ch "A") Once]];
                   currentItems := [] |}] in
  let inner := {| closedAlternatives := [[PSymbol (ch "0") OneOrMore]];
                  currentItems := [] |} in
  let pattern := prefixText cfrags [js "-"] top (outer ++ [inner]) ++ js "]]]]:/:0" in
  pattern = js "A{2}:-:0[[A|[[0{+}|]]]]:/:0"
  /\ (parseMask pattern = Throw EmptyAlternativeInGroup
      \/ (exists e, splitBySeparators pattern = Throw e
                    /\ parseMask pattern = Throw e)).
Proof.
  intros cfrags top outer inner pattern. split; [vm_compute; reflexivity|].
  destruct empty_alternative_rejected as (_ & H & _).
  apply (H cfrags [js "-"] top outer inner (js "]]]]:/:0")); [written..|].
  right. eexists. reflexivity.
Defined.

(** The pattern [A{0}[[A|]]] has a group with an empty alternative and
    fails with the error of the quantifier, which comes first; the pattern
    [[[A|]]:] fails in the splitter, with the error of the separator that
    is not closed. *)
Lemma empty_alternative_is_not_always_the_error :
  parseMask (js "A{0}[[A|]]") = Throw (InvalidQuantifier (js "0"))
  /\ parseMask (js "A{0}[[A|]]") <> Throw EmptyAlternativeInGroup
  /\ parseMask (js "[[A|]]:") = Throw SeparatorNotClosed
  /\ parseMask (js "[[A|]]:") <> Throw EmptyAlternativeInGroup.
Proof.
  split; [vm_compute; reflexivity|]. split; [vm_compute; discriminate|].
  split; [vm_compute; reflexivity|]. vm_compute; discriminate.
Qed.

(** ** Printing a compiled mask *)

Lemma Compiled_symbolOf (s : SymbolNode) :
  Compiled s ->
  reserved (printChar s) = false
  /\ (forall n, quantifierOf s = Exactly n -> (1 <= n)%N)
  /\ symbolOf (printChar s) (quantifierOf s) = s.
Proof.
  intros (c & Hres & Hk & Hv & Hmin & Hdbl & Hmax).
  destruct s as [k v mn mx]. cbn [kind value min max] in *.
  assert (Hchar : reserved (printChar {| kind := k; value := v; min := mn; max := mx |})
                  = false
                  /\ kind (plainSymbol (printChar {| kind := k; value := v;
                                                     min := mn; max := mx |})) = k
                  /\ value (plainSymbol (printChar {| kind := k; value := v;
                                                      min := mn; max := mx |})) = v).
  { unfold printChar, plainSymbol in *. cbn [kind value] in *. subst k v.
    destruct (isChar "A" c) eqn:EA; [repeat split; reflexivity|].
    destruct (isChar "0" c) eqn:E0; [repeat split; reflexivity|].
    cbn. rewrite EA, E0. repeat split; first [exact Hres | reflexivity]. }
  destruct Hchar as (Hr & Hk' & Hv'). split; [exact Hr|].
  unfold symbolOf, withQuantifier, quantifierOf. cbn [min max].
  rewrite Hk', Hv'.
  destruct Hmax as [->|[-> ->]].
  - destruct mn as [m|].
    + cbn in Hmin, Hdbl. destruct (N.eqb_spec m 1) as [->|Hm1].
      * split; [intros n [=]|reflexivity].
      * split; [intros n [= <-]; exact Hmin|]. cbn [boundsOf fst snd].
        rewrite Hdbl. reflexivity.
    + split; [intros n [= <-]; vm_compute; discriminate|].
      cbn [boundsOf fst snd]. rewrite toDouble_overflow. reflexivity.
  - split; [intros n [=]|reflexivity].
Qed.

Lemma Printable_patternOf (node : MaskNode) :
  Printable node -> WellWritten (patternOf node) /\ nodeOf (patternOf node) = node.
Proof.
  induction node as [s|alternatives IH] using MaskNode_ind; intros Hp.
  - inversion Hp as [s' Hs|]; subst.
    destruct (Compiled_symbolOf s Hs) as (Hr & Hq & Heq).
    split; [constructor; assumption|]. cbn [patternOf nodeOf]. rewrite Heq. reflexivity.
  - inversion Hp as [|alts Hne Hall]; subst. cbn [patternOf nodeOf].
    assert (Hboth : Forall (fun alt =>
                      Forall WellWritten (map patternOf alt)
                      /\ map nodeOf (map patternOf alt) = alt) alternatives).
    { rewrite List.Forall_forall in *. intros alt Halt.
      specialize (IH alt Halt). destruct (Hall alt Halt) as [_ Hpalt].
      rewrite List.Forall_forall in IH, Hpalt.
      split.
      - apply Forall_map, List.Forall_forall. intros n Hn.
        apply (IH n Hn), Hpalt, Hn.
      - rewrite map_map. rewrite <- (map_id alt) at 2. apply map_ext_in.
        intros n Hn. apply (IH n Hn), Hpalt, Hn. }
    split.
    + constructor.
      * destruct alternatives; [congruence|discriminate].
      * apply Forall_map. rewrite List.Forall_forall in *. intros alt Halt.
        destruct (Hall alt Halt) as [Haltne _]. destruct (Hboth alt Halt) as [Hw _].
        split; [destruct alt; [congruence|discriminate] | exact Hw].
    + f_equal. rewrite map_map. rewrite <- (map_id alternatives) at 2.
      apply map_ext_in. intros alt Halt. rewrite List.Forall_forall in Hboth.
      apply (Hboth alt Halt).
Qed.

Lemma Printable_patterns (nodes : list MaskNode) :
  Forall Printable nodes ->
  Forall WellWritten (map patternOf nodes) /\ map nodeOf (map patternOf nodes) = nodes.
Proof.
  induction 1 as [|node nodes Hnode _ [IH1 IH2]]; [split; [constructor|reflexivity]|].
  destruct (Printable_patternOf node Hnode) as [Hw Heq].
  cbn [map]. split; [constructor; assumption|]. rewrite Heq, IH2. reflexivity.
Qed.

(** A printable mask is what the compiler makes of its printed pattern. *)
Lemma parseMask_printMask (parsed : ParsedMask) :
  PrintableMask parsed -> parseMask (printMask parsed) = Ok parsed.
Proof.
  intros (Hfs & Hlen & Hss). unfold printMask.
  rewrite parseMask_write.
  - destruct parsed as [frags seps]. cbn [fragments separators] in *. f_equal. f_equal.
    rewrite map_map. rewrite <- (map_id frags) at 2. apply map_ext_in.
    intros f Hf. rewrite List.Forall_forall in Hfs.
    apply (Printable_patterns f), (Hfs f Hf).
  - apply Forall_map. eapply Forall_impl; [exact Hfs|].
    intros f [Hne Hf]. destruct (Printable_patterns f Hf) as [Hw _].
    split; [destruct f; [congruence|discriminate] | exact Hw].
  - rewrite length_map. exact Hlen.
  - exact Hss.
Qed.

Lemma Printable_of (node : MaskNode) :
  WellFormed node -> EverySymbol Compiled node -> Printable node.
Proof.
  induction node as [s|alternatives IH] using MaskNode_ind; intros Hwf Hev.
  - inversion Hev; subst. constructor. assumption.
  - inversion Hwf as [|? Hne Hall]; subst. inversion Hev as [|? Hev']; subst.
    constructor; [exact Hne|].
    rewrite List.Forall_forall in *. intros alt Hin.
    destruct (Hall alt Hin) as [Hane Hawf]. split; [exact Hane|].
    specialize (IH alt Hin). specialize (Hev' alt Hin).
    rewrite List.Forall_forall in *. intros n Hn.
    apply IH; auto.
Qed.

(** Every mask the compiler returns is printable. *)
Lemma parseMask_PrintableMask (pattern : str) (parsed : ParsedMask) :
  parseMask pattern = Ok parsed -> PrintableMask parsed.
Proof.
  intros Hp. split; [|split].
  - pose proof (parseMask_wf pattern parsed Hp) as Hwf.
    destruct (parseMask_parts pattern parsed Hp) as (raws & _ & Hall).
    rewrite List.Forall_forall in *. intros f Hf.
    destruct (Hwf f Hf) as [Hne Hfwf]. split; [exact Hne|].
    apply list_elem_of_In in Hf.
    destruct (proj1 (list_elem_of_lookup _ _) Hf) as [i Hi].
    destruct (Forall2_lookup_r _ _ _ _ _ Hall Hi) as (raw & _ & Hparse).
    apply (parseFragment_loop_every Compiled parseSymbol_Compiled) in Hparse;
      [|constructor].
    rewrite List.Forall_forall in *. intros n Hn.
    apply Printable_of; auto.
  - exact (parseMask_length pattern parsed Hp).
  - unfold parseMask, bind in Hp. destruct (isEmpty pattern); [discriminate|].
    destruct (splitBySeparators pattern) as [[raws seps]| |] eqn:Es; try discriminate.
    destruct (mapParse raws) as [frags| |] eqn:Em; try discriminate.
    injection Hp as <-. simpl.
    exact (proj2 (splitBySeparators_loop_NoColon _ _ _ _ _ _ _ _
                    (List.Forall_nil _) (List.Forall_nil _) (List.Forall_nil _) Es)).
Qed.

(** X15. A list of printable nodes (symbols as the compiler builds them,
    groups with at least one alternative and no empty alternative) is read
    back by [parseFragment] from its printed text: the character of each
    symbol with its quantifier (none for exactly one repetition, [{+}] for
    one or more, [{n}] for the double [n], and a numeral beyond the range
    of doubles for the bounds [Infinity]), and each group between double
    brackets with bars between its alternatives. *)
Theorem parseFragment_print_round_trip (nodes : list MaskNode) :
  Forall Printable nodes ->
  parseFragment (printNodes nodes) = Ok nodes.
Proof.
  intros Hall. destruct (Printable_patterns nodes Hall) as [Hw Heq].
  unfold printNodes. rewrite parseFragment_write by exact Hw.
  rewrite Heq. reflexivity.
Qed.

Lemma parseFragment_print_round_trip_witness :
  let nodes :=
    [SymbolN {| kind := KindLiteral; value := Some (ch "+");
                min := Fin 1; max := Fin 1 |};
     SymbolN {| kind := Kind0; value := None;
                min := Fin 9007199254740992; max := Fin 9007199254740992 |};
     GroupN [[letterNode;
              GroupN [[digitNode]; [letterNode; letterNode]]];
             [SymbolN {| kind := KindA; value := None;
                         min := Fin 1; max := Infinity |}]]] in
  printNodes nodes = js "+0{9007199254740992}[[A[[0|AA]]|A{+}]]"
  /\ parseFragment (printNodes nodes) = Ok nodes.
Proof.
  intros nodes. split; [vm_compute; reflexivity|].
  apply (parseFragment_print_round_trip nodes).
  assert (HA : Compiled {| kind := KindA; value := None; min := Fin 1; max := Fin 1 |}).
  { exists (ch "A"). repeat split; try reflexivity; try (cbn; lia).
    left. reflexivity. }
  assert (H0 : Compiled {| kind := Kind0; value := None; min := Fin 1; max := Fin 1 |}).
  { exists (ch "0"). repeat split; try reflexivity; try (cbn; lia).
    left. reflexivity. }
  repeat first
    [ apply List.Forall_nil
    | apply List.Forall_cons
    | split
    | discriminate
    | apply printable_symbol
    | apply printable_group
    | exact HA | exact H0 ].
  - exists (ch "+").
    split; [reflexivity|]. split; [reflexivity|]. split; [reflexivity|].
    split; [cbn; lia|]. split; [reflexivity | left; reflexivity].
  - exists (ch "0").
    split; [reflexivity|]. split; [reflexivity|]. split; [reflexivity|].
    split; [vm_compute; discriminate|].
    split; [vm_compute; reflexivity | left; reflexivity].
  - exists (ch "A").
    split; [reflexivity|]. split; [reflexivity|]. split; [reflexivity|].
    split; [cbn; lia|]. split; [reflexivity | right; split; reflexivity].
Defined.

(** X16. A mask with one fragment more than separators, whose fragments
    are non-empty lists of printable nodes and whose separators contain no
    colon, is the result of compiling its printed pattern (the printed
    fragments with the separators, each between two colons, between
    them): [parseMask] reaches every such mask. *)
Theorem printMask_round_trip (parsed : ParsedMask) :
  PrintableMask parsed -> parseMask (printMask parsed) = Ok parsed.
Proof. exact (parseMask_printMask parsed). Qed.

Lemma printMask_round_trip_witness :
  let parsed :=
    {| fragments :=
         [[SymbolN {| kind := Kind0; value := None; min := Fin 3; max := Fin 3 |}];
          [GroupN [[letterNode]; [digitNode]]];
          [SymbolN {| kind := KindA; value := None; min := Fin 1; max := Infinity |}]];
       separators := [js "-"; js " / "] |} in
  printMask parsed = js "0{3}:-:[[A|0]]: / :A{+}"
  /\ parseMask (printMask parsed) = Ok parsed.
Proof.
  intros parsed. split; [vm_compute; reflexivity|].
  apply (printMask_round_trip parsed).
  apply (parseMask_PrintableMask (js "0{3}:-:[[A|0]]: / :A{+}")).
  vm_compute. reflexivity.
Defined.

(** X17. Every mask the compiler returns is printable, and compiling its
    printed pattern gives the same mask again: the printed pattern is a
    normal form of the pattern (for instance [A{1}] and [A] compile to the
    same mask, printed [A], and a count that is no double is printed as the
    double it was rounded to). *)
Theorem compiled_mask_prints_back (pattern : str) (parsed : ParsedMask) :
  parseMask pattern = Ok parsed ->
  PrintableMask parsed
  /\ parseMask (printMask parsed) = Ok parsed
  /\ parseMask (printMask parsed) = parseMask pattern.
Proof.
  intros Hp. pose proof (parseMask_PrintableMask pattern parsed Hp) as H.
  split; [exact H|]. rewrite Hp. split; apply parseMask_printMask, H.
Qed.

Lemma compiled_mask_prints_back_witness :
  let parsed :=
    {| fragments :=
         [[letterNode;
           SymbolN {| kind := Kind0; value := None;
                      min := Fin 9007199254740992; max := Fin 9007199254740992 |}]];
       separators := [] |} in
  PrintableMask parsed
  /\ parseMask (printMask parsed) = Ok parsed
  /\ parseMask (printMask parsed) = parseMask (js "A{1}0{9007199254740993}").
Proof.
  intros parsed.
  apply (compiled_mask_prints_back (js "A{1}0{9007199254740993}") parsed).
  vm_compute. reflexivity.
Defined.

Lemma symbolOf_Once (c : char) : symbolOf c Once = plainSymbol c.
Proof. reflexivity. Qed.

Lemma writeAll_plain (text : str) :
  writeAll (map (fun c => PSymbol c Once) text) = text.
Proof.
  induction text as [|c text IH]; [reflexivity|].
  cbn [map]. rewrite writeAll_cons, IH. reflexivity.
Qed.

(** X18. A non-empty pattern without any of the reserved characters
    (colon, braces, bar, brackets) always compiles: to one fragment with
    one node per character, each repeated exactly once, and no separator;
    such a mask is formatted by the contiguous branch. *)
Theorem parseMask_plain (pattern : str) :
  pattern <> [] ->
  Forall (fun c => reserved c = false) pattern ->
  let parsed :=
    {| fragments := [map (fun c => SymbolN (plainSymbol c)) pattern];
       separators := [] |} in
  parseMask pattern = Ok parsed /\ manualSpaceMask parsed = false.
Proof.
  intros Hne Hall parsed. split; [|reflexivity].
  pose proof (parseMask_write [map (fun c => PSymbol c Once) pattern] []) as H.
  unfold writeMask in H. cbn [map interleave length] in H.
  rewrite writeAll_plain, map_map in H. apply H.
  - constructor; [|constructor]. split.
    + destruct pattern; [congruence|discriminate].
    + apply Forall_map. eapply Forall_impl; [exact Hall|].
      intros c Hc. constructor; [exact Hc | intros n [=]].
  - reflexivity.
  - constructor.
Qed.

Lemma parseMask_plain_witness :
  let parsed :=
    {| fragments := [map (fun c => SymbolN (plainSymbol c)) (js "+7 (000) 000-00-00")];
       separators := [] |} in
  parseMask (js "+7 (000) 000-00-00") = Ok parsed /\ manualSpaceMask parsed = false.
Proof.
  apply (parseMask_plain (js "+7 (000) 000-00-00")).
  - discriminate.
  - repeat constructor.
Defined.
